(** * Shortest-path engine: Dijkstra, A-star, heuristics and connectivity

    A shallow embedding of the pathfinding core of the route visualizer
    ([src/algorithms/graph.py], [src/algorithms/dijkstra.py],
    [src/algorithms/astar.py], [src/algorithms/heuristics.py],
    [src/services/routing.py], [src/utils/types.py],
    [src/utils/validators.py]) and the properties proved about it.

    Conventions of the embedding.
    - A Python [float] is an exact number.  Where the code only adds and
      compares (edge weights, distances, priorities, the value a heuristic
      returns to a search) it is a rational ([Q]), as every finite float is;
      where the code calls [math.sin], [math.cos], [math.asin] and
      [math.sqrt] (the distance functions of [heuristics.py]) it is a real
      ([R]).  Infinities and NaN are not modelled; [float('inf')] is [None]
      of an [option].
    - Rounding is not modelled either, so a property that depends on the
      value of a sum is stated for the inputs on which binary64 addition is
      exact ([exact_weights], [exact_estimates]: multiples of one power of
      two that add up within [2^53] steps), and a property of the search for
      the closest node is stated for whatever the distance function returns
      or raises ([find_closest_node_by]).
    - A [dict] keyed by [Node] is keyed by the node identifier, since
      [Node.__hash__] and [Node.__eq__] read the identifier only.  The
      adjacency dict of [Graph], whose insertion order is observable through
      [nodes()], is an association list; the dicts and the set local to a
      search are [gmap]s and a [gset].
    - A function that may raise returns an [outcome]; a [while] loop takes
      fuel, and the fuel passed by the callers is proved sufficient.
    - [print] calls are dropped; the two readings of [time.time()] are
      represented by the elapsed milliseconds they yield, a natural number
      handed to the search as an argument. *)

From Stdlib Require Import QArith Qabs Reals Psatz.
From stdpp Require Import gmap strings list fin_maps.

Set Default Proof Using "Type".

(** ** Exceptions and outcomes *)

Inductive exn : Type :=
  | ValueError (msg : string)
  | KeyError
  | NoRouteError (msg : string).

Inductive outcome (A : Type) : Type :=
  | Returned (a : A)
  | Raised (e : exn)
  | OutOfFuel.

Arguments Returned {A} a.
Arguments Raised {A} e.
Arguments OutOfFuel {A}.

(** Sequencing: [x ← m; k] runs [k] on what [m] returned and passes an
    exception on. *)
#[global] Instance outcome_bind : MBind outcome := λ A B k m,
  match m with
  | Returned a => k a
  | Raised e => Raised e
  | OutOfFuel => OutOfFuel
  end.

(** Strict comparison of two floats, [x < y]. *)
Definition Qltb (x y : Q) : bool := negb (Qle_bool y x).

(** ** [src/utils/types.py] *)

Record Node : Type := mkNode {
  id : string;
  latitude : Q;
  longitude : Q
}.

(** [Node.__eq__]: equality on the identifier alone. *)
Definition node_eqb (a b : Node) : bool := bool_decide (id a = id b).

(** [x in xs] for a list of nodes. *)
Definition node_in (x : Node) (xs : list Node) : bool := existsb (node_eqb x) xs.

Record Location : Type := mkLocation {
  address : string;
  loc_latitude : Q;
  loc_longitude : Q
}.

(** [Location(...)]: the dataclass constructor followed by [__post_init__]. *)
Definition Location_init (address : string) (latitude longitude : Q)
    : outcome Location :=
  if bool_decide (address = ""%string) then
    Raised (ValueError "Address cannot be empty")
  else if negb (Qle_bool (-90) latitude && Qle_bool latitude 90) then
    Raised (ValueError "Invalid latitude")
  else if negb (Qle_bool (-180) longitude && Qle_bool longitude 180) then
    Raised (ValueError "Invalid longitude")
  else
    Returned (mkLocation address latitude longitude).

Record Route : Type := mkRoute {
  path : list Node;
  total_distance : Q;
  algorithm : string;
  execution_time : Z;
  nodes_explored : Z;
  explored_nodes : list Node;
  open_set_nodes : list Node;
  explored_edges : list (Node * Node)
}.

(** [Route(...)]: the dataclass constructor followed by [__post_init__].
    The messages are given without the number the source appends. *)
Definition Route_init (path : list Node) (total_distance : Q) (algorithm : string)
    (execution_time nodes_explored : Z)
    (explored_nodes open_set_nodes : list Node)
    (explored_edges : list (Node * Node)) : outcome Route :=
  if Qltb total_distance 0 then
    Raised (ValueError "Distance cannot be negative")
  else if (execution_time <? 0)%Z then
    Raised (ValueError "Execution time cannot be negative")
  else if (nodes_explored <? 0)%Z then
    Raised (ValueError "Nodes explored cannot be negative")
  else
    Returned (mkRoute path total_distance algorithm execution_time nodes_explored
                explored_nodes open_set_nodes explored_edges).

(** [x is None]. *)
Definition is_None {A : Type} (x : option A) : bool :=
  match x with None => true | Some _ => false end.

Record PathfindingResult : Type := mkPathfindingResult {
  success : bool;
  route : option Route;
  error : option string
}.

(** [PathfindingResult(...)]: the dataclass constructor followed by
    [__post_init__]. *)
Definition PathfindingResult_init (success : bool) (route : option Route)
    (error : option string) : outcome PathfindingResult :=
  if success && is_None route then
    Raised (ValueError "Successful result must include a route")
  else if negb success && is_None error then
    Raised (ValueError "Failed result must include an error message")
  else
    Returned (mkPathfindingResult success route error).

(** ** [src/algorithms/graph.py] *)

(** [_adjacency : Dict[Node, List[Tuple[Node, float]]]], in insertion order.
    The key stored is the node object that created the entry. *)
Record Graph : Type := mkGraph {
  _adjacency : list (Node * list (Node * Q))
}.

(** [Graph()] *)
Definition Graph_init : Graph := mkGraph [].

(** [d.get(node)] on the adjacency dict. *)
Fixpoint adj_get (adj : list (Node * list (Node * Q))) (node : Node)
    : option (list (Node * Q)) :=
  match adj with
  | [] => None
  | (k, v) :: rest => if node_eqb node k then Some v else adj_get rest node
  end.

(** [d[node].append(item)] on the adjacency dict. *)
Fixpoint adj_append (adj : list (Node * list (Node * Q))) (node : Node)
    (item : Node * Q) : list (Node * list (Node * Q)) :=
  match adj with
  | [] => []
  | (k, v) :: rest =>
      if node_eqb node k then (k, v ++ [item]) :: rest
      else (k, v) :: adj_append rest node item
  end.

Definition add_node (g : Graph) (node : Node) : Graph :=
  if is_None (adj_get (_adjacency g) node)
  then mkGraph (_adjacency g ++ [(node, [])])
  else g.

Definition add_edge (g : Graph) (from_node to_node : Node) (weight : Q)
    (bidirectional : bool) : outcome Graph :=
  if Qle_bool weight 0 then
    Raised (ValueError "Edge weight must be positive")
  else
    let g := add_node g from_node in
    let g := add_node g to_node in
    let adj := adj_append (_adjacency g) from_node (to_node, weight) in
    let adj := if bidirectional
               then adj_append adj to_node (from_node, weight) else adj in
    Returned (mkGraph adj).

Definition neighbors (g : Graph) (node : Node) : list (Node * Q) :=
  default [] (adj_get (_adjacency g) node).

Definition nodes (g : Graph) : list Node := map fst (_adjacency g).

(** ** The frontier: [heapq] on a list of [(priority, counter, node)]

    [heapq] is used through its contract: [heappush] adds an entry and
    [heappop] removes and returns the smallest one.  Entries are compared as
    Python tuples, priority first and insertion counter second; the counters
    of a search are pairwise distinct, so the comparison never reaches the
    node. *)

Definition entry : Type := Q * nat * Node.

Definition entry_ltb (a b : entry) : bool :=
  let '(k1, c1, _) := a in
  let '(k2, c2, _) := b in
  if Qeq_bool k1 k2 then Nat.ltb c1 c2 else Qltb k1 k2.

Definition heappush (pq : list entry) (e : entry) : list entry := pq ++ [e].

(** The smallest entry of [e :: l], and the others. *)
Fixpoint extract_min (e : entry) (l : list entry) : entry * list entry :=
  match l with
  | [] => (e, [])
  | x :: l' =>
      let '(m, r) := extract_min x l' in
      if entry_ltb m e then (m, e :: r) else (e, x :: l')
  end.

Definition heappop (pq : list entry) : option (entry * list entry) :=
  match pq with
  | [] => None
  | e :: l => Some (extract_min e l)
  end.

(** ** The search core shared by [dijkstra.py] and [astar.py]

    The two functions have the same body up to the priority key; [algo]
    names the variant and the two places where they differ are a [match]
    on it. *)

Inductive algo : Type :=
  | Dijkstra
  | AStar (heuristic : Node → Node → Q).

(** The local variables of a search.  [st_cost] is [distances] in
    [dijkstra] and [g_score] in [astar]. *)
Record state : Type := mkState {
  st_counter : nat;
  st_pq : list entry;
  st_cost : gmap string Q;
  st_came_from : gmap string Node;
  st_visited : gset string;
  st_explored_nodes : list Node;
  st_open_set_nodes : list Node;
  st_explored_edges : list (Node * Node)
}.

(** The priority of a frontier entry: the tentative cost, plus the heuristic
    estimate to the goal in [astar]. *)
Definition priority (alg : algo) (goal neighbor : Node) (cost : Q) : Q :=
  match alg with
  | Dijkstra => cost
  | AStar heuristic => (cost + heuristic neighbor goal)%Q
  end.

(** The cost of the node being expanded: [current_distance], read off the
    popped entry, in [dijkstra]; [g_score[current]] in [astar]. *)
Definition current_cost (alg : algo) (current : Node) (popped : Q)
    (cost : gmap string Q) : outcome Q :=
  match alg with
  | Dijkstra => Returned popped
  | AStar _ =>
      match cost !! id current with
      | Some d => Returned d
      | None => Raised KeyError
      end
  end.

(** One turn of [for neighbor, edge_weight in graph.neighbors(current)]. *)
Definition relax (alg : algo) (goal current : Node) (popped : Q)
    (st : state) (nw : Node * Q) : outcome state :=
  let '(neighbor, edge_weight) := nw in
  let edges := st_explored_edges st ++ [(current, neighbor)] in
  if bool_decide (id neighbor ∈ st_visited st) then
    Returned (mkState (st_counter st) (st_pq st) (st_cost st) (st_came_from st)
                (st_visited st) (st_explored_nodes st) (st_open_set_nodes st)
                edges)
  else
    base ← current_cost alg current popped (st_cost st);
    let new_distance := (base + edge_weight)%Q in
    if match st_cost st !! id neighbor with
       | None => true
       | Some d => Qltb new_distance d
       end
    then
      Returned (mkState (S (st_counter st))
                  (heappush (st_pq st)
                     (priority alg goal neighbor new_distance, st_counter st, neighbor))
                  (<[id neighbor := new_distance]> (st_cost st))
                  (<[id neighbor := current]> (st_came_from st))
                  (st_visited st) (st_explored_nodes st)
                  (if node_in neighbor (st_open_set_nodes st)
                   then st_open_set_nodes st
                   else st_open_set_nodes st ++ [neighbor])
                  edges)
    else
      Returned (mkState (st_counter st) (st_pq st) (st_cost st) (st_came_from st)
                  (st_visited st) (st_explored_nodes st) (st_open_set_nodes st)
                  edges).

(** The whole [for] loop over [graph.neighbors(current)]. *)
Fixpoint expand (alg : algo) (goal current : Node) (popped : Q)
    (nbrs : list (Node * Q)) (st : state) : outcome state :=
  match nbrs with
  | [] => Returned st
  | nw :: rest =>
      st' ← relax alg goal current popped st nw;
      expand alg goal current popped rest st'
  end.

(** The state once [heappop] has taken an entry off the frontier. *)
Definition set_pq (pq' : list entry) (st : state) : state :=
  mkState (st_counter st) pq' (st_cost st) (st_came_from st) (st_visited st)
    (st_explored_nodes st) (st_open_set_nodes st) (st_explored_edges st).

(** [visited.add(current)] and [explored_nodes.append(current)]. *)
Definition mark_visited (current : Node) (st : state) : state :=
  mkState (st_counter st) (st_pq st) (st_cost st) (st_came_from st)
    ({[id current]} ∪ st_visited st) (st_explored_nodes st ++ [current])
    (st_open_set_nodes st) (st_explored_edges st).

(** [while pq: ...], with [break] at the goal. *)
Fixpoint search_loop (alg : algo) (g : Graph) (goal : Node) (fuel : nat)
    (st : state) : outcome state :=
  match fuel with
  | O => OutOfFuel
  | S fuel' =>
      match heappop (st_pq st) with
      | None => Returned st
      | Some ((popped, _, current), pq') =>
          let st := set_pq pq' st in
          if bool_decide (id current ∈ st_visited st) then
            search_loop alg g goal fuel' st
          else
            let st := mark_visited current st in
            if node_eqb current goal then Returned st
            else
              st ← expand alg goal current popped (neighbors g current) st;
              search_loop alg g goal fuel' st
      end
  end.

(** The priority the start node is seeded with. *)
Definition initial_priority (alg : algo) (start goal : Node) : Q :=
  match alg with
  | Dijkstra => 0
  | AStar heuristic => heuristic start goal
  end.

(** The state a search starts its loop in. *)
Definition init_state (alg : algo) (start goal : Node) : state :=
  mkState 1 [(initial_priority alg start goal, 0, start)]
    {[id start := 0%Q]} ∅ ∅ [] [start] [].

(** Number of adjacency entries of the graph; the loop runs at most once per
    frontier entry, and at most one entry is pushed per adjacency entry. *)
Definition edge_count (g : Graph) : nat :=
  sum_list (map (λ kv, length (snd kv)) (_adjacency g)).

Definition search_fuel (g : Graph) : nat := S (S (edge_count g)).

(** [while current_node != start: ...] followed by [path.append(start)]. *)
Fixpoint walk_back (came_from : gmap string Node) (start : Node) (fuel : nat)
    (current_node : Node) (path : list Node) : outcome (list Node) :=
  match fuel with
  | O => OutOfFuel
  | S fuel' =>
      if node_eqb current_node start then Returned (path ++ [start])
      else
        match came_from !! id current_node with
        | None => Raised KeyError
        | Some parent =>
            walk_back came_from start fuel' parent (path ++ [current_node])
        end
  end.

(** Everything after the main loop: the reachability check, the path
    reconstruction and the packaging of the result. *)
Definition finish (name : string) (start goal : Node) (elapsed : N)
    (st : state) : outcome PathfindingResult :=
  if is_None (st_came_from st !! id goal) && negb (node_eqb goal start) then
    PathfindingResult_init false None
      (Some ("No path found from " +:+ id start +:+ " to " +:+ id goal))
  else
    path ← walk_back (st_came_from st) start
              (S (length (st_explored_nodes st))) goal [];
    let path := rev path in
    match st_cost st !! id goal with
    | None => Raised KeyError
    | Some d =>
        route ← Route_init path d name (Z.of_N elapsed)
                   (Z.of_nat (length (st_explored_nodes st)))
                   (st_explored_nodes st) (st_open_set_nodes st)
                   (st_explored_edges st);
        PathfindingResult_init true (Some route) None
    end.

(** The [if start == goal:] branch. *)
Definition trivial_route (name : string) (start : Node) (elapsed : N)
    : outcome PathfindingResult :=
  route ← Route_init [start] 0 name (Z.of_N elapsed) 1 [start] [start] [];
  PathfindingResult_init true (Some route) None.

(** [src/algorithms/dijkstra.py] *)
Definition dijkstra (graph : Graph) (start goal : Node) (elapsed : N)
    : outcome PathfindingResult :=
  if negb (node_in start (nodes graph)) then
    PathfindingResult_init false None
      (Some ("Start node " +:+ id start +:+ " not found in graph"))
  else if negb (node_in goal (nodes graph)) then
    PathfindingResult_init false None
      (Some ("Goal node " +:+ id goal +:+ " not found in graph"))
  else if node_eqb start goal then
    trivial_route "Dijkstra" start elapsed
  else
    st ← search_loop Dijkstra graph goal (search_fuel graph)
           (init_state Dijkstra start goal);
    finish "Dijkstra" start goal elapsed st.

(** [src/algorithms/astar.py].  The heuristic argument is [None] when the
    caller passed something that is not callable. *)
Definition astar (graph : Graph) (start goal : Node)
    (heuristic : option (Node → Node → Q)) (elapsed : N)
    : outcome PathfindingResult :=
  if negb (node_in start (nodes graph)) then
    PathfindingResult_init false None
      (Some ("Start node " +:+ id start +:+ " not found in graph"))
  else if negb (node_in goal (nodes graph)) then
    PathfindingResult_init false None
      (Some ("Goal node " +:+ id goal +:+ " not found in graph"))
  else
    match heuristic with
    | None =>
        PathfindingResult_init false None
          (Some "Heuristic must be a callable function")
    | Some h =>
        if node_eqb start goal then
          trivial_route "A*" start elapsed
        else
          st ← search_loop (AStar h) graph goal (search_fuel graph)
                 (init_state (AStar h) start goal);
          finish "A*" start goal elapsed st
    end.

(** Every node object stored as the target of an adjacency entry. *)
Definition targets (g : Graph) : list Node :=
  concat (map (λ kv, map fst (snd kv)) (_adjacency g)).

(** ** Paths of a graph and the notions the properties are stated with

    [walk g u v c]: there is a path from the node identified by [u] to the
    node identified by [v] along adjacency entries of [g], whose weights add
    up to [c]. *)

Inductive walk (g : Graph) : string → string → Q → Prop :=
  | walk_nil (u : string) : walk g u u 0
  | walk_cons (a n : Node) (w : Q) (v : string) (c : Q) :
      (n, w) ∈ neighbors g a →
      walk g (id n) v c →
      walk g (id a) v (w + c).

(** The edges recorded while expanding [u], and while expanding each node of
    a list in turn. *)
Definition edges_from (g : Graph) (u : Node) : list (Node * Node) :=
  map (λ nw, (u, fst nw)) (neighbors g u).

Definition edges_of (g : Graph) (us : list Node) : list (Node * Node) :=
  concat (map (edges_from g) us).

(** [linked a b]: some adjacency entry of [a] leads to [b]. *)
Definition linked (g : Graph) (a b : Node) : Prop :=
  ∃ n w, (n, w) ∈ neighbors g a ∧ id n = id b.

(** Every node of the list is followed by one of its neighbours. *)
Definition contiguous (g : Graph) (p : list Node) : Prop :=
  ∀ i a b, p !! i = Some a → p !! S i = Some b → linked g a b.

(** The message of a search that exhausted the frontier. *)
Definition no_path_message (start goal : Node) : string :=
  "No path found from " +:+ id start +:+ " to " +:+ id goal.

(** [n in graph.nodes()] *)
Definition present (g : Graph) (n : Node) : Prop := node_in n (nodes g) = true.

(** The shared tail of [dijkstra] and [astar]. *)
Definition run (alg : algo) (name : string) (g : Graph) (start goal : Node)
    (elapsed : N) : outcome PathfindingResult :=
  st ← search_loop alg g goal (search_fuel g) (init_state alg start goal);
  finish name start goal elapsed st.

(** [d] is the least cost of a path from [start] to [goal]. *)
Definition min_cost (g : Graph) (start goal : Node) (d : Q) : Prop :=
  (∃ c, walk g (id start) (id goal) c ∧ (c == d)%Q) ∧
  ∀ c, walk g (id start) (id goal) c → (d <= c)%Q.

(** Edge weights as [add_edge] accepts them. *)
Definition positive_weights (g : Graph) : Prop :=
  ∀ a n w, (n, w) ∈ neighbors g a → (0 < w)%Q.

(** The node objects a search can hand to the heuristic: the start node and
    the targets of the adjacency entries. *)
Definition node_objects (g : Graph) (start : Node) : list Node :=
  start :: targets g.

(** [h] never overestimates the cost of reaching [goal]. *)
Definition admissible (g : Graph) (start goal : Node) (h : Node → Node → Q) : Prop :=
  ∀ a c, a ∈ node_objects g start → walk g (id a) (id goal) c →
         (h a goal <= c)%Q.

(** [h(a) ≤ cost(a, b) + h(b)] for every edge [(a, b)]. *)
Definition consistent (g : Graph) (start goal : Node) (h : Node → Node → Q) : Prop :=
  ∀ a n w, a ∈ node_objects g start → (n, w) ∈ neighbors g a →
           (h a goal <= w + h n goal)%Q.

(** [h] gives equal nodes, that is nodes with one identifier, one estimate. *)
Definition respects_identity (g : Graph) (start goal : Node)
    (h : Node → Node → Q) : Prop :=
  ∀ a b, a ∈ node_objects g start → b ∈ node_objects g start →
         id a = id b → (h a goal == h b goal)%Q.

(** *** Numbers on which float arithmetic is exact

    A Python [float] is a binary64 number, and the sum of two of them is
    rounded.  No rounding takes place among the multiples of [2^-m] of
    magnitude at most [2^(53-m)], for [m] up to 1000: all of them are
    binary64 numbers, and so is the sum of two of them that stays in the
    range.  The whole numbers up to [2^53] are the case [m = 0]. *)

(** [q] is a whole multiple of [2^-m]. *)
Definition on_grid (m : nat) (q : Q) : Prop :=
  ∃ z : Z, (q * inject_Z (2 ^ Z.of_nat m) == inject_Z z)%Q.

(** The sum of the magnitudes of all edge weights: no sum of weights along a
    path that visits no node twice exceeds it. *)
Definition weight_sum (g : Graph) : Q :=
  fold_right Qplus 0%Q
    (map (λ kv, fold_right Qplus 0%Q (map (λ nw, Qabs (snd nw)) (snd kv)))
       (_adjacency g)).

(** The largest magnitude on the grid: [2^53] steps of [2^-m]. *)
Definition in_range (m : nat) (q : Q) : Prop :=
  (q * inject_Z (2 ^ Z.of_nat m) <= inject_Z (2 ^ 53))%Q.

(** Every cost that a search on [g] computes is computed exactly. *)
Definition exact_weights (m : nat) (g : Graph) : Prop :=
  (m ≤ 1000)%nat ∧
  (∀ a n w, (n, w) ∈ neighbors g a → on_grid m w) ∧
  in_range m (weight_sum g).

(** Every priority that [astar] computes on [g] with [h] is computed
    exactly. *)
Definition exact_estimates (m : nat) (g : Graph) (start goal : Node)
    (h : Node → Node → Q) : Prop :=
  ∀ a, a ∈ node_objects g start →
       on_grid m (h a goal) ∧ (0 <= h a goal)%Q ∧
       in_range m (weight_sum g + h a goal).

(** [sub in msg] for two strings. *)
Definition mentions (msg sub : string) : Prop :=
  ∃ p s, msg = p +:+ sub +:+ s.

(** ** [src/algorithms/heuristics.py] *)

(** [math.radians] *)
Definition radians (x : R) : R := (x * PI / 180)%R.

Definition euclidean_distance (node1 node2 : Node) : R :=
  if node_eqb node1 node2 then 0%R
  else
    let lat1 := radians (Q2R (latitude node1)) in
    let lon1 := radians (Q2R (longitude node1)) in
    let lat2 := radians (Q2R (latitude node2)) in
    let lon2 := radians (Q2R (longitude node2)) in
    let dlat := (lat2 - lat1)%R in
    let dlon := (lon2 - lon1)%R in
    let a := (sin (dlat / 2) ^ 2 + cos lat1 * cos lat2 * sin (dlon / 2) ^ 2)%R in
    let c := (2 * asin (sqrt a))%R in
    let radius_km := 6371%R in
    (radius_km * c)%R.

Definition manhattan_distance (node1 node2 : Node) : R :=
  if node_eqb node1 node2 then 0%R
  else
    let lat_diff := Rabs (Q2R (latitude node2) - Q2R (latitude node1)) in
    let lon_diff := Rabs (Q2R (longitude node2) - Q2R (longitude node1)) in
    let avg_lat := ((Q2R (latitude node1) + Q2R (latitude node2)) / 2)%R in
    let lat_dist := (lat_diff * 111)%R in
    let lon_dist := (lon_diff * 111 * cos (radians avg_lat))%R in
    (lat_dist + lon_dist)%R.

Definition diagonal_distance (node1 node2 : Node) : R :=
  if node_eqb node1 node2 then 0%R
  else
    let lat_diff := Rabs (Q2R (latitude node2) - Q2R (latitude node1)) in
    let lon_diff := Rabs (Q2R (longitude node2) - Q2R (longitude node1)) in
    let avg_lat := ((Q2R (latitude node1) + Q2R (latitude node2)) / 2)%R in
    let lat_dist := (lat_diff * 111)%R in
    let lon_dist := (lon_diff * 111 * cos (radians avg_lat))%R in
    Rmax lat_dist lon_dist.

Definition simple_distance (node1 node2 : Node) : R :=
  if node_eqb node1 node2 then 0%R
  else
    let lat_diff := (Q2R (latitude node2) - Q2R (latitude node1))%R in
    let lon_diff := (Q2R (longitude node2) - Q2R (longitude node1))%R in
    let avg_lat := ((Q2R (latitude node1) + Q2R (latitude node2)) / 2)%R in
    let lat_factor := (1 - (avg_lat / 90) ^ 2 * (1 / 2))%R in
    let lat_km := (lat_diff * 111)%R in
    let lon_km := (lon_diff * 111 * lat_factor)%R in
    sqrt (lat_km * lat_km + lon_km * lon_km).

(** ** [src/services/routing.py] *)

(** [dist < min_distance], where [None] is [float('inf')]. *)
Definition below (dist : R) (min_distance : option R) : bool :=
  match min_distance with
  | None => true
  | Some m => if Rlt_dec dist m then true else false
  end.

(** One turn of [for node in all_nodes] in [find_closest_node]. *)
Definition closer (location_node : Node) (best : Node * option R) (node : Node)
    : Node * option R :=
  let dist := euclidean_distance location_node node in
  if below dist (snd best) then (node, Some dist) else best.

Definition find_closest_node (location : Location) (graph : Graph)
    : outcome (Node * option R) :=
  let all_nodes := nodes graph in
  match all_nodes with
  | [] => Raised (NoRouteError "Graph has no nodes")
  | first :: _ =>
      let location_node :=
        mkNode "temp" (loc_latitude location) (loc_longitude location) in
      Returned (fold_left (closer location_node) all_nodes (first, None))
  end.

(** [find_closest_node] with the distance function it calls as a parameter.
    The parameter stands for [euclidean_distance] as the program computes it
    on binary64 numbers: a value rounded at every step, or the [ValueError]
    that [math.sqrt] and [math.asin] raise outside their domains. *)
Definition closer_by (distance : Node → Node → outcome R) (location_node : Node)
    (best : Node * option R) (node : Node) : outcome (Node * option R) :=
  dist ← distance location_node node;
  Returned (if below dist (snd best) then (node, Some dist) else best).

(** [for node in all_nodes] in [find_closest_node]. *)
Fixpoint scan_by (distance : Node → Node → outcome R) (location_node : Node)
    (all_nodes : list Node) (best : Node * option R)
    : outcome (Node * option R) :=
  match all_nodes with
  | [] => Returned best
  | node :: rest =>
      best' ← closer_by distance location_node best node;
      scan_by distance location_node rest best'
  end.

Definition find_closest_node_by (distance : Node → Node → outcome R)
    (location : Location) (graph : Graph) : outcome (Node * option R) :=
  let all_nodes := nodes graph in
  match all_nodes with
  | [] => Raised (NoRouteError "Graph has no nodes")
  | first :: _ =>
      let location_node :=
        mkNode "temp" (loc_latitude location) (loc_longitude location) in
      scan_by distance location_node all_nodes (first, None)
  end.

(** [for neighbor, _ in graph.neighbors(current)] in [is_connected]. *)
Fixpoint bfs_visit (nbrs : list (Node * Q)) (visited : gset string)
    (queue : list Node) : gset string * list Node :=
  match nbrs with
  | [] => (visited, queue)
  | (neighbor, _) :: rest =>
      if bool_decide (id neighbor ∈ visited) then bfs_visit rest visited queue
      else bfs_visit rest ({[id neighbor]} ∪ visited) (queue ++ [neighbor])
  end.

(** [while queue: ...] in [is_connected]. *)
Fixpoint bfs_loop (g : Graph) (goal : Node) (fuel : nat) (visited : gset string)
    (queue : list Node) : outcome bool :=
  match fuel with
  | O => OutOfFuel
  | S fuel' =>
      match queue with
      | [] => Returned false
      | current :: queue' =>
          if node_eqb current goal then Returned true
          else
            let vq := bfs_visit (neighbors g current) visited queue' in
            bfs_loop g goal fuel' (fst vq) (snd vq)
      end
  end.

Definition is_connected (graph : Graph) (start goal : Node) : outcome bool :=
  if node_eqb start goal then Returned true
  else bfs_loop graph goal (search_fuel graph) {[id start]} [start].

(** [tuple(sorted([a, b]))] for two identifiers: the list is reversed when
    the second one is smaller. *)
Definition edge_id (a b : string) : string * string :=
  if String.ltb b a then (b, a) else (a, b).

(** A road as [get_all_roads] reports it: [(from_node, to_node, distance)]. *)
Definition road : Type := Node * Node * Q.

(** [for neighbor, weight in graph.neighbors(node)] in [get_all_roads]. *)
Fixpoint roads_from (node : Node) (nbrs : list (Node * Q))
    (seen_edges : gset (string * string)) (roads : list road)
    : gset (string * string) * list road :=
  match nbrs with
  | [] => (seen_edges, roads)
  | (neighbor, weight) :: rest =>
      let e := edge_id (id node) (id neighbor) in
      if bool_decide (e ∈ seen_edges) then roads_from node rest seen_edges roads
      else roads_from node rest ({[e]} ∪ seen_edges)
             (roads ++ [(node, neighbor, weight)])
  end.

(** [for node in graph.nodes()] in [get_all_roads]. *)
Fixpoint roads_loop (g : Graph) (ns : list Node)
    (seen_edges : gset (string * string)) (roads : list road) : list road :=
  match ns with
  | [] => roads
  | node :: rest =>
      let sr := roads_from node (neighbors g node) seen_edges roads in
      roads_loop g rest (fst sr) (snd sr)
  end.

Definition get_all_roads (graph : Graph) : list road :=
  roads_loop graph (nodes graph) ∅ [].

(** The generator [iterate_all_roads], suspended: the edges seen so far, the
    node whose neighbours are being scanned with the neighbours still to
    scan, and the nodes still to scan. *)
Record roads_iterator : Type := mkIterator {
  it_seen : gset (string * string);
  it_node : Node;
  it_neighbors : list (Node * Q);
  it_nodes : list Node
}.

(** Running the inner [for] loop up to its next [yield]. *)
Fixpoint next_from (node : Node) (nbrs : list (Node * Q))
    (seen_edges : gset (string * string))
    : gset (string * string) * option (road * list (Node * Q)) :=
  match nbrs with
  | [] => (seen_edges, None)
  | (neighbor, weight) :: rest =>
      let e := edge_id (id node) (id neighbor) in
      if bool_decide (e ∈ seen_edges) then next_from node rest seen_edges
      else ({[e]} ∪ seen_edges, Some ((node, neighbor, weight), rest))
  end.

(** Running the outer [for] loop up to the next [yield]; [None] is
    [StopIteration]. *)
Fixpoint next_in (g : Graph) (ns : list Node) (seen_edges : gset (string * string))
    : option (road * roads_iterator) :=
  match ns with
  | [] => None
  | node :: rest =>
      match next_from node (neighbors g node) seen_edges with
      | (seen', Some (r, nbrs)) => Some (r, mkIterator seen' node nbrs rest)
      | (seen', None) => next_in g rest seen'
      end
  end.

(** [next(it)] on a suspended generator. *)
Definition next (g : Graph) (it : roads_iterator)
    : option (road * roads_iterator) :=
  match next_from (it_node it) (it_neighbors it) (it_seen it) with
  | (seen', Some (r, nbrs)) =>
      Some (r, mkIterator seen' (it_node it) nbrs (it_nodes it))
  | (seen', None) => next_in g (it_nodes it) seen'
  end.

(** [list(iterate_all_roads(graph))]: the first [next] enters the outer loop,
    every later one resumes after the [yield]. *)
Fixpoint drain (g : Graph) (fuel : nat) (step : option (road * roads_iterator))
    : outcome (list road) :=
  match step with
  | None => Returned []
  | Some (r, it) =>
      match fuel with
      | O => OutOfFuel
      | S fuel' => rest ← drain g fuel' (next g it); Returned (r :: rest)
      end
  end.

Definition iterate_all_roads (graph : Graph) : outcome (list road) :=
  drain graph (edge_count graph) (next_in graph (nodes graph) ∅).

(** ** [src/utils/validators.py] *)

(** What a validator does: return [None], or raise [ValidationError]. *)
Inductive validation : Type :=
  | Valid
  | ValidationError (msg : string).

(** The messages are given without the number the source appends. *)
Definition validate_coordinates (latitude longitude : Q) : validation :=
  if negb (Qle_bool (-90) latitude && Qle_bool latitude 90) then
    ValidationError "Latitude must be between -90 and 90 degrees"
  else if negb (Qle_bool (-180) longitude && Qle_bool longitude 180) then
    ValidationError "Longitude must be between -180 and 180 degrees"
  else Valid.

Definition validate_same_location (start destination : Location) : validation :=
  let tolerance := (1 # 10000)%Q in
  let lat_diff := Qabs (loc_latitude start - loc_latitude destination) in
  let lng_diff := Qabs (loc_longitude start - loc_longitude destination) in
  if Qltb lat_diff tolerance && Qltb lng_diff tolerance then
    ValidationError
      ("Start and destination are the same location: " +:+ address start +:+
       ". Please enter two different locations to calculate a route.")
  else Valid.

(** [PathfindingResult(success=False, error=msg)] *)
Definition failed (msg : string) : PathfindingResult :=
  mkPathfindingResult false None (Some msg).

(** [PathfindingResult(success=True, route=rt)] *)
Definition succeeded (rt : Route) : PathfindingResult :=
  mkPathfindingResult true (Some rt) None.

(** [n not in graph.nodes()] *)
Definition absent (g : Graph) (n : Node) : Prop := node_in n (nodes g) = false.

(** ** Graphs used as examples *)

(** A sequence of [add_edge] calls. *)
Fixpoint add_edges (es : list (Node * Node * Q * bool)) (g : Graph)
    : outcome Graph :=
  match es with
  | [] => Returned g
  | (a, b, w, bidirectional) :: rest =>
      g' ← add_edge g a b w bidirectional; add_edges rest g'
  end.

Definition graph_of (es : list (Node * Node * Q * bool)) : Graph :=
  match add_edges es Graph_init with
  | Returned g => g
  | _ => Graph_init
  end.

(** A node at the origin. *)
Definition at_origin (name : string) : Node := mkNode name 0 0.

(** Two nodes and no edge. *)
Definition two_isolated : Graph :=
  Eval vm_compute in add_node (add_node Graph_init (at_origin "A")) (at_origin "B").

(** The fixture [known_shortest_path] of [tests/conftest.py]:
    [A-B(5) B-C(3) A-D(2) B-E(4) C-F(1) D-E(1) E-F(2)], all bidirectional. *)
Definition node_a : Node := mkNode "A" 0 0.
Definition node_b : Node := mkNode "B" 0 (5 # 100).
Definition node_c : Node := mkNode "C" 0 (8 # 100).
Definition node_d : Node := mkNode "D" (- 2 # 100) 0.
Definition node_e : Node := mkNode "E" (- 2 # 100) (1 # 100).
Definition node_f : Node := mkNode "F" (- 2 # 100) (3 # 100).

Definition known_shortest_path : Graph :=
  Eval vm_compute in
    graph_of [(node_a, node_b, 5%Q, true); (node_b, node_c, 3%Q, true);
              (node_a, node_d, 2%Q, true); (node_b, node_e, 4%Q, true);
              (node_c, node_f, 1%Q, true); (node_d, node_e, 1%Q, true);
              (node_e, node_f, 2%Q, true)].

(** The fixture [simple_grid_graph] of [tests/conftest.py]: the 3 by 3 grid
    with unit weights between orthogonal neighbours; the node in row [r] and
    column [c] has latitude [r] and longitude [c]. *)
Definition digit (n : Z) : string :=
  String (Ascii.ascii_of_nat (48 + Z.to_nat n)) EmptyString.

Definition grid_node (row col : Z) : Node :=
  mkNode ("node_" +:+ digit row +:+ "_" +:+ digit col)
    (inject_Z row) (inject_Z col).

Definition simple_grid_graph : Graph :=
  Eval vm_compute in
    match
      add_edges
        [(grid_node 0 0, grid_node 0 1, 1%Q, true);
         (grid_node 0 1, grid_node 0 2, 1%Q, true);
         (grid_node 1 0, grid_node 1 1, 1%Q, true);
         (grid_node 1 1, grid_node 1 2, 1%Q, true);
         (grid_node 2 0, grid_node 2 1, 1%Q, true);
         (grid_node 2 1, grid_node 2 2, 1%Q, true);
         (grid_node 0 0, grid_node 1 0, 1%Q, true);
         (grid_node 0 1, grid_node 1 1, 1%Q, true);
         (grid_node 0 2, grid_node 1 2, 1%Q, true);
         (grid_node 1 0, grid_node 2 0, 1%Q, true);
         (grid_node 1 1, grid_node 2 1, 1%Q, true);
         (grid_node 1 2, grid_node 2 2, 1%Q, true)]
        (fold_left add_node
           [grid_node 0 0; grid_node 0 1; grid_node 0 2;
            grid_node 1 0; grid_node 1 1; grid_node 1 2;
            grid_node 2 0; grid_node 2 1; grid_node 2 2] Graph_init)
    with
    | Returned g => g
    | _ => Graph_init
    end.

(** The number of grid steps between two nodes, as a heuristic. *)
Definition grid_steps (a b : Node) : Q :=
  Qabs (latitude a - latitude b) + Qabs (longitude a - longitude b).

(** A route to hang on results. *)
Definition sample_route : Route :=
  mkRoute [at_origin "A"] 0 "Dijkstra" 0 1 [at_origin "A"] [at_origin "A"] [].

(** The north-south gap between two nodes, as a heuristic. *)
Definition latitude_gap (a b : Node) : Q := Qabs (latitude a - latitude b).

(** A graph in which the identifier "B" is carried by two node objects with
    different latitudes: [S-A(1) S-C(1) A-B(1) C-B(1/2) B-G(10)], all
    directed. *)
Definition shared_identifier : Graph :=
  Eval vm_compute in
    graph_of [(mkNode "S" 0 0, mkNode "A" 0 0, 1%Q, false);
              (mkNode "S" 0 0, mkNode "C" 5 0, 1%Q, false);
              (mkNode "A" 0 0, mkNode "B" 0 0, 1%Q, false);
              (mkNode "C" 5 0, mkNode "B" (9 # 2) 0, (1 # 2)%Q, false);
              (mkNode "B" 0 0, mkNode "G" 0 0, 10%Q, false)].

(** A graph whose first node stands where the query does and whose second
    node is called "temp". *)
Definition with_temp_node : Graph :=
  Eval vm_compute in
    add_node (add_node Graph_init (mkNode "A" 10 20)) (mkNode "temp" 50 60).

(** The heuristic that estimates nothing. *)
Definition zero_heuristic (a b : Node) : Q := 0.

(** * Properties *)

(** ** Comparisons and node equality *)

Lemma Qltb_true (x y : Q) : Qltb x y = true ↔ (x < y)%Q.
Proof.
  unfold Qltb. rewrite negb_true_iff. split.
  - intros Hb. apply Qnot_le_lt. intros Hle.
    apply Qle_bool_iff in Hle. congruence.
  - intros Hlt. destruct (Qle_bool y x) eqn:E; [|done].
    apply Qle_bool_iff in E. exfalso. eapply Qlt_not_le; eauto.
Qed.

Lemma Qltb_false (x y : Q) : Qltb x y = false ↔ (y <= x)%Q.
Proof.
  unfold Qltb. rewrite negb_false_iff. apply Qle_bool_iff.
Qed.

Lemma node_eqb_true (a b : Node) : node_eqb a b = true ↔ id a = id b.
Proof. unfold node_eqb. apply bool_decide_eq_true. Qed.

Lemma node_eqb_false (a b : Node) : node_eqb a b = false ↔ id a ≠ id b.
Proof. unfold node_eqb. apply bool_decide_eq_false. Qed.

Lemma node_in_true (x : Node) (xs : list Node) :
  node_in x xs = true ↔ ∃ y, y ∈ xs ∧ id y = id x.
Proof.
  unfold node_in. rewrite existsb_exists. split.
  - intros (y & Hy & E). exists y. split; [by apply list_elem_of_In|].
    by apply node_eqb_true in E.
  - intros (y & Hy & E). exists y. split; [by apply list_elem_of_In|].
    by apply node_eqb_true.
Qed.

(** ** The graph container *)

Lemma adj_get_ext (adj : list (Node * list (Node * Q))) (a b : Node) :
  id a = id b → adj_get adj a = adj_get adj b.
Proof.
  intros E. induction adj as [|[k v] rest IH]; simpl; [done|].
  unfold node_eqb. rewrite E, IH. done.
Qed.

Lemma neighbors_ext (g : Graph) (a b : Node) :
  id a = id b → neighbors g a = neighbors g b.
Proof. intros E. unfold neighbors. by rewrite (adj_get_ext _ a b E). Qed.

Lemma adj_get_Some (adj : list (Node * list (Node * Q))) (a : Node) v :
  adj_get adj a = Some v → ∃ k, (k, v) ∈ adj ∧ id k = id a.
Proof.
  induction adj as [|[k v'] rest IH]; simpl; [done|].
  destruct (node_eqb a k) eqn:E.
  - intros [= <-]. exists k. split; [left|]. by apply node_eqb_true in E.
  - intros H. destruct (IH H) as (k' & Hin & Hid). exists k'. split; [by right|done].
Qed.

Lemma neighbors_targets (g : Graph) (a n : Node) (w : Q) :
  (n, w) ∈ neighbors g a → n ∈ targets g.
Proof.
  unfold neighbors, targets. destruct (adj_get _ a) as [v|] eqn:E; simpl.
  - intros Hin. apply adj_get_Some in E as (k & Hk & _).
    apply list_elem_of_In, in_concat. exists (map fst v). split.
    + apply in_map_iff. exists (k, v). split; [done|]. by apply list_elem_of_In.
    + apply in_map_iff. exists (n, w). split; [done|]. by apply list_elem_of_In.
  - intros Hin. by apply elem_of_nil in Hin.
Qed.

Lemma node_in_nodes (g : Graph) (a : Node) :
  node_in a (nodes g) = true ↔ is_Some (adj_get (_adjacency g) a).
Proof.
  unfold nodes. destruct g as [adj]; simpl.
  induction adj as [|[k v] rest IH]; simpl.
  - split; [done|]. by intros [? ?].
  - unfold node_in in *; simpl. destruct (node_eqb a k); simpl; [|done].
    split; [eauto|done].
Qed.

(** ** The frontier *)

Definition key (e : entry) : Q := fst (fst e).
Definition counter_of (e : entry) : nat := snd (fst e).
Definition node_of (e : entry) : Node := snd e.

(** The insertion counters of a frontier are pairwise distinct and below
    the next counter, so that two entries never tie on priority and
    counter. *)
Definition counters_below (next : nat) (pq : list entry) : Prop :=
  NoDup (map counter_of pq) ∧ ∀ e, e ∈ pq → (counter_of e < next)%nat.

Lemma entry_ltb_true_key (a b : entry) :
  entry_ltb a b = true → (key a <= key b)%Q.
Proof.
  destruct a as [[k1 c1] n1], b as [[k2 c2] n2]; unfold key; simpl.
  destruct (Qeq_bool k1 k2) eqn:E.
  - apply Qeq_bool_iff in E. intros _. rewrite E. apply Qle_refl.
  - intros H. apply Qltb_true in H. by apply Qlt_le_weak.
Qed.

Lemma entry_ltb_false_key (a b : entry) :
  entry_ltb a b = false → (key b <= key a)%Q.
Proof.
  destruct a as [[k1 c1] n1], b as [[k2 c2] n2]; unfold key; simpl.
  destruct (Qeq_bool k1 k2) eqn:E.
  - apply Qeq_bool_iff in E. intros _. rewrite E. apply Qle_refl.
  - intros H. by apply Qltb_false in H.
Qed.

Lemma extract_min_perm (e : entry) (l : list entry) :
  e :: l ≡ₚ fst (extract_min e l) :: snd (extract_min e l).
Proof.
  revert e. induction l as [|x l' IH]; intros e; simpl; [done|].
  specialize (IH x). destruct (extract_min x l') as [m r]; simpl in *.
  destruct (entry_ltb m e); simpl; [|done].
  rewrite IH. apply Permutation_swap.
Qed.

Lemma extract_min_least (e : entry) (l : list entry) (x : entry) :
  x ∈ e :: l → (key (fst (extract_min e l)) <= key x)%Q.
Proof.
  revert e x. induction l as [|y l' IH]; intros e x Hx; simpl.
  - apply list_elem_of_singleton in Hx as ->. apply Qle_refl.
  - pose proof (IH y) as IHy. destruct (extract_min y l') as [m r]; simpl in *.
    destruct (entry_ltb m e) eqn:E; simpl.
    + apply elem_of_cons in Hx as [->|Hx].
      * by apply entry_ltb_true_key.
      * by apply IHy.
    + apply elem_of_cons in Hx as [->|Hx]; [apply Qle_refl|].
      eapply Qle_trans; [by apply entry_ltb_false_key|]. by apply IHy.
Qed.

Lemma heappop_None (pq : list entry) : heappop pq = None ↔ pq = [].
Proof. destruct pq; simpl; split; done. Qed.

Lemma heappop_perm (pq pq' : list entry) (e : entry) :
  heappop pq = Some (e, pq') → pq ≡ₚ e :: pq'.
Proof.
  destruct pq as [|x l]; simpl; [done|]. intros [= H].
  pose proof (extract_min_perm x l) as P. by rewrite H in P.
Qed.

Lemma heappop_least (pq pq' : list entry) (e : entry) :
  heappop pq = Some (e, pq') → ∀ x, x ∈ pq → (key e <= key x)%Q.
Proof.
  destruct pq as [|y l]; simpl; [done|]. intros [= H] x Hx.
  pose proof (extract_min_least y l x Hx) as P. by rewrite H in P.
Qed.

Lemma heappop_elem (pq pq' : list entry) (e : entry) :
  heappop pq = Some (e, pq') → ∀ x, x ∈ pq ↔ x = e ∨ x ∈ pq'.
Proof.
  intros H x. apply heappop_perm in H. rewrite H. apply elem_of_cons.
Qed.

Lemma heappop_length (pq pq' : list entry) (e : entry) :
  heappop pq = Some (e, pq') → length pq = S (length pq').
Proof. intros H. apply heappop_perm in H. by rewrite H. Qed.

Lemma heappop_counters (pq pq' : list entry) (e : entry) (next : nat) :
  heappop pq = Some (e, pq') → counters_below next pq → counters_below next pq'.
Proof.
  intros H [Hnd Hlt]. pose proof (heappop_elem _ _ _ H) as Hel.
  apply heappop_perm in H. split.
  - rewrite H in Hnd. simpl in Hnd. by apply NoDup_cons in Hnd as [_ ?].
  - intros x Hx. apply Hlt, Hel. by right.
Qed.

Lemma heappush_counters (pq : list entry) (k : Q) (n : Node) (next : nat) :
  counters_below next pq → counters_below (S next) (heappush pq (k, next, n)).
Proof.
  intros [Hnd Hlt]. unfold heappush. split.
  - rewrite map_app. simpl. apply NoDup_app. split; [done|]. split.
    + intros c Hc ->%list_elem_of_singleton.
      apply list_elem_of_fmap in Hc as (e & Hce & He).
      specialize (Hlt e He). rewrite <- Hce in Hlt.
      unfold counter_of in Hlt; simpl in Hlt. lia.
    + apply NoDup_singleton.
  - intros e [He| ->%list_elem_of_singleton]%elem_of_app.
    + specialize (Hlt e He). lia.
    + unfold counter_of; simpl. lia.
Qed.

Lemma walk_snoc (g : Graph) (u : string) (a n : Node) (w c : Q) :
  walk g u (id a) c → (n, w) ∈ neighbors g a →
  ∃ c', walk g u (id n) c' ∧ (c' == c + w)%Q.
Proof.
  intros Hp. remember (id a) as v eqn:Ev. revert a Ev.
  induction Hp as [u|a0 n0 w0 v c0 Hin Hp IH]; intros a Ev Hn.
  - subst u. exists (w + 0)%Q. split; [|lra].
    apply (walk_cons g a n); [done|apply walk_nil].
  - destruct (IH a Ev Hn) as (c' & Hp' & Hc').
    exists (w0 + c')%Q. split; [by apply (walk_cons g a0 n0)|]. rewrite Hc'. lra.
Qed.

Lemma walk_nonneg (g : Graph) (u v : string) (c : Q) :
  (∀ a n w, (n, w) ∈ neighbors g a → (0 <= w)%Q) →
  walk g u v c → (0 <= c)%Q.
Proof.
  intros Hw Hp. induction Hp as [|a n w v c Hin Hp IH]; [lra|].
  specialize (Hw _ _ _ Hin). lra.
Qed.

(** ** What one relaxation does *)

Section Relax.
Context (alg : algo) (goal current : Node) (popped : Q).

Lemma priority_heur (n : Node) (c : Q) :
  (priority alg goal n c == c + priority alg goal n 0)%Q.
Proof. destruct alg; simpl; lra. Qed.

(** The relaxation left the frontier and the maps alone. *)
Definition relax_skip (st st' : state) : Prop :=
  st_counter st' = st_counter st ∧ st_pq st' = st_pq st ∧
  st_cost st' = st_cost st ∧ st_came_from st' = st_came_from st ∧
  st_open_set_nodes st' = st_open_set_nodes st.

(** The relaxation recorded the cost [d] for [n] and pushed an entry. *)
Definition relax_push (st st' : state) (n : Node) (d : Q) : Prop :=
  st_counter st' = S (st_counter st) ∧
  st_pq st' = st_pq st ++ [(priority alg goal n d, st_counter st, n)] ∧
  st_cost st' = <[id n := d]> (st_cost st) ∧
  st_came_from st' = <[id n := current]> (st_came_from st).

Lemma relax_frame (st st' : state) (n : Node) (w : Q) :
  relax alg goal current popped st (n, w) = Returned st' →
  st_visited st' = st_visited st ∧
  st_explored_nodes st' = st_explored_nodes st ∧
  st_explored_edges st' = st_explored_edges st ++ [(current, n)].
Proof.
  unfold relax. case_bool_decide; [by intros [= <-]|].
  destruct (current_cost _ _ _ _) as [base| |]; simpl; [|done..].
  destruct (match st_cost st !! id n with None => true | Some d => _ end);
    by intros [= <-].
Qed.

Lemma relax_cases (st st' : state) (n : Node) (w : Q) :
  relax alg goal current popped st (n, w) = Returned st' →
  (id n ∈ st_visited st ∧ relax_skip st st') ∨
  ((id n ∉ st_visited st) ∧
   ∃ base, current_cost alg current popped (st_cost st) = Returned base ∧
     ((∃ d, st_cost st !! id n = Some d ∧ (d <= base + w)%Q ∧ relax_skip st st') ∨
      ((∀ d, st_cost st !! id n = Some d → (base + w < d)%Q) ∧
       relax_push st st' n (base + w)%Q))).
Proof.
  unfold relax. case_bool_decide as Hv.
  { intros [= <-]. left. done. }
  destruct (current_cost _ _ _ _) as [base| |] eqn:Hb; simpl; [|done..].
  intros H. right. split; [done|]. exists base. split; [done|].
  destruct (st_cost st !! id n) as [d|] eqn:Hd.
  - destruct (Qltb (base + w) d) eqn:Hlt; injection H as <-.
    + right. split; [|done]. intros d' [= <-]. by apply Qltb_true.
    + left. exists d. split; [done|]. split; [by apply Qltb_false|done].
  - injection H as <-. right. split; [done|done].
Qed.

Lemma relax_returns (st : state) (nw : Node * Q) :
  (alg ≠ Dijkstra → is_Some (st_cost st !! id current)) →
  ∃ st', relax alg goal current popped st nw = Returned st'.
Proof.
  intros Hc. destruct nw as [n w]. unfold relax.
  case_bool_decide; [eauto|].
  assert (∃ base, current_cost alg current popped (st_cost st) = Returned base)
    as [base ->].
  { destruct alg as [|h]; simpl; [eauto|].
    destruct Hc as [d ->]; [done|eauto]. }
  simpl. destruct (match st_cost st !! id n with None => true | Some d => _ end);
    eauto.
Qed.
End Relax.

(** Expanding a node appends its adjacency entries, in their order. *)
Lemma expand_edges (alg : algo) (goal current : Node) (popped : Q)
    (nbrs : list (Node * Q)) : ∀ st st' : state,
  expand alg goal current popped nbrs st = Returned st' →
  st_explored_edges st' =
    st_explored_edges st ++ map (λ nw, (current, fst nw)) nbrs.
Proof.
  induction nbrs as [|[n w] rest IH]; intros st st'.
  - simpl. intros [= <-]. by rewrite app_nil_r.
  - cbn [expand].
    destruct (relax alg goal current popped st (n, w)) as [st1| |] eqn:Hr;
      cbn [mbind outcome_bind]; [|done..].
    intros Hx. rewrite (IH _ _ Hx).
    destruct (relax_frame _ _ _ _ _ _ _ _ Hr) as (_ & _ & ->).
    by rewrite <- app_assoc.
Qed.

(** ** Invariants of the search loop that hold on every graph *)

Section Search.
Context (alg : algo) (g : Graph) (start goal : Node).

(** The walk that reaches [v] costs what an entry or a map records. *)
Definition reached (v : string) (d : Q) : Prop :=
  ∃ c, walk g (id start) v c ∧ (c == d)%Q.

Record inv1 (st : state) : Prop := {
  inv_visited : ∀ v, v ∈ st_visited st ↔
    ∃ n, n ∈ st_explored_nodes st ∧ id n = v;
  inv_pq_cost : ∀ e, e ∈ st_pq st → is_Some (st_cost st !! id (node_of e));
  inv_pq_objs : ∀ e, e ∈ st_pq st → node_of e ∈ start :: targets g;
  inv_pq_sound : alg = Dijkstra →
    ∀ e, e ∈ st_pq st → reached (id (node_of e)) (key e);
  inv_cost_walk : ∀ v d, st_cost st !! v = Some d → reached v d;
  inv_cost_dom : ∀ v, is_Some (st_cost st !! v) ↔
    v = id start ∨ is_Some (st_came_from st !! v);
  inv_came_from : ∀ v p, st_came_from st !! v = Some p →
    id p ∈ st_visited st ∧ v ≠ id start ∧
    ∃ n w, (n, w) ∈ neighbors g p ∧ id n = v;
  inv_order : ∀ i n, st_explored_nodes st !! i = Some n → id n ≠ id start →
    ∃ p j m, st_came_from st !! id n = Some p ∧ (j < i)%nat ∧
             st_explored_nodes st !! j = Some m ∧ id m = id p;
  inv_pending : ∀ v, is_Some (st_came_from st !! v) →
    v ∈ st_visited st ∨ ∃ e, e ∈ st_pq st ∧ id (node_of e) = v;
  inv_counters : counters_below (st_counter st) (st_pq st)
}.

Lemma inv1_init : inv1 (init_state alg start goal).
Proof.
  split; unfold init_state; simpl.
  - intros v. split; [set_solver|]. intros (n & Hn & _). by apply elem_of_nil in Hn.
  - intros e ->%list_elem_of_singleton. simpl. rewrite lookup_singleton_eq. eauto.
  - intros e ->%list_elem_of_singleton. simpl. left.
  - intros Ha e ->%list_elem_of_singleton. unfold key, node_of; simpl.
    exists 0%Q. split; [apply walk_nil|]. rewrite Ha; simpl. lra.
  - intros v d [<- <-]%lookup_singleton_Some. exists 0%Q. split; [apply walk_nil|lra].
  - intros v. rewrite lookup_empty. split.
    + intros [d [<- _]%lookup_singleton_Some]. by left.
    + intros [->|[? ?]]; [|done]. rewrite lookup_singleton_eq. eauto.
  - intros v p. by rewrite lookup_empty.
  - intros i n. by rewrite lookup_nil.
  - intros v. rewrite lookup_empty. by intros [? ?].
  - split; simpl.
    + apply NoDup_singleton.
    + intros e ->%list_elem_of_singleton. unfold counter_of; simpl. lia.
Qed.

Lemma inv1_start_visited (st : state) (v : string) :
  inv1 st → v ∈ st_visited st → id start ∈ st_visited st.
Proof.
  intros I Hv. apply (inv_visited st I) in Hv as (n & Hn & _).
  destruct (st_explored_nodes st) as [|m l] eqn:E; [by apply elem_of_nil in Hn|].
  destruct (decide (id m = id start)) as [Em|Em].
  - apply (inv_visited st I). exists m. rewrite E. split; [left|done].
  - destruct (inv_order st I 0%nat m) as (p & j & _ & _ & Hj & _); [by rewrite E|done|lia].
Qed.

(** The cost a relaxation starts from is the cost of a path to the node
    being expanded. *)
Definition base_sound (current : Node) (popped : Q) : Prop :=
  alg = Dijkstra → reached (id current) popped.

Lemma current_cost_reached (st : state) (current : Node) (popped base : Q) :
  inv1 st → base_sound current popped →
  current_cost alg current popped (st_cost st) = Returned base →
  reached (id current) base.
Proof.
  intros I Hb. destruct alg as [|h] eqn:Ea; simpl.
  - intros [= <-]. by apply Hb.
  - destruct (st_cost st !! id current) as [d|] eqn:E; [|done].
    intros [= <-]. by apply (inv_cost_walk st I).
Qed.

Lemma inv1_relax (st st' : state) (current : Node) (popped : Q) (n : Node) (w : Q) :
  inv1 st → id current ∈ st_visited st → base_sound current popped →
  (n, w) ∈ neighbors g current →
  relax alg goal current popped st (n, w) = Returned st' →
  inv1 st'.
Proof.
  intros I Hcur Hb Hn Hr.
  destruct (relax_frame _ _ _ _ _ _ _ _ Hr) as (Hv & He & _).
  assert (relax_skip st st' → inv1 st') as Hskip.
  { intros (Hcnt & Hpq & Hc & Hcf & _). destruct I.
    split; rewrite ?Hv, ?He, ?Hpq, ?Hc, ?Hcf, ?Hcnt; done. }
  apply relax_cases in Hr as [[_ Hs]|(Hnv & base & Hbase & [(d & _ & _ & Hs)|[Hlt Hp]])];
    [by apply Hskip..|].
  destruct Hp as (Hcnt & Hpq & Hc & Hcf).
  pose proof (current_cost_reached _ _ _ _ I Hb Hbase) as (c & Hw & Hc0).
  destruct (walk_snoc _ _ _ _ _ _ Hw Hn) as (c' & Hw' & Hc').
  assert (id n ≠ id start) as Hns.
  { intros E. apply Hnv. rewrite E. by eapply inv1_start_visited. }
  split; rewrite ?Hv, ?He, ?Hpq, ?Hc, ?Hcf, ?Hcnt.
  - apply (inv_visited st I).
  - intros e [He'| ->%list_elem_of_singleton]%elem_of_app.
    + apply lookup_insert_is_Some'. right. by apply (inv_pq_cost st I).
    + unfold node_of; simpl. rewrite lookup_insert_eq. eauto.
  - intros e [He'| ->%list_elem_of_singleton]%elem_of_app.
    + by apply (inv_pq_objs st I).
    + unfold node_of; simpl. right. by eapply neighbors_targets.
  - intros Ha e [He'| ->%list_elem_of_singleton]%elem_of_app.
    + by apply (inv_pq_sound st I).
    + unfold node_of, key; simpl. exists c'. split; [done|].
      rewrite Ha; simpl. rewrite Hc', Hc0. reflexivity.
  - intros v d. rewrite lookup_insert. case_decide as Ev.
    + intros [= <-]. subst v. exists c'. split; [done|]. rewrite Hc', Hc0. reflexivity.
    + apply (inv_cost_walk st I).
  - intros v. rewrite !lookup_insert. case_decide as Ev.
    + subst v. split; [intros _; right|]; eauto.
    + apply (inv_cost_dom st I).
  - intros v p. rewrite lookup_insert. case_decide as Ev.
    + intros [= <-]. subst v. split; [done|]. split; [done|]. eauto.
    + apply (inv_came_from st I).
  - intros i m Hi Hm.
    assert (id m ≠ id n) as Hmn.
    { intros E. apply Hnv. rewrite <- E. apply (inv_visited st I).
      exists m. split; [|done]. by eapply list_elem_of_lookup_2. }
    rewrite lookup_insert_ne by done. by apply (inv_order st I).
  - intros v. rewrite lookup_insert. case_decide as Ev.
    + intros _. right. exists (priority alg goal n (base + w), st_counter st, n).
      split; [|done]. apply elem_of_app. right. left.
    + intros Hs. destruct (inv_pending st I v Hs) as [?|(e & He' & Hid)]; [by left|].
      right. exists e. split; [|done]. apply elem_of_app. by left.
  - apply heappush_counters, (inv_counters st I).
Qed.

(** *** Removing an entry from the frontier *)

Lemma inv1_set_pq (st : state) (e : entry) (pq' : list entry) :
  inv1 st → heappop (st_pq st) = Some (e, pq') →
  id (node_of e) ∈ st_visited st → inv1 (set_pq pq' st).
Proof.
  intros I Hpop Hv. pose proof (heappop_elem _ _ _ Hpop) as Hel.
  split; simpl; try apply I.
  - intros x Hx. apply (inv_pq_cost st I), Hel. by right.
  - intros x Hx. apply (inv_pq_objs st I), Hel. by right.
  - intros Ha x Hx. apply (inv_pq_sound st I Ha), Hel. by right.
  - intros v Hs. destruct (inv_pending st I v Hs) as [?|(x & Hx & Hid)]; [by left|].
    apply Hel in Hx as [->|Hx]; [left; by rewrite <- Hid|].
    right. by exists x.
  - apply (heappop_counters _ _ _ _ Hpop), (inv_counters st I).
Qed.

Lemma inv1_mark_visited (st : state) (e : entry) (pq' : list entry) :
  inv1 st → heappop (st_pq st) = Some (e, pq') →
  id (node_of e) ∉ st_visited st →
  inv1 (mark_visited (node_of e) (set_pq pq' st)).
Proof.
  intros I Hpop Hv. pose proof (heappop_elem _ _ _ Hpop) as Hel.
  assert (e ∈ st_pq st) as He by (apply Hel; by left).
  split; simpl; try apply I.
  - intros v. rewrite elem_of_union, elem_of_singleton, (inv_visited st I).
    split.
    + intros [->|(n & Hn & Hid)].
      * exists (node_of e). split; [|done]. apply elem_of_app. right. left.
      * exists n. split; [|done]. apply elem_of_app. by left.
    + intros (n & [Hn| ->%list_elem_of_singleton]%elem_of_app & Hid); eauto.
  - intros x Hx. apply (inv_pq_cost st I), Hel. by right.
  - intros x Hx. apply (inv_pq_objs st I), Hel. by right.
  - intros Ha x Hx. apply (inv_pq_sound st I Ha), Hel. by right.
  - intros v p Hp. destruct (inv_came_from st I v p Hp) as (Hpv & ? & ?).
    split; [|done]. apply elem_of_union. by right.
  - intros i n Hi Hn.
    apply lookup_app_Some in Hi as [Hi|[Hlen Hi]].
    + destruct (inv_order st I i n Hi Hn) as (p & j & m & Hp & Hj & Hm & Hid).
      exists p, j, m. split; [done|]. split; [done|]. split; [|done].
      by apply lookup_app_l_Some.
    + apply list_lookup_singleton_Some in Hi as [_ <-].
      pose proof (inv_pq_cost st I e He) as Hc.
      apply (inv_cost_dom st I) in Hc as [Hc|[p Hp]]; [done|].
      destruct (inv_came_from st I _ p Hp) as (Hpv & _ & _).
      apply (inv_visited st I) in Hpv as (m & Hm & Hid).
      apply list_elem_of_lookup in Hm as [j Hj].
      exists p, j, m. split; [done|]. split.
      * apply lookup_lt_Some in Hj. lia.
      * split; [by apply lookup_app_l_Some|done].
  - intros v Hs. destruct (inv_pending st I v Hs) as [?|(x & Hx & Hid)].
    + left. apply elem_of_union. by right.
    + apply Hel in Hx as [->|Hx].
      * left. apply elem_of_union. left. by apply elem_of_singleton.
      * right. by exists x.
  - apply (heappop_counters _ _ _ _ Hpop), (inv_counters st I).
Qed.

(** *** The termination measure *)

Definition pending_adj (V : gset string) (adj : list (Node * list (Node * Q))) : nat :=
  sum_list (map (λ kv, if bool_decide (id (fst kv) ∈ V) then 0%nat
                       else length (snd kv)) adj).

Definition measure (st : state) : nat :=
  (length (st_pq st) + pending_adj (st_visited st) (_adjacency g))%nat.

Lemma pending_adj_mono (V : gset string) (x : string) adj :
  (pending_adj ({[x]} ∪ V) adj ≤ pending_adj V adj)%nat.
Proof.
  induction adj as [|[k v] rest IH]; simpl; [done|].
  unfold pending_adj in *; simpl.
  repeat case_bool_decide; try lia. set_solver.
Qed.

Lemma pending_adj_visit (V : gset string) (current : Node) adj :
  id current ∉ V →
  (pending_adj ({[id current]} ∪ V) adj + length (default [] (adj_get adj current))
   ≤ pending_adj V adj)%nat.
Proof.
  intros Hc. induction adj as [|[k v] rest IH]; simpl; [done|].
  unfold pending_adj in *; simpl.
  destruct (node_eqb current k) eqn:E; simpl.
  - apply node_eqb_true in E. pose proof (pending_adj_mono V (id current) rest) as M.
    unfold pending_adj in M.
    rewrite bool_decide_eq_true_2 by set_solver.
    rewrite bool_decide_eq_false_2 by (by rewrite <- E). lia.
  - apply node_eqb_false in E.
    repeat case_bool_decide; try lia; set_solver.
Qed.

Lemma measure_init : (measure (init_state alg start goal) < search_fuel g)%nat.
Proof.
  unfold measure, search_fuel, edge_count, pending_adj; simpl.
  assert (∀ adj : list (Node * list (Node * Q)),
    sum_list (map (λ kv, if bool_decide (id kv.1 ∈ (∅ : gset string))
                         then 0%nat else length kv.2) adj)
    = sum_list (map (λ kv, length kv.2) adj)) as ->; [|lia].
  intros adj. induction adj as [|kv rest IH]; simpl; [done|]. by rewrite ?IH.
Qed.

Lemma inv1_visited_cost (st : state) (v : string) :
  inv1 st → v ∈ st_visited st → is_Some (st_cost st !! v).
Proof.
  intros I Hv. apply (inv_cost_dom st I).
  destruct (decide (v = id start)) as [E|E]; [by left|right].
  apply (inv_visited st I) in Hv as (n & Hn & <-).
  apply list_elem_of_lookup in Hn as [i Hi].
  destruct (inv_order st I i n Hi E) as (p & _ & _ & Hp & _). eauto.
Qed.

(** *** The inner loop *)

Section ExpandRule.
Context (current : Node) (popped : Q) (J : list (Node * Q) → state → Prop).
Hypothesis Hstep : ∀ done nw rest st st',
  done ++ nw :: rest = neighbors g current →
  inv1 st → id current ∈ st_visited st → J done st →
  relax alg goal current popped st nw = Returned st' →
  J (done ++ [nw]) st'.

Lemma expand_rule (rest : list (Node * Q)) : ∀ (done : list (Node * Q)) (st : state),
  done ++ rest = neighbors g current →
  inv1 st → id current ∈ st_visited st → base_sound current popped →
  J done st →
  ∃ st', expand alg goal current popped rest st = Returned st' ∧
    inv1 st' ∧ J (neighbors g current) st' ∧
    st_visited st' = st_visited st ∧
    st_explored_nodes st' = st_explored_nodes st ∧
    st_explored_edges st' =
      st_explored_edges st ++ map (λ nw, (current, fst nw)) rest ∧
    (length (st_pq st') ≤ length (st_pq st) + length rest)%nat.
Proof using Hstep.
  induction rest as [|[n w] rest IH]; intros done st Hsplit I Hcur Hb HJ.
  - exists st. simpl. rewrite app_nil_r in *. subst done.
    split_and!; try done. lia.
  - destruct (relax_returns alg goal current popped st (n, w)) as [st1 Hr].
    { intros _. by apply inv1_visited_cost. }
    cbn [expand]. rewrite Hr. cbn [mbind outcome_bind].
    assert ((n, w) ∈ neighbors g current) as Hin.
    { rewrite <- Hsplit. apply elem_of_app. right. left. }
    pose proof (inv1_relax _ _ _ _ _ _ I Hcur Hb Hin Hr) as I1.
    pose proof (Hstep _ _ _ _ _ Hsplit I Hcur HJ Hr) as HJ1.
    destruct (relax_frame _ _ _ _ _ _ _ _ Hr) as (Hv & He & Hed).
    assert (length (st_pq st1) ≤ S (length (st_pq st)))%nat as Hlen.
    { apply relax_cases in Hr
        as [[_ Hs]|(_ & base & _ & [(d & _ & _ & Hs)|[_ Hp]])].
      - destruct Hs as (_ & -> & _). lia.
      - destruct Hs as (_ & -> & _). lia.
      - destruct Hp as (_ & -> & _). rewrite length_app; simpl. lia. }
    destruct (IH (done ++ [(n, w)]) st1) as (st' & Hx & I' & HJ' & Hv' & He' & Hed' & Hlen').
    { by rewrite <- app_assoc. }
    { done. } { by rewrite Hv. } { done. } { done. }
    exists st'. split; [done|]. split; [done|]. split; [done|].
    split; [by rewrite Hv'|]. split; [by rewrite He'|].
    split; [rewrite Hed', Hed, <- app_assoc; done|simpl; lia].
Qed.
End ExpandRule.

(** *** The outer loop *)

Lemma search_loop_S (fuel : nat) (st : state) :
  search_loop alg g goal (S fuel) st =
  match heappop (st_pq st) with
  | None => Returned st
  | Some ((popped, _, current), pq') =>
      if bool_decide (id current ∈ st_visited st) then
        search_loop alg g goal fuel (set_pq pq' st)
      else if node_eqb current goal then
        Returned (mark_visited current (set_pq pq' st))
      else
        st' ← expand alg goal current popped (neighbors g current)
                 (mark_visited current (set_pq pq' st));
        search_loop alg g goal fuel st'
  end.
Proof. reflexivity. Qed.

(** What holds whenever the loop condition is tested. *)
Definition at_head (st : state) : Prop :=
  (id goal ∉ st_visited st) ∧
  st_explored_edges st = edges_of g (st_explored_nodes st).

(** What holds once the loop is left, on top of [inv1]. *)
Definition at_exit (st : state) : Prop :=
  st_explored_edges st =
    edges_of g (List.filter (λ u, negb (node_eqb u goal)) (st_explored_nodes st)) ∧
  (is_Some (st_came_from st !! id goal) → id goal ∈ st_visited st).

Lemma filter_not_goal (V : gset string) (l : list Node) :
  (∀ n, n ∈ l → id n ∈ V) → id goal ∉ V →
  List.filter (λ u, negb (node_eqb u goal)) l = l.
Proof.
  intros Hl Hg. induction l as [|n l IH]; simpl; [done|].
  assert (node_eqb n goal = false) as ->.
  { apply node_eqb_false. intros E. apply Hg. rewrite <- E. apply Hl. left. }
  simpl. rewrite IH; [done|]. intros m Hm. apply Hl. by right.
Qed.

Section LoopRule.
Context (I P : state → Prop) (J : Node → Q → list (Node * Q) → state → Prop).
Hypothesis Hempty : ∀ st,
  inv1 st → at_head st → I st → st_pq st = [] → P st.
Hypothesis Hstale : ∀ st k c n pq',
  inv1 st → at_head st → I st →
  heappop (st_pq st) = Some ((k, c, n), pq') → id n ∈ st_visited st →
  I (set_pq pq' st).
Hypothesis Hfresh : ∀ st k c n pq',
  inv1 st → at_head st → I st →
  heappop (st_pq st) = Some ((k, c, n), pq') → id n ∉ st_visited st →
  J n k [] (mark_visited n (set_pq pq' st)).
Hypothesis Hgoal : ∀ st n k,
  inv1 st → J n k [] st → id n = id goal → id n ∈ st_visited st → P st.
Hypothesis Hrelax : ∀ n k done nw rest st st',
  done ++ nw :: rest = neighbors g n →
  inv1 st → id n ∈ st_visited st → J n k done st →
  relax alg goal n k st nw = Returned st' →
  J n k (done ++ [nw]) st'.
Hypothesis Hdone : ∀ st n k,
  inv1 st → id n ∈ st_visited st → J n k (neighbors g n) st → I st.

Lemma search_loop_rule (fuel : nat) : ∀ st : state,
  inv1 st → at_head st → I st → (measure st < fuel)%nat →
  ∃ st', search_loop alg g goal fuel st = Returned st' ∧
         inv1 st' ∧ at_exit st' ∧ P st'.
Proof using Hempty Hstale Hfresh Hgoal Hrelax Hdone.
  induction fuel as [|fuel IH]; intros st I1 [Hg Hed] HI Hm; [lia|].
  rewrite search_loop_S.
  assert (∀ n, n ∈ st_explored_nodes st → id n ∈ st_visited st) as Hex.
  { intros n Hn. apply (inv_visited st I1). eauto. }
  destruct (heappop (st_pq st)) as [[[[k c] n] pq']|] eqn:Hpop.
  2:{ apply heappop_None in Hpop. exists st. split; [done|]. split; [done|].
      split; [|by apply Hempty].
      split; [by rewrite (filter_not_goal _ _ Hex Hg)|].
      intros Hs. destruct (inv_pending st I1 _ Hs) as [?|(e & He & _)]; [done|].
      rewrite Hpop in He. by apply elem_of_nil in He. }
  pose proof (heappop_length _ _ _ Hpop) as Hlen.
  case_bool_decide as Hv.
  { apply IH.
    - by apply (inv1_set_pq st (k, c, n)).
    - done.
    - by eapply Hstale.
    - unfold measure in *; simpl. lia. }
  pose proof (inv1_mark_visited st (k, c, n) pq' I1 Hpop Hv) as I2.
  pose proof (Hfresh _ _ _ _ _ I1 (conj Hg Hed) HI Hpop Hv) as HJ.
  unfold node_of in I2; simpl in I2.
  set (st1 := mark_visited n (set_pq pq' st)) in *.
  assert (id n ∈ st_visited st1) as Hn1 by (simpl; set_solver).
  destruct (node_eqb n goal) eqn:Eg.
  { apply node_eqb_true in Eg. exists st1. split; [done|]. split; [done|].
    split; [|by eapply Hgoal].
    split; [|intros _; by rewrite <- Eg].
    simpl. rewrite List.filter_app; simpl.
    assert (node_eqb n goal = true) as -> by (by apply node_eqb_true).
    simpl. rewrite app_nil_r. by rewrite (filter_not_goal _ _ Hex Hg). }
  apply node_eqb_false in Eg.
  destruct (expand_rule n k (J n k) (Hrelax n k) (neighbors g n) [] st1)
    as (st2 & Hx & I3 & HJ2 & Hv2 & He2 & Hed2 & Hlen2); try done.
  { intros Ha. apply (inv_pq_sound st I1 Ha (k, c, n)).
    apply (heappop_elem _ _ _ Hpop). by left. }
  rewrite Hx; simpl. apply IH.
  - done.
  - split.
    + rewrite Hv2; simpl. rewrite elem_of_union, elem_of_singleton.
      intros [E|?]; [by symmetry in E|done].
    + rewrite Hed2, He2; simpl. unfold edges_of. rewrite map_app, concat_app; simpl.
      rewrite app_nil_r. fold (edges_of g (st_explored_nodes st)). by rewrite <- Hed.
  - apply (Hdone st2 n k); [done| |done]. by rewrite Hv2.
  - unfold measure in *. rewrite Hv2. simpl in *.
    pose proof (pending_adj_visit (st_visited st) n (_adjacency g) Hv) as Hp.
    fold (neighbors g n) in Hp. lia.
Qed.
End LoopRule.

(** The loop of a search returns, and leaves a state in which [inv1] and
    [at_exit] hold. *)
Lemma search_loop_returns :
  ∃ st, search_loop alg g goal (search_fuel g) (init_state alg start goal)
          = Returned st ∧ inv1 st ∧ at_exit st.
Proof.
  destruct (search_loop_rule (λ _, True) (λ _, True) (λ _ _ _ _, True)
              ltac:(done) ltac:(done) ltac:(done) ltac:(done) ltac:(done)
              ltac:(done) (search_fuel g) (init_state alg start goal))
    as (st & Hst & I & Hex & _).
  - apply inv1_init.
  - split; simpl; [apply not_elem_of_empty|done].
  - done.
  - apply measure_init.
  - by exists st.
Qed.

(** *** Walking the parent links back *)

(** The nodes met from [current] back to, and without, the start. *)
Inductive back_chain (came_from : gmap string Node) : Node → list Node → Prop :=
  | back_start (current : Node) :
      id current = id start → back_chain came_from current []
  | back_step (current parent : Node) (l : list Node) :
      id current ≠ id start →
      came_from !! id current = Some parent →
      back_chain came_from parent l →
      back_chain came_from current (current :: l).

Lemma walk_back_chain (st : state) : inv1 st →
  ∀ (fuel : nat) (current : Node) (acc : list Node) (i : nat) (n : Node),
    st_explored_nodes st !! i = Some n → id n = id current → (i < fuel)%nat →
    ∃ l, walk_back (st_came_from st) start fuel current acc
           = Returned (acc ++ l ++ [start]) ∧
         back_chain (st_came_from st) current l.
Proof.
  intros I. induction fuel as [|fuel IH]; intros current acc i n Hi Hid Hlt; [lia|].
  simpl. destruct (node_eqb current start) eqn:E.
  - apply node_eqb_true in E. exists []. split; [done|]. by apply back_start.
  - apply node_eqb_false in E.
    destruct (inv_order st I i n Hi) as (p & j & m & Hp & Hj & Hm & Hpm);
      [by rewrite Hid|].
    rewrite Hid in Hp. rewrite Hp.
    destruct (IH p (acc ++ [current]) j m) as (l & Hl & Hc); [done|done|lia|].
    exists (current :: l). split.
    + rewrite Hl. by rewrite <- app_assoc.
    + by eapply back_step.
Qed.

Lemma contiguous_snoc (l : list Node) (x c : Node) :
  contiguous g l → last l = Some x → linked g x c → contiguous g (l ++ [c]).
Proof.
  intros Hl Hx Hxc i a b Ha Hb.
  destruct (decide (S i < length l)%nat) as [Hlt|Hge].
  - rewrite lookup_app_l in Ha by lia. rewrite lookup_app_l in Hb by lia.
    by eapply Hl.
  - pose proof (lookup_lt_Some _ _ _ Hb) as Hlen.
    rewrite length_app in Hlen; simpl in Hlen.
    assert (S i = length l) as Ei by lia.
    rewrite lookup_app_l in Ha by lia.
    rewrite lookup_app_r in Hb by lia.
    rewrite Ei, Nat.sub_diag in Hb. injection Hb as <-.
    rewrite last_lookup in Hx. rewrite <- Ei in Hx. simpl in Hx.
    rewrite Ha in Hx. injection Hx as <-. done.
Qed.

(** The reversed walk is a contiguous path from the start to [current]. *)
Lemma back_chain_path (st : state) (current : Node) (l : list Node) :
  inv1 st → back_chain (st_came_from st) current l →
  contiguous g (rev (l ++ [start])) ∧
  head (rev (l ++ [start])) = Some start ∧
  ∃ x, last (rev (l ++ [start])) = Some x ∧ id x = id current ∧
       (id current ≠ id start → x = current).
Proof.
  intros I Hc. induction Hc as [cur E|cur p l Hne Hp Hc IH]; simpl.
  - split; [|split; [done|]].
    + intros i a b Ha Hb. by destruct i.
    + exists start. done.
  - rewrite rev_app_distr in *. simpl in *.
    destruct IH as (Hcont & Hhd & x & Hx & Hxp & _).
    split; [|split; [done|]].
    + change (start :: rev l ++ [cur]) with ((start :: rev l) ++ [cur]).
      apply (contiguous_snoc _ x); [done|done|].
      destruct (inv_came_from st I _ _ Hp) as (_ & _ & n & w & Hn & Hid).
      exists n, w. split; [|done]. by rewrite (neighbors_ext g x p).
    + exists cur. split; [|done].
      change (start :: rev l ++ [cur]) with ((start :: rev l) ++ [cur]).
      by rewrite last_snoc.
Qed.

(** *** The packaging of the result *)

Lemma finish_cases (name : string) (elapsed : N) (st : state) :
  inv1 st → at_exit st → id goal ≠ id start →
  (st_came_from st !! id goal = None ∧
   finish name start goal elapsed st
     = Returned (failed (no_path_message start goal)))
  ∨
  (∃ d l, st_cost st !! id goal = Some d ∧
     is_Some (st_came_from st !! id goal) ∧
     id goal ∈ st_visited st ∧
     back_chain (st_came_from st) goal l ∧
     finish name start goal elapsed st =
       if Qltb d 0 then Raised (ValueError "Distance cannot be negative")
       else Returned (mkPathfindingResult true
              (Some (mkRoute (rev (l ++ [start])) d name (Z.of_N elapsed)
                       (Z.of_nat (length (st_explored_nodes st)))
                       (st_explored_nodes st) (st_open_set_nodes st)
                       (st_explored_edges st)))
              None)).
Proof.
  intros I [_ Hex] Hne. unfold finish.
  assert (node_eqb goal start = false) as -> by (by apply node_eqb_false).
  destruct (st_came_from st !! id goal) as [p|] eqn:Hp; cbn [is_None negb andb].
  2:{ left. done. }
  right. pose proof (Hex (ltac:(eauto))) as Hv.
  pose proof (inv1_visited_cost st _ I Hv) as [d Hd].
  pose proof Hv as Hv'. apply (inv_visited st I) in Hv' as (n & Hn & Hid).
  apply list_elem_of_lookup in Hn as [i Hi].
  destruct (walk_back_chain st I (S (length (st_explored_nodes st))) goal [] i n)
    as (l & Hl & Hc); [done|done|apply lookup_lt_Some in Hi; lia|].
  exists d, l. split; [done|]. split; [eauto|]. split; [done|]. split; [done|].
  rewrite Hl. cbn [mbind outcome_bind app]. rewrite Hd. unfold Route_init.
  destruct (Qltb d 0); [done|].
  assert ((Z.of_N elapsed <? 0)%Z = false) as -> by (apply Z.ltb_ge; lia).
  assert ((Z.of_nat (length (st_explored_nodes st)) <? 0)%Z = false) as ->
    by (apply Z.ltb_ge; lia).
  done.
Qed.

(** ** Optimality: invariants that need non-negative weights and a
    consistent heuristic *)

(** The heuristic estimate of a node; zero in [dijkstra]. *)
Definition heur (n : Node) : Q :=
  match alg with
  | Dijkstra => 0
  | AStar heuristic => heuristic n goal
  end.

Lemma priority_heur_eq (n : Node) (c : Q) :
  (priority alg goal n c == c + heur n)%Q.
Proof. unfold heur. destruct alg; simpl; lra. Qed.

Lemma initial_priority_heur : (initial_priority alg start goal == 0 + heur start)%Q.
Proof. unfold heur. destruct alg; simpl; lra. Qed.

(** A walk that leaves a set of nodes has a first edge that leaves it. *)
Lemma walk_crossing (V : gset string) (u v : string) (c : Q) :
  walk g u v c → u ∈ V → v ∉ V →
  ∃ (x y : Node) (w c1 c2 : Q),
    walk g u (id x) c1 ∧ id x ∈ V ∧ (y, w) ∈ neighbors g x ∧ (id y ∉ V) ∧
    walk g (id y) v c2 ∧ (c == c1 + w + c2)%Q.
Proof.
  intros Hw. induction Hw as [u|a n w v c Hin Hw IH]; intros Hu Hv; [done|].
  destruct (decide (id n ∈ V)) as [Hn|Hn].
  - destruct (IH Hn Hv) as (x & y & w' & c1 & c2 & H1 & Hx & Hy & Hy' & H2 & Hc).
    exists x, y, w', (w + c1)%Q, c2. split; [by apply (walk_cons g a n)|].
    split_and!; try done. rewrite Hc. lra.
  - exists a, n, w, 0%Q, c. split; [apply walk_nil|]. split_and!; try done. lra.
Qed.

Section Optimal.
Hypothesis Hweights : ∀ a n w, (n, w) ∈ neighbors g a → (0 <= w)%Q.
Hypothesis Hconsistent : ∀ a n w,
  a ∈ start :: targets g → (n, w) ∈ neighbors g a → (heur a <= w + heur n)%Q.
Hypothesis Hrespect : ∀ a b,
  a ∈ start :: targets g → b ∈ start :: targets g → id a = id b →
  (heur a == heur b)%Q.

Lemma heur_walk (u v : string) (c : Q) :
  walk g u v c →
  ∀ a b, a ∈ start :: targets g → b ∈ start :: targets g →
         id a = u → id b = v → (heur a <= c + heur b)%Q.
Proof using Hconsistent Hrespect.
  intros Hw. induction Hw as [u|a0 n w v c Hin Hw IH]; intros a b Ha Hb Eu Ev.
  - rewrite (Hrespect a b); [lra|done|done|congruence].
  - rewrite (neighbors_ext g a0 a) in Hin by done.
    pose proof (Hconsistent a n w Ha Hin) as H1.
    assert (n ∈ start :: targets g) as Hn by (right; by eapply neighbors_targets).
    pose proof (IH n b Hn Hb eq_refl Ev) as H2. lra.
Qed.

Record inv2 (st : state) : Prop := {
  opt_settled : ∀ v d c, v ∈ st_visited st → st_cost st !! v = Some d →
    walk g (id start) v c → (d <= c)%Q;
  opt_frontier : ∀ v d, st_cost st !! v = Some d → v ∉ st_visited st →
    ∃ e, e ∈ st_pq st ∧ id (node_of e) = v ∧ (key e == d + heur (node_of e))%Q;
  opt_keys : ∀ e, e ∈ st_pq st →
    ∃ d, st_cost st !! id (node_of e) = Some d ∧ (d + heur (node_of e) <= key e)%Q;
  opt_start : st_cost st !! id start = Some 0%Q
}.

(** The edge from [a] to [n] has been relaxed. *)
Definition closed_edge (st : state) (a n : Node) (w : Q) : Prop :=
  ∃ da dn, st_cost st !! id a = Some da ∧ st_cost st !! id n = Some dn ∧
           (dn <= da + w)%Q.

Definition opt_head (st : state) : Prop :=
  inv2 st ∧
  ∀ a n w, id a ∈ st_visited st → (n, w) ∈ neighbors g a → closed_edge st a n w.

Definition opt_mid (current : Node) (popped : Q) (done : list (Node * Q))
    (st : state) : Prop :=
  inv2 st ∧
  (∃ d, st_cost st !! id current = Some d ∧ (alg = Dijkstra → popped == d)%Q) ∧
  ∀ a n w, id a ∈ st_visited st → (n, w) ∈ neighbors g a →
    id a ≠ id current ∨ (n, w) ∈ done → closed_edge st a n w.

Definition opt_exit (st : state) : Prop :=
  inv2 st ∧
  (id goal ∉ st_visited st → ∀ c, ¬ walk g (id start) (id goal) c).

Lemma inv2_init : opt_head (init_state alg start goal).
Proof.
  split; [split|]; simpl.
  - intros v d c Hv. by apply not_elem_of_empty in Hv.
  - intros v d [<- <-]%lookup_singleton_Some _.
    exists (initial_priority alg start goal, 0%nat, start).
    split; [left|]. split; [done|]. apply initial_priority_heur.
  - intros e ->%list_elem_of_singleton. exists 0%Q.
    unfold node_of, key; simpl. rewrite lookup_singleton_eq. split; [done|].
    rewrite initial_priority_heur. lra.
  - apply lookup_singleton_eq.
  - intros a n w Ha. by apply not_elem_of_empty in Ha.
Qed.

Lemma opt_stale (st : state) (k : Q) (c : nat) (n : Node) (pq' : list entry) :
  inv1 st → at_head st → opt_head st →
  heappop (st_pq st) = Some ((k, c, n), pq') → id n ∈ st_visited st →
  opt_head (set_pq pq' st).
Proof.
  intros I1 _ [I2 Hcl] Hpop Hv. pose proof (heappop_elem _ _ _ Hpop) as Hel.
  split; [split|]; simpl; try apply I2; try done.
  - intros v d Hd Hnv.
    destruct (opt_frontier st I2 v d Hd Hnv) as (e & He & Hid & Hk).
    apply Hel in He as [->|He]; [by rewrite <- Hid in Hnv|]. by exists e.
  - intros e He. apply (opt_keys st I2), Hel. by right.
Qed.

(** The entry popped for a node not yet finalized carries the cost on
    record for it, and that cost is the least cost of a path to it. *)
Lemma opt_popped (st : state) (k : Q) (c : nat) (n : Node) (pq' : list entry) :
  inv1 st → opt_head st →
  heappop (st_pq st) = Some ((k, c, n), pq') → id n ∉ st_visited st →
  ∃ d, st_cost st !! id n = Some d ∧ (k == d + heur n)%Q ∧
       ∀ c0, walk g (id start) (id n) c0 → (d <= c0)%Q.
Proof using Hweights Hconsistent Hrespect.
  intros I1 [I2 Hcl] Hpop Hv.
  pose proof (heappop_elem _ _ _ Hpop) as Hel.
  assert ((k, c, n) ∈ st_pq st) as Hin by (apply Hel; by left).
  pose proof (inv_pq_objs st I1 _ Hin) as Hobj. unfold node_of in Hobj; simpl in Hobj.
  destruct (opt_keys st I2 _ Hin) as (d & Hd & Hle).
  unfold node_of, key in Hd, Hle; simpl in Hd, Hle.
  exists d. split; [done|]. split.
  { destruct (opt_frontier st I2 _ d Hd Hv) as (e & He & Hid & Hk).
    pose proof (heappop_least _ _ _ Hpop e He) as Hmin. unfold key at 1 in Hmin.
    simpl in Hmin.
    pose proof (Hrespect (node_of e) n (inv_pq_objs st I1 _ He) Hobj Hid) as Hh.
    rewrite Hk, Hh in Hmin. lra. }
  intros c0 Hw.
  destruct (decide (id n = id start)) as [Es|Es].
  { rewrite Es, (opt_start st I2) in Hd. injection Hd as <-.
    by apply (walk_nonneg g _ _ _ Hweights Hw). }
  assert (id start ∈ st_visited st) as Hs.
  { assert (is_Some (st_cost st !! id n)) as Hc by eauto.
    apply (inv_cost_dom st I1) in Hc as [?|[p Hp]]; [done|].
    destruct (inv_came_from st I1 _ _ Hp) as (Hpv & _).
    by eapply inv1_start_visited. }
  destruct (walk_crossing _ _ _ _ Hw Hs Hv)
    as (x & y & w & c1 & c2 & H1 & Hx & Hxy & Hy & H2 & Hc).
  destruct (Hcl x y w Hx Hxy) as (dx & dy & Hdx & Hdy & Hrel).
  pose proof (opt_settled st I2 _ _ _ Hx Hdx H1) as Hopt.
  destruct (opt_frontier st I2 _ dy Hdy Hy) as (e & He & Hid & Hk).
  pose proof (heappop_least _ _ _ Hpop e He) as Hmin. unfold key at 1 in Hmin.
  simpl in Hmin.
  pose proof (heur_walk _ _ _ H2 (node_of e) n (inv_pq_objs st I1 _ He) Hobj Hid eq_refl)
    as Hh.
  rewrite Hk in Hmin. lra.
Qed.

Lemma opt_fresh (st : state) (k : Q) (c : nat) (n : Node) (pq' : list entry) :
  inv1 st → at_head st → opt_head st →
  heappop (st_pq st) = Some ((k, c, n), pq') → id n ∉ st_visited st →
  opt_mid n k [] (mark_visited n (set_pq pq' st)).
Proof using Hweights Hconsistent Hrespect.
  intros I1 _ HI Hpop Hv.
  destruct (opt_popped st k c n pq' I1 HI Hpop Hv) as (d & Hd & Hk & Hopt).
  destruct HI as [I2 Hcl]. pose proof (heappop_elem _ _ _ Hpop) as Hel.
  split; [split|split]; simpl.
  - intros v d' c0 [->%elem_of_singleton|Hv']%elem_of_union Hd' Hw.
    + rewrite Hd in Hd'. injection Hd' as <-. by apply Hopt.
    + by eapply (opt_settled st I2).
  - intros v d' Hd' Hnv. apply not_elem_of_union in Hnv as [Hne Hnv].
    destruct (opt_frontier st I2 v d' Hd' Hnv) as (e & He & Hid & Hke).
    apply Hel in He as [->|He].
    + exfalso. apply Hne. apply elem_of_singleton. by rewrite <- Hid.
    + by exists e.
  - intros e He. apply (opt_keys st I2), Hel. by right.
  - apply (opt_start st I2).
  - exists d. split; [done|]. intros Ha. rewrite Hk. unfold heur. rewrite Ha. lra.
  - intros a m w [Ea%elem_of_singleton|Ha]%elem_of_union Hm [Hne|Hdone].
    + done.
    + by apply elem_of_nil in Hdone.
    + by apply Hcl.
    + by apply elem_of_nil in Hdone.
Qed.

Lemma opt_goal (st : state) (n : Node) (k : Q) :
  inv1 st → opt_mid n k [] st → id n = id goal → id n ∈ st_visited st →
  opt_exit st.
Proof.
  intros _ (I2 & _) Eg Hv. split; [done|]. intros Hg. by rewrite <- Eg in Hg.
Qed.

Lemma opt_done (st : state) (n : Node) (k : Q) :
  inv1 st → id n ∈ st_visited st → opt_mid n k (neighbors g n) st → opt_head st.
Proof.
  intros _ Hv (I2 & _ & Hcl). split; [done|]. intros a m w Ha Hm.
  apply Hcl; [done|done|].
  destruct (decide (id a = id n)) as [E|E]; [right|by left].
  by rewrite <- (neighbors_ext g a n).
Qed.

Lemma opt_empty (st : state) :
  inv1 st → at_head st → opt_head st → st_pq st = [] → opt_exit st.
Proof.
  intros I1 [Hg _] [I2 Hcl] Hpq. split; [done|]. intros _ c Hw.
  assert (∀ v d, st_cost st !! v = Some d → v ∈ st_visited st) as Hall.
  { intros v d Hd. destruct (decide (v ∈ st_visited st)) as [?|Hnv]; [done|].
    destruct (opt_frontier st I2 v d Hd Hnv) as (e & He & _).
    rewrite Hpq in He. by apply elem_of_nil in He. }
  pose proof (Hall _ _ (opt_start st I2)) as Hs.
  destruct (walk_crossing _ _ _ _ Hw Hs Hg)
    as (x & y & w & c1 & c2 & _ & Hx & Hxy & Hy & _).
  destruct (Hcl x y w Hx Hxy) as (dx & dy & _ & Hdy & _).
  apply Hy. by eapply Hall.
Qed.

Lemma opt_relax (n : Node) (k : Q) (done : list (Node * Q)) (nw : Node * Q)
    (rest : list (Node * Q)) (st st' : state) :
  done ++ nw :: rest = neighbors g n →
  inv1 st → id n ∈ st_visited st → opt_mid n k done st →
  relax alg goal n k st nw = Returned st' →
  opt_mid n k (done ++ [nw]) st'.
Proof.
  intros Hsplit I1 Hn (I2 & (dcur & Hdcur & Hkd) & Hcl) Hr.
  destruct nw as [nb w].
  assert ((nb, w) ∈ neighbors g n) as Hin.
  { rewrite <- Hsplit. apply elem_of_app. right. left. }
  destruct (relax_frame _ _ _ _ _ _ _ _ Hr) as (Hv & He & _).
  assert (relax_skip st st' → closed_edge st n nb w →
          opt_mid n k (done ++ [(nb, w)]) st') as Hskip.
  { intros (_ & Hpq & Hc & _) Hce. split; [|split].
    - destruct I2. split; rewrite ?Hv, ?Hpq, ?Hc; done.
    - rewrite Hc. eauto.
    - intros a m w' Ha Hm Hcond. unfold closed_edge. rewrite Hc. rewrite Hv in Ha.
      destruct (decide (id a = id n)) as [E|E]; [|apply Hcl; auto].
      destruct Hcond as [Hne|[Hd|[= -> ->]%list_elem_of_singleton]%elem_of_app];
        [done|apply Hcl; auto|].
      unfold closed_edge in Hce. by rewrite E. }
  assert (∀ base, current_cost alg n k (st_cost st) = Returned base →
                  (base == dcur)%Q) as Hbase.
  { intros base. destruct alg as [|h] eqn:Ea; simpl.
    - intros [= <-]. by apply Hkd.
    - rewrite Hdcur. by intros [= <-]. }
  apply relax_cases in Hr
    as [[Hnv Hs]|(Hnv & base & Hb & [(d & Hd & Hle & Hs)|[Hlt Hp]])].
  - apply Hskip; [done|].
    destruct (inv1_visited_cost st _ I1 Hnv) as [dn Hdn].
    exists dcur, dn. split; [done|]. split; [done|].
    destruct (inv_cost_walk st I1 _ _ Hdcur) as (c & Hw & Hc).
    destruct (walk_snoc _ _ _ _ _ _ Hw Hin) as (c' & Hw' & Hc').
    pose proof (opt_settled st I2 _ _ _ Hnv Hdn Hw') as Hopt. lra.
  - apply Hskip; [done|]. exists dcur, d. split; [done|]. split; [done|].
    rewrite <- (Hbase base Hb). done.
  - destruct Hp as (_ & Hpq & Hc & _). specialize (Hbase base Hb).
    assert (id nb ≠ id n) as Hnbn by (intros E; by rewrite E in Hnv).
    assert (id nb ≠ id start) as Hnbs.
    { intros E. apply Hnv. rewrite E. by eapply inv1_start_visited. }
    split; [split|split]; rewrite ?Hv, ?Hpq, ?Hc.
    + intros v d c Hvv. rewrite lookup_insert_ne by (intros <-; done).
      by apply (opt_settled st I2).
    + intros v d. rewrite lookup_insert. case_decide as Ev.
      * intros [= <-] _. exists (priority alg goal nb (base + w), st_counter st, nb).
        split; [apply elem_of_app; right; left|]. split; [done|].
        unfold key, node_of; simpl. apply priority_heur_eq.
      * intros Hd Hvv. destruct (opt_frontier st I2 v d Hd Hvv) as (e & He' & Hid & Hk).
        exists e. split; [apply elem_of_app; by left|done].
    + intros e [He'| ->%list_elem_of_singleton]%elem_of_app.
      * destruct (opt_keys st I2 e He') as (d & Hd & Hle).
        rewrite lookup_insert. case_decide as Ev; [|by exists d].
        exists (base + w)%Q. split; [done|]. rewrite <- Ev in Hd.
        specialize (Hlt d Hd). lra.
      * unfold key, node_of; simpl. rewrite lookup_insert_eq.
        exists (base + w)%Q. split; [done|]. rewrite priority_heur_eq. lra.
    + rewrite lookup_insert_ne by done. apply (opt_start st I2).
    + rewrite lookup_insert_ne by done. eauto.
    + intros a m w' Ha Hm Hcond.
      assert (closed_edge st a m w' ∨ (id a = id n ∧ m = nb ∧ w' = w)) as [Hce|Hnew].
      { destruct (decide (id a = id n)) as [E|E]; [|left; apply Hcl; auto].
        destruct Hcond as [Hne|[Hd|[= -> ->]%list_elem_of_singleton]%elem_of_app];
          [done|left; apply Hcl; auto|by right]. }
      * destruct Hce as (da & dm & Hda & Hdm & Hle). unfold closed_edge. rewrite Hc.
        rewrite (lookup_insert_ne _ (id nb) (id a)) by (intros E; by rewrite E in Hnv).
        rewrite lookup_insert. case_decide as Ev.
        -- exists da, (base + w)%Q. split; [done|]. split; [done|].
           rewrite Ev in Hlt. specialize (Hlt dm Hdm). lra.
        -- by exists da, dm.
      * destruct Hnew as (Ea & -> & ->). unfold closed_edge. rewrite Hc.
        rewrite Ea. rewrite (lookup_insert_ne _ (id nb) (id n)) by done.
        rewrite lookup_insert_eq. exists dcur, (base + w)%Q.
        split; [done|]. split; [done|]. lra.
Qed.

(** The loop returns, and what it has recorded for a finalized node is the
    least cost of a path to it. *)
Lemma search_loop_optimal :
  ∃ st, search_loop alg g goal (search_fuel g) (init_state alg start goal)
          = Returned st ∧ inv1 st ∧ at_exit st ∧ opt_exit st.
Proof using Hweights Hconsistent Hrespect.
  destruct (search_loop_rule opt_head opt_exit opt_mid
              opt_empty opt_stale opt_fresh opt_goal opt_relax opt_done
              (search_fuel g) (init_state alg start goal))
    as (st & Hst & I & Hex & Hopt).
  - apply inv1_init.
  - split; simpl; [apply not_elem_of_empty|done].
  - apply inv2_init.
  - apply measure_init.
  - by exists st.
Qed.
End Optimal.
End Search.

(** ** The two searches as instances of the shared core *)

Lemma dijkstra_run (g : Graph) (start goal : Node) (elapsed : N) :
  present g start → present g goal → id start ≠ id goal →
  dijkstra g start goal elapsed = run Dijkstra "Dijkstra" g start goal elapsed.
Proof.
  unfold present, dijkstra, run. intros -> -> Hne%node_eqb_false. simpl.
  by rewrite Hne.
Qed.

Lemma astar_run (g : Graph) (start goal : Node) (h : Node → Node → Q)
    (elapsed : N) :
  present g start → present g goal → id start ≠ id goal →
  astar g start goal (Some h) elapsed = run (AStar h) "A*" g start goal elapsed.
Proof.
  unfold present, astar, run. intros -> -> Hne%node_eqb_false. simpl.
  by rewrite Hne.
Qed.

(** A search whose goal cannot be reached reports it. *)
Lemma run_unreachable (alg : algo) (name : string) (g : Graph)
    (start goal : Node) (elapsed : N) :
  id start ≠ id goal →
  (∀ c, ¬ walk g (id start) (id goal) c) →
  run alg name g start goal elapsed =
    Returned (failed (no_path_message start goal)).
Proof.
  intros Hne Hno. unfold run.
  destruct (search_loop_returns alg g start goal) as (st & -> & I & Hex).
  cbn [mbind outcome_bind].
  destruct (finish_cases alg g start goal name elapsed st I Hex)
    as [[_ ->]|(d & l & Hd & _)]; [done|done|].
  destruct (inv_cost_walk alg g start st I _ _ Hd) as (c & Hw & _).
  by apply Hno in Hw.
Qed.

(** A search that returns a successful result returns the route it
    reconstructed from a final state of the loop. *)
Lemma run_success (alg : algo) (name : string) (g : Graph)
    (start goal : Node) (elapsed : N) (r : PathfindingResult) :
  id start ≠ id goal →
  run alg name g start goal elapsed = Returned r → success r = true →
  ∃ st d l,
    search_loop alg g goal (search_fuel g) (init_state alg start goal)
      = Returned st ∧
    inv1 alg g start st ∧ at_exit g goal st ∧
    st_cost st !! id goal = Some d ∧ id goal ∈ st_visited st ∧
    back_chain start (st_came_from st) goal l ∧
    r = mkPathfindingResult true
          (Some (mkRoute (rev (l ++ [start])) d name (Z.of_N elapsed)
                   (Z.of_nat (length (st_explored_nodes st)))
                   (st_explored_nodes st) (st_open_set_nodes st)
                   (st_explored_edges st)))
          None.
Proof.
  intros Hne. unfold run.
  destruct (search_loop_returns alg g start goal) as (st & Hst & I & Hex).
  rewrite Hst. cbn [mbind outcome_bind].
  destruct (finish_cases alg g start goal name elapsed st I Hex)
    as [[_ ->]|(d & l & Hd & _ & Hv & Hc & ->)]; [done|by intros [= <-]|].
  destruct (Qltb d 0); [done|]. intros [= <-] _.
  exists st, d, l. done.
Qed.

(** ** The scenarios of the specification *)

Example known_shortest_path_dijkstra :
  ∃ rt, dijkstra known_shortest_path node_a node_f 0 = Returned (succeeded rt) ∧
        map id (path rt) = ["A"; "D"; "E"; "F"] ∧ total_distance rt = 5%Q.
Proof. eexists. split; [vm_compute; reflexivity|done]. Qed.

Example known_shortest_path_astar :
  ∃ rt, astar known_shortest_path node_a node_f (Some zero_heuristic) 0
          = Returned (succeeded rt) ∧
        map id (path rt) = ["A"; "D"; "E"; "F"] ∧ total_distance rt = 5%Q.
Proof. eexists. split; [vm_compute; reflexivity|done]. Qed.

Example two_isolated_dijkstra :
  dijkstra two_isolated (at_origin "A") (at_origin "B") 0
    = Returned (failed "No path found from A to B").
Proof. reflexivity. Qed.

Example add_edge_zero_weight (g : Graph) (a b : Node) :
  add_edge g a b 0 false = Raised (ValueError "Edge weight must be positive").
Proof. reflexivity. Qed.

(** ** Validation of the inputs (claim C9) *)

Lemma PathfindingResult_failed (msg : string) :
  PathfindingResult_init false None (Some msg) = Returned (failed msg).
Proof. reflexivity. Qed.

(** C9.  A search whose start node, or else whose goal node, is not among
    the nodes of the graph raises nothing and returns a failed result naming
    that node; [astar] given a heuristic that is not callable returns a
    failed result saying so.  The checks come before the comparison of start
    and goal, so a query from an absent node to itself fails as well. *)
Theorem invalid_inputs_are_reported (g : Graph) (start goal : Node)
    (h : option (Node → Node → Q)) (elapsed : N) :
  (absent g start →
     dijkstra g start goal elapsed
       = Returned (failed ("Start node " +:+ id start +:+ " not found in graph")) ∧
     astar g start goal h elapsed
       = Returned (failed ("Start node " +:+ id start +:+ " not found in graph")) ∧
     dijkstra g start start elapsed
       = Returned (failed ("Start node " +:+ id start +:+ " not found in graph")) ∧
     astar g start start h elapsed
       = Returned (failed ("Start node " +:+ id start +:+ " not found in graph"))) ∧
  (present g start → absent g goal →
     dijkstra g start goal elapsed
       = Returned (failed ("Goal node " +:+ id goal +:+ " not found in graph")) ∧
     astar g start goal h elapsed
       = Returned (failed ("Goal node " +:+ id goal +:+ " not found in graph"))) ∧
  (present g start → present g goal →
     astar g start goal None elapsed
       = Returned (failed "Heuristic must be a callable function")).
Proof.
  unfold absent, present, dijkstra, astar. split_and!.
  - by intros ->.
  - by intros -> ->.
  - by intros -> ->.
Qed.

Lemma invalid_inputs_are_reported_witness :
  dijkstra two_isolated (at_origin "Z") (at_origin "Z") 0
    = Returned (failed "Start node Z not found in graph") ∧
  astar two_isolated (at_origin "A") (at_origin "Z") (Some zero_heuristic) 0
    = Returned (failed "Goal node Z not found in graph") ∧
  astar two_isolated (at_origin "A") (at_origin "B") None 0
    = Returned (failed "Heuristic must be a callable function").
Proof.
  split_and!.
  - apply (invalid_inputs_are_reported two_isolated (at_origin "Z") (at_origin "Z")
             None 0). reflexivity.
  - apply (invalid_inputs_are_reported two_isolated (at_origin "A") (at_origin "Z")
             (Some zero_heuristic) 0); reflexivity.
  - apply (invalid_inputs_are_reported two_isolated (at_origin "A") (at_origin "B")
             None 0); reflexivity.
Defined.

(** ** The result value (claim C4) *)

(** C4, as the code has it.  Construction of a [PathfindingResult] fails
    exactly when a successful result has no route or a failed result has no
    error message; every other combination of the two fields is accepted,
    a populated error on a successful result and a populated route on a
    failed one included. *)
Theorem result_validation (ok : bool) (rt : option Route) (err : option string) :
  (ok = true ∧ rt = None →
     PathfindingResult_init ok rt err
       = Raised (ValueError "Successful result must include a route")) ∧
  (ok = false ∧ err = None →
     PathfindingResult_init ok rt err
       = Raised (ValueError "Failed result must include an error message")) ∧
  (¬ (ok = true ∧ rt = None) → ¬ (ok = false ∧ err = None) →
     PathfindingResult_init ok rt err
       = Returned (mkPathfindingResult ok rt err)).
Proof.
  unfold PathfindingResult_init. split_and!.
  - by intros [-> ->].
  - by intros [-> ->].
  - destruct ok, rt, err; simpl; intros H1 H2; try done.
    + exfalso. by apply H1.
    + exfalso. by apply H1.
    + exfalso. by apply H2.
    + exfalso. by apply H2.
Qed.

Lemma result_validation_witness :
  PathfindingResult_init true None (Some "unused")
    = Raised (ValueError "Successful result must include a route") ∧
  PathfindingResult_init false None None
    = Raised (ValueError "Failed result must include an error message") ∧
  PathfindingResult_init false None (Some "no route")
    = Returned (failed "no route").
Proof.
  split_and!.
  - by apply (result_validation true None (Some "unused")).
  - by apply (result_validation false None None).
  - apply (result_validation false None (Some "no route")); by intros [? ?].
Defined.

(** C4, as stated, fails: a successful result carrying an error message and
    a failed result carrying a route both pass construction. *)
Lemma result_validation_accepts_both_fields :
  PathfindingResult_init true (Some sample_route) (Some "boom")
    = Returned (mkPathfindingResult true (Some sample_route) (Some "boom")) ∧
  PathfindingResult_init false (Some sample_route) (Some "boom")
    = Returned (mkPathfindingResult false (Some sample_route) (Some "boom")).
Proof. split; reflexivity. Qed.

(** ** Start equals goal (claim C6) *)

Lemma search_of_equal_nodes (g : Graph) (start goal : Node)
    (h : Node → Node → Q) (elapsed : N) :
  present g start → node_eqb start goal = true →
  ∃ rt1 rt2,
    dijkstra g start goal elapsed = Returned (succeeded rt1) ∧
    path rt1 = [start] ∧ total_distance rt1 = 0%Q ∧
    astar g start goal (Some h) elapsed = Returned (succeeded rt2) ∧
    path rt2 = [start] ∧ total_distance rt2 = 0%Q.
Proof.
  intros Hs Eq.
  assert (present g goal) as Hg.
  { unfold present in *. apply node_in_true in Hs as (y & Hy & Hid).
    apply node_in_true. exists y. split; [done|].
    apply node_eqb_true in Eq. congruence. }
  unfold present in *. unfold dijkstra, astar. rewrite Hs, Hg, Eq. simpl.
  unfold trivial_route, Route_init. simpl.
  assert ((Z.of_N elapsed <? 0)%Z = false) as -> by (apply Z.ltb_ge; lia).
  simpl. eexists _, _. split_and!; reflexivity.
Qed.

(** C6, for a node of the graph.  When start and goal are equal and present
    in the graph, both searches succeed with the route whose path is the
    start node alone and whose total distance is 0; [astar] is given a
    callable heuristic. *)
Theorem same_start_and_goal (g : Graph) (start goal : Node)
    (h : Node → Node → Q) (elapsed : N) :
  present g start → node_eqb start goal = true →
  ∃ rt1 rt2,
    dijkstra g start goal elapsed = Returned (succeeded rt1) ∧
    path rt1 = [start] ∧ total_distance rt1 = 0%Q ∧
    astar g start goal (Some h) elapsed = Returned (succeeded rt2) ∧
    path rt2 = [start] ∧ total_distance rt2 = 0%Q.
Proof. apply search_of_equal_nodes. Qed.

Lemma same_start_and_goal_witness :
  ∃ rt1 rt2,
    dijkstra known_shortest_path node_a node_a 7 = Returned (succeeded rt1) ∧
    path rt1 = [node_a] ∧ total_distance rt1 = 0%Q ∧
    astar known_shortest_path node_a node_a (Some zero_heuristic) 7
      = Returned (succeeded rt2) ∧
    path rt2 = [node_a] ∧ total_distance rt2 = 0%Q.
Proof.
  apply (same_start_and_goal known_shortest_path node_a node_a
           zero_heuristic 7); reflexivity.
Defined.

(** C6, as stated for every node, fails: on a node that is not in the graph
    the query from the node to itself is a failure. *)
Lemma same_start_and_goal_absent :
  dijkstra Graph_init (at_origin "A") (at_origin "A") 0
    = Returned (failed "Start node A not found in graph") ∧
  astar Graph_init (at_origin "A") (at_origin "A") (Some zero_heuristic) 0
    = Returned (failed "Start node A not found in graph").
Proof. split; reflexivity. Qed.

(** ** No path (claim C2) *)

(** C2.  When start and goal are distinct nodes of the graph and no path
    leads from the start to the goal, both searches return, raise nothing,
    and the result is the failure whose message is
    "No path found from <start id> to <goal id>". *)
Theorem unreachable_goal_is_reported (g : Graph) (start goal : Node)
    (h : Node → Node → Q) (elapsed : N) :
  present g start → present g goal → node_eqb start goal = false →
  (∀ c, ¬ walk g (id start) (id goal) c) →
  dijkstra g start goal elapsed
    = Returned (failed ("No path found from " +:+ id start +:+ " to " +:+ id goal)) ∧
  astar g start goal (Some h) elapsed
    = Returned (failed ("No path found from " +:+ id start +:+ " to " +:+ id goal)).
Proof.
  intros Hs Hg Hne%node_eqb_false Hno.
  rewrite dijkstra_run, astar_run by done.
  split; by apply run_unreachable.
Qed.

(** A node without adjacency entries leads nowhere else. *)
Lemma no_walk_from_sink (g : Graph) (a : Node) (v : string) (c : Q) :
  neighbors g a = [] → id a ≠ v → ¬ walk g (id a) v c.
Proof.
  intros Hn Hne Hw. remember (id a) as u eqn:Eu.
  destruct Hw as [u|a0 n w v c Hin _]; [done|].
  rewrite (neighbors_ext g a0 a), Hn in Hin by done. by apply elem_of_nil in Hin.
Qed.

Lemma unreachable_goal_is_reported_witness :
  dijkstra two_isolated (at_origin "A") (at_origin "B") 0
    = Returned (failed "No path found from A to B") ∧
  astar two_isolated (at_origin "A") (at_origin "B") (Some zero_heuristic) 0
    = Returned (failed "No path found from A to B").
Proof.
  apply (unreachable_goal_is_reported two_isolated (at_origin "A") (at_origin "B")
           zero_heuristic 0); try reflexivity.
  intros c. by apply no_walk_from_sink.
Defined.

(** ** The reconstructed path (claim C7) *)

Lemma trivial_route_returns (name : string) (start : Node) (elapsed : N) :
  trivial_route name start elapsed =
    Returned (succeeded (mkRoute [start] 0 name (Z.of_N elapsed) 1
                           [start] [start] [])).
Proof.
  unfold trivial_route, Route_init. simpl.
  assert ((Z.of_N elapsed <? 0)%Z = false) as -> by (apply Z.ltb_ge; lia).
  reflexivity.
Qed.

(** A search that returns has either failed or succeeded. *)
Lemma run_result (alg : algo) (name : string) (g : Graph) (start goal : Node)
    (elapsed : N) (r : PathfindingResult) :
  id start ≠ id goal →
  run alg name g start goal elapsed = Returned r →
  r = failed (no_path_message start goal) ∨ success r = true.
Proof.
  intros Hne. unfold run.
  destruct (search_loop_returns alg g start goal) as (st & -> & I & Hex).
  cbn [mbind outcome_bind].
  destruct (finish_cases alg g start goal name elapsed st I Hex)
    as [[_ ->]|(d & l & _ & _ & _ & _ & ->)]; [done|intros [= <-]; by left|].
  destruct (Qltb d 0); [done|]. intros [= <-]. by right.
Qed.

Lemma search_result (g : Graph) (start goal : Node)
    (h : option (Node → Node → Q)) (elapsed : N) (r : PathfindingResult) :
  dijkstra g start goal elapsed = Returned r ∨
  astar g start goal h elapsed = Returned r →
  (∃ msg, r = failed msg) ∨ success r = true.
Proof.
  assert (∀ name, trivial_route name start elapsed = Returned r →
                  (∃ msg, r = failed msg) ∨ success r = true) as Ht.
  { intros name. rewrite trivial_route_returns. intros [= <-]. by right. }
  assert (∀ alg name, node_eqb start goal = false →
            run alg name g start goal elapsed = Returned r →
            (∃ msg, r = failed msg) ∨ success r = true) as Hrun.
  { intros alg name Hne%node_eqb_false Hr.
    destruct (run_result alg name g start goal elapsed r Hne Hr) as [->|?]; eauto. }
  intros [Hr|Hr].
  - unfold dijkstra in Hr.
    destruct (node_in start (nodes g)); cbn [negb] in Hr;
      [|rewrite PathfindingResult_failed in Hr; injection Hr as <-; eauto].
    destruct (node_in goal (nodes g)); cbn [negb] in Hr;
      [|rewrite PathfindingResult_failed in Hr; injection Hr as <-; eauto].
    destruct (node_eqb start goal) eqn:Eq; [by eapply Ht|by eapply Hrun].
  - unfold astar in Hr.
    destruct (node_in start (nodes g)); cbn [negb] in Hr;
      [|rewrite PathfindingResult_failed in Hr; injection Hr as <-; eauto].
    destruct (node_in goal (nodes g)); cbn [negb] in Hr;
      [|rewrite PathfindingResult_failed in Hr; injection Hr as <-; eauto].
    destruct h as [h|];
      [|rewrite PathfindingResult_failed in Hr; injection Hr as <-; eauto].
    destruct (node_eqb start goal) eqn:Eq; [by eapply Ht|by eapply Hrun].
Qed.

(** What the two searches return when they return a successful result. *)
Lemma search_success (g : Graph) (start goal : Node)
    (h : option (Node → Node → Q)) (elapsed : N) (r : PathfindingResult) :
  dijkstra g start goal elapsed = Returned r ∨
  astar g start goal h elapsed = Returned r →
  success r = true →
  (node_eqb start goal = true ∧
   ∃ name, trivial_route name start elapsed = Returned r) ∨
  (id start ≠ id goal ∧
   ∃ alg name, run alg name g start goal elapsed = Returned r).
Proof.
  intros Hr Hok.
  destruct (node_eqb start goal) eqn:Eq.
  - left. split; [done|]. destruct Hr as [Hr|Hr].
    + unfold dijkstra in Hr. rewrite Eq in Hr.
      destruct (node_in start (nodes g)); simpl in Hr;
        [|injection Hr as <-; done].
      destruct (node_in goal (nodes g)); simpl in Hr;
        [|injection Hr as <-; done].
      eauto.
    + unfold astar in Hr. rewrite Eq in Hr.
      destruct (node_in start (nodes g)); simpl in Hr;
        [|injection Hr as <-; done].
      destruct (node_in goal (nodes g)); simpl in Hr;
        [|injection Hr as <-; done].
      destruct h as [h|]; [eauto|injection Hr as <-; done].
  - right. split; [by apply node_eqb_false|]. destruct Hr as [Hr|Hr].
    + unfold dijkstra in Hr. rewrite Eq in Hr.
      destruct (node_in start (nodes g)); simpl in Hr;
        [|injection Hr as <-; done].
      destruct (node_in goal (nodes g)); simpl in Hr;
        [|injection Hr as <-; done].
      by exists Dijkstra, "Dijkstra".
    + unfold astar in Hr. rewrite Eq in Hr.
      destruct (node_in start (nodes g)); simpl in Hr;
        [|injection Hr as <-; done].
      destruct (node_in goal (nodes g)); simpl in Hr;
        [|injection Hr as <-; done].
      destruct h as [h|]; [|injection Hr as <-; done].
      by exists (AStar h), "A*".
Qed.

(** C7.  In every successful result of either search the path begins with
    the start node, ends with a node equal to the goal, and every node of it
    is followed by a node that appears, with some weight, among its
    neighbours in the graph. *)
Theorem reconstructed_path_is_contiguous (g : Graph) (start goal : Node)
    (h : option (Node → Node → Q)) (elapsed : N)
    (r : PathfindingResult) (rt : Route) :
  dijkstra g start goal elapsed = Returned r ∨
  astar g start goal h elapsed = Returned r →
  success r = true → route r = Some rt →
  head (path rt) = Some start ∧
  (∃ x, last (path rt) = Some x ∧ node_eqb x goal = true) ∧
  ∀ i a b, path rt !! i = Some a → path rt !! S i = Some b →
    ∃ n w, (n, w) ∈ neighbors g a ∧ node_eqb n b = true.
Proof.
  intros Hr Hok Hrt.
  destruct (search_success g start goal h elapsed r Hr Hok)
    as [[Eq (name & Ht)]|[Hne (alg & name & Hrun)]].
  - rewrite trivial_route_returns in Ht. injection Ht as <-.
    simpl in Hrt. injection Hrt as <-. simpl. split; [done|]. split; [eauto|].
    intros i a b _ Hb. by destruct i.
  - destruct (run_success alg name g start goal elapsed r Hne Hrun Hok)
      as (st & d & l & _ & I & _ & _ & _ & Hc & ->).
    simpl in Hrt. injection Hrt as <-. simpl.
    destruct (back_chain_path alg g start st goal l I Hc)
      as (Hcont & Hhd & x & Hx & Hid & Hobj).
    split; [done|]. split.
    + exists x. split; [done|]. by apply node_eqb_true.
    + intros i a b Ha Hb. destruct (Hcont i a b Ha Hb) as (n & w & Hn & Hnb).
      exists n, w. split; [done|]. by apply node_eqb_true.
Qed.

Lemma reconstructed_path_is_contiguous_witness :
  ∃ r rt, dijkstra known_shortest_path node_a node_f 0 = Returned r ∧
    route r = Some rt ∧
    head (path rt) = Some node_a ∧
    (∃ x, last (path rt) = Some x ∧ node_eqb x node_f = true) ∧
    ∀ i a b, path rt !! i = Some a → path rt !! S i = Some b →
      ∃ n w, (n, w) ∈ neighbors known_shortest_path a ∧ node_eqb n b = true.
Proof.
  destruct known_shortest_path_dijkstra as (rt & Hr & _).
  exists (succeeded rt), rt. split; [done|]. split; [done|].
  apply (reconstructed_path_is_contiguous known_shortest_path node_a node_f
           None 0 (succeeded rt) rt); [by left|done|done].
Defined.

(** ** The inspection log (claim C8) *)

(** C8.  A relaxation appends the edge to [explored_edges] whatever it goes
    on to do, a finalized neighbour included, so that expanding a popped node
    appends its whole neighbour list in adjacency order; when the loop of a
    search is left, and in the route of every result that carries one,
    [explored_edges] is the concatenation, over the finalized nodes other
    than the goal and in the order they were popped, of their whole neighbour
    lists. *)
Theorem explored_edges_are_exhaustive :
  (∀ alg goal current popped st n w st',
     relax alg goal current popped st (n, w) = Returned st' →
     st_explored_edges st' = st_explored_edges st ++ [(current, n)]) ∧
  (∀ alg g goal current popped st st',
     expand alg goal current popped (neighbors g current) st = Returned st' →
     st_explored_edges st' = st_explored_edges st ++ edges_from g current) ∧
  (∀ alg g start goal,
     ∃ st, search_loop alg g goal (search_fuel g) (init_state alg start goal)
             = Returned st ∧
           st_explored_edges st =
             edges_of g (List.filter (λ u, negb (node_eqb u goal))
                           (st_explored_nodes st))) ∧
  (∀ g start goal h elapsed r rt,
     dijkstra g start goal elapsed = Returned r ∨
     astar g start goal h elapsed = Returned r →
     route r = Some rt →
     explored_edges rt =
       edges_of g (List.filter (λ u, negb (node_eqb u goal)) (explored_nodes rt))).
Proof.
  split_and!.
  - intros alg goal current popped st n w st' Hr.
    by destruct (relax_frame _ _ _ _ _ _ _ _ Hr) as (_ & _ & ?).
  - intros alg g goal current popped st st' Hx. by apply expand_edges in Hx.
  - intros alg g start goal.
    destruct (search_loop_returns alg g start goal) as (st & Hst & _ & Hed & _).
    by exists st.
  - intros g start goal h elapsed r rt Hr Hrt.
    destruct (search_result g start goal h elapsed r Hr) as [[msg ->]|Hok]; [done|].
    destruct (search_success g start goal h elapsed r Hr Hok)
      as [[Eq (name & Ht)]|[Hne (alg & name & Hrun)]].
    + rewrite trivial_route_returns in Ht. injection Ht as <-.
      simpl in Hrt. injection Hrt as <-. simpl. by rewrite Eq.
    + destruct (run_success alg name g start goal elapsed r Hne Hrun Hok)
        as (st & d & l & _ & _ & [Hed _] & _ & _ & _ & ->).
      simpl in Hrt. by injection Hrt as <-.
Qed.

Lemma explored_edges_are_exhaustive_witness :
  ∃ r rt, dijkstra known_shortest_path node_a node_f 0 = Returned r ∧
    route r = Some rt ∧
    explored_edges rt =
      edges_of known_shortest_path
        (List.filter (λ u, negb (node_eqb u node_f)) (explored_nodes rt)).
Proof.
  destruct known_shortest_path_dijkstra as (rt & Hr & _).
  exists (succeeded rt), rt. split; [done|]. split; [done|].
  destruct explored_edges_are_exhaustive as (_ & _ & _ & H).
  apply (H known_shortest_path node_a node_f None 0%N (succeeded rt) rt);
    [by left|done].
Defined.

(** ** Breadth-first reachability (claim C3) *)

Section Connectivity.
Context (g : Graph) (start goal : Node).

(** Every node reached so far is still queued, or is not the goal and has
    all its neighbours reached. *)
Definition bfs_inv (visited : gset string) (queue : list Node) : Prop :=
  id start ∈ visited ∧
  ∀ v, v ∈ visited →
    (∃ q, q ∈ queue ∧ id q = v) ∨
    (v ≠ id goal ∧
     ∀ a n w, id a = v → (n, w) ∈ neighbors g a → id n ∈ visited).

Lemma bfs_visit_spec (nbrs : list (Node * Q)) :
  ∀ (visited : gset string) (queue : list Node),
    visited ⊆ fst (bfs_visit nbrs visited queue) ∧
    (∀ n w, (n, w) ∈ nbrs → id n ∈ fst (bfs_visit nbrs visited queue)) ∧
    (∀ q, q ∈ queue → q ∈ snd (bfs_visit nbrs visited queue)) ∧
    (∀ v, v ∈ fst (bfs_visit nbrs visited queue) →
          v ∈ visited ∨ ∃ q, q ∈ snd (bfs_visit nbrs visited queue) ∧ id q = v).
Proof.
  induction nbrs as [|[n w] rest IH]; intros visited queue; simpl.
  - split_and!; [done| |done|by left]. intros n w Hn. by apply elem_of_nil in Hn.
  - case_bool_decide as Hv.
    + destruct (IH visited queue) as (H1 & H2 & H3 & H4).
      split_and!; [done| |done|done].
      intros n' w' [[= -> ->]|Hn]%elem_of_cons; [by apply H1|by eapply H2].
    + destruct (IH ({[id n]} ∪ visited) (queue ++ [n])) as (H1 & H2 & H3 & H4).
      split_and!.
      * intros v Hv'. apply H1, elem_of_union. by right.
      * intros n' w' [[= -> ->]|Hn]%elem_of_cons; [|by eapply H2].
        apply H1, elem_of_union. left. by apply elem_of_singleton.
      * intros q Hq. apply H3. apply elem_of_app. by left.
      * intros v Hv'. destruct (H4 v Hv') as [[->%elem_of_singleton|?]%elem_of_union|?];
          [|by left|by right].
        right. exists n. split; [|done]. apply H3. apply elem_of_app. right. left.
Qed.

Lemma bfs_loop_false (fuel : nat) :
  ∀ (visited : gset string) (queue : list Node),
    bfs_inv visited queue →
    bfs_loop g goal fuel visited queue = Returned false →
    ∀ c, ¬ walk g (id start) (id goal) c.
Proof.
  induction fuel as [|fuel IH]; intros visited queue [Hs Hinv]; simpl; [done|].
  destruct queue as [|current queue'].
  - intros _ c Hw.
    assert (id goal ∉ visited) as Hg.
    { intros Hg. destruct (Hinv _ Hg) as [(q & Hq & _)|[Hne _]]; [|done].
      by apply elem_of_nil in Hq. }
    destruct (walk_crossing g _ _ _ _ Hw Hs Hg)
      as (x & y & w & c1 & c2 & _ & Hx & Hxy & Hy & _).
    destruct (Hinv _ Hx) as [(q & Hq & _)|[_ Hcl]]; [by apply elem_of_nil in Hq|].
    apply Hy. by eapply Hcl.
  - destruct (node_eqb current goal) eqn:Eg; [done|]. apply node_eqb_false in Eg.
    destruct (bfs_visit_spec (neighbors g current) visited queue')
      as (H1 & H2 & H3 & H4).
    apply IH. split; [by apply H1|].
    intros v Hv. destruct (H4 v Hv) as [Hold|?]; [|by left].
    destruct (Hinv v Hold) as [(q & [->|Hq]%elem_of_cons & Hid)|[Hne Hcl]].
    + right. split; [by rewrite <- Hid|]. intros a n w Ha Hn.
      rewrite (neighbors_ext g a current) in Hn by congruence. by eapply H2.
    + left. exists q. split; [by apply H3|done].
    + right. split; [done|]. intros a n w Ha Hn. apply H1. by eapply Hcl.
Qed.

(** A negative answer of [is_connected] means that no path exists. *)
Lemma is_connected_false :
  is_connected g start goal = Returned false →
  id start ≠ id goal ∧ ∀ c, ¬ walk g (id start) (id goal) c.
Proof.
  unfold is_connected. destruct (node_eqb start goal) eqn:E; [done|].
  intros H. split; [by apply node_eqb_false|].
  eapply bfs_loop_false; [|done]. split; [by apply elem_of_singleton|].
  intros v ->%elem_of_singleton. left. exists start. split; [left|done].
Qed.

(** A positive answer means that a path exists. *)
Lemma bfs_loop_true (fuel : nat) :
  ∀ (visited : gset string) (queue : list Node),
    (∀ q, q ∈ queue → ∃ c, walk g (id start) (id q) c) →
    bfs_loop g goal fuel visited queue = Returned true →
    ∃ c, walk g (id start) (id goal) c.
Proof.
  induction fuel as [|fuel IH]; intros visited queue Hq; simpl; [done|].
  destruct queue as [|current queue']; [done|].
  destruct (node_eqb current goal) eqn:Eg.
  - intros _. apply node_eqb_true in Eg. rewrite <- Eg. apply Hq. left.
  - apply IH. clear IH.
    assert (∀ nbrs V Q,
      (∀ n w, (n, w) ∈ nbrs → (n, w) ∈ neighbors g current) →
      (∀ q, q ∈ Q → ∃ c, walk g (id start) (id q) c) →
      ∀ q, q ∈ snd (bfs_visit nbrs V Q) → ∃ c, walk g (id start) (id q) c) as Hvisit.
    { induction nbrs as [|[n w] rest IHn]; intros V Q Hsub HQ; simpl; [done|].
      assert (∀ n' w', (n', w') ∈ rest → (n', w') ∈ neighbors g current) as Hrest.
      { intros n' w' Hn. apply Hsub. by right. }
      case_bool_decide; [by apply IHn|]. apply IHn; [done|].
      intros q [?| ->%list_elem_of_singleton]%elem_of_app; [by apply HQ|].
      destruct (Hq current) as [c Hc]; [left|].
      destruct (walk_snoc g _ current n w c Hc) as (c' & Hc' & _); [apply Hsub; left|].
      by exists c'. }
    apply Hvisit; [done|]. intros q Hq'. apply Hq. by right.
Qed.

(** The queue is exhausted within the fuel: a node is queued once, and only
    the start node and targets of adjacency entries are queued. *)
Definition unseen (visited : gset string) (l : list Node) : nat :=
  length (List.filter (λ t, negb (bool_decide (id t ∈ visited))) l).

Lemma unseen_le_length (visited : gset string) (l : list Node) :
  (unseen visited l ≤ length l)%nat.
Proof.
  unfold unseen. induction l as [|t l IH]; simpl; [done|].
  destruct (negb _); simpl; lia.
Qed.

Lemma unseen_mono (visited : gset string) (x : string) (l : list Node) :
  (unseen ({[x]} ∪ visited) l ≤ unseen visited l)%nat.
Proof.
  unfold unseen. induction l as [|t l IH]; simpl; [done|].
  repeat case_bool_decide; simpl; try lia.
  exfalso. match goal with H : ¬ _ |- _ => apply H end.
  apply elem_of_union. by right.
Qed.

Lemma unseen_visit (visited : gset string) (n : Node) (l : list Node) :
  n ∈ l → id n ∉ visited →
  (S (unseen ({[id n]} ∪ visited) l) ≤ unseen visited l)%nat.
Proof.
  unfold unseen. intros Hn Hv. induction l as [|t l IH]; [by apply elem_of_nil in Hn|].
  apply elem_of_cons in Hn as [<-|Hn]; simpl.
  - rewrite (bool_decide_eq_true_2 (id n ∈ {[id n]} ∪ visited))
      by (apply elem_of_union; left; by apply elem_of_singleton).
    rewrite (bool_decide_eq_false_2 (id n ∈ visited)) by done. simpl.
    pose proof (unseen_mono visited (id n) l) as M. unfold unseen in M. lia.
  - specialize (IH Hn).
    pose proof (unseen_mono visited (id n) l) as M. unfold unseen in M.
    repeat case_bool_decide; simpl; try lia.
    exfalso. match goal with H : ¬ _ |- _ => apply H end.
    apply elem_of_union. by right.
Qed.

Lemma bfs_visit_measure (nbrs : list (Node * Q)) :
  ∀ (visited : gset string) (queue : list Node),
    (∀ n w, (n, w) ∈ nbrs → n ∈ targets g) →
    (length (snd (bfs_visit nbrs visited queue))
     + unseen (fst (bfs_visit nbrs visited queue)) (targets g)
     ≤ length queue + unseen visited (targets g))%nat.
Proof.
  induction nbrs as [|[n w] rest IH]; intros visited queue Hsub; simpl; [done|].
  assert (∀ n' w', (n', w') ∈ rest → n' ∈ targets g) as Hrest.
  { intros n' w' Hn. eapply Hsub. by right. }
  case_bool_decide as Hv; [by apply IH|].
  specialize (IH ({[id n]} ∪ visited) (queue ++ [n]) Hrest).
  rewrite length_app in IH; simpl in IH.
  pose proof (unseen_visit visited n (targets g)) as M.
  specialize (M ltac:(eapply Hsub; left) Hv). lia.
Qed.

Lemma bfs_loop_total (fuel : nat) :
  ∀ (visited : gset string) (queue : list Node),
    (length queue + unseen visited (targets g) < fuel)%nat →
    ∃ b, bfs_loop g goal fuel visited queue = Returned b.
Proof.
  induction fuel as [|fuel IH]; intros visited queue Hm; simpl; [lia|].
  destruct queue as [|current queue']; [eauto|].
  destruct (node_eqb current goal); [eauto|].
  apply IH.
  pose proof (bfs_visit_measure (neighbors g current) visited queue') as M.
  specialize (M ltac:(intros n w Hn; by eapply neighbors_targets)).
  simpl in Hm. lia.
Qed.

Lemma length_targets : length (targets g) = edge_count g.
Proof.
  unfold targets, edge_count. induction (_adjacency g) as [|[k v] rest IH]; simpl;
    [done|].
  by rewrite length_app, length_map, IH.
Qed.

(** [is_connected] answers on every graph. *)
Lemma is_connected_total : ∃ b, is_connected g start goal = Returned b.
Proof.
  unfold is_connected. destruct (node_eqb start goal); [eauto|].
  apply bfs_loop_total. unfold search_fuel. simpl.
  pose proof (unseen_mono ∅ (id start) (targets g)) as M.
  assert (unseen ∅ (targets g) ≤ length (targets g))%nat as M'.
  { apply unseen_le_length. }
  rewrite length_targets in M'.
  replace ({[id start]} : gset string) with ({[id start]} ∪ (∅ : gset string))
    by (by rewrite (right_id_L ∅ (∪))).
  lia.
Qed.
End Connectivity.

(** *** Substrings *)

Fixpoint starts_with (sub msg : string) : bool :=
  match sub, msg with
  | EmptyString, _ => true
  | String a sub', String b msg' => Ascii.eqb a b && starts_with sub' msg'
  | String _ _, EmptyString => false
  end.

Fixpoint mentionsb (msg sub : string) : bool :=
  starts_with sub msg ||
  match msg with
  | EmptyString => false
  | String _ msg' => mentionsb msg' sub
  end.

Lemma starts_with_spec (sub msg : string) :
  starts_with sub msg = true ↔ ∃ s, msg = sub +:+ s.
Proof.
  revert msg. induction sub as [|a sub IH]; intros msg; simpl.
  - split; [intros _; by exists msg|done].
  - destruct msg as [|b msg].
    + split; [done|]. by intros [s ?].
    + rewrite andb_true_iff, Ascii.eqb_eq, IH. split.
      * intros [-> [s ->]]. by exists s.
      * intros [s [= -> ->]]. split; [done|]. by exists s.
Qed.

Lemma mentionsb_spec (msg sub : string) :
  mentionsb msg sub = true ↔ mentions msg sub.
Proof.
  unfold mentions. split.
  - induction msg as [|b msg IH]; simpl.
    + rewrite orb_false_r. intros [s ->]%starts_with_spec. by exists ""%string, s.
    + intros [[s Hs]%starts_with_spec|H]%orb_true_iff.
      * exists ""%string, s. done.
      * destruct (IH H) as (p & s & ->). by exists (String b p), s.
  - intros (p & s & ->). induction p as [|b p IH]; simpl.
    + assert (starts_with sub (sub +:+ s) = true) as Hs
        by (apply starts_with_spec; by exists s).
      destruct (sub +:+ s); simpl in *; by rewrite Hs.
    + rewrite IH. apply orb_true_r.
Qed.

Lemma append_cons (x : Ascii.ascii) (a b : string) :
  String x a +:+ b = String x (a +:+ b).
Proof. reflexivity. Qed.

Lemma append_assoc (a b c : string) : (a +:+ b) +:+ c = a +:+ (b +:+ c).
Proof.
  induction a as [|x a IH]; [done|]. by rewrite !append_cons, IH.
Qed.

Lemma append_empty_r (a : string) : a +:+ "" = a.
Proof.
  induction a as [|x a IH]; [done|]. by rewrite append_cons, IH.
Qed.

Lemma no_path_message_mentions (start goal : Node) :
  mentions (no_path_message start goal) (id start) ∧
  mentions (no_path_message start goal) (id goal).
Proof.
  unfold no_path_message, mentions. split.
  - by exists "No path found from "%string, (" to " +:+ id goal).
  - exists ("No path found from " +:+ id start +:+ " to "), ""%string.
    by rewrite append_empty_r, !append_assoc.
Qed.

(** C3, for nodes of the graph.  If [is_connected] answers false for two
    nodes that are both present in the graph, then both searches ([astar]
    with a callable heuristic) return a failed result, and its message names
    both node identifiers. *)
Theorem disconnected_search_fails (g : Graph) (a b : Node)
    (h : Node → Node → Q) (elapsed : N) :
  present g a → present g b →
  is_connected g a b = Returned false →
  dijkstra g a b elapsed
    = Returned (failed ("No path found from " +:+ id a +:+ " to " +:+ id b)) ∧
  astar g a b (Some h) elapsed
    = Returned (failed ("No path found from " +:+ id a +:+ " to " +:+ id b)) ∧
  mentions ("No path found from " +:+ id a +:+ " to " +:+ id b) (id a) ∧
  mentions ("No path found from " +:+ id a +:+ " to " +:+ id b) (id b).
Proof.
  intros Ha Hb [Hne Hno]%is_connected_false.
  rewrite dijkstra_run, astar_run by done.
  rewrite !run_unreachable by done.
  split; [done|]. split; [done|]. apply no_path_message_mentions.
Qed.

Lemma disconnected_search_fails_witness :
  dijkstra two_isolated (at_origin "A") (at_origin "B") 0
    = Returned (failed "No path found from A to B") ∧
  astar two_isolated (at_origin "A") (at_origin "B") (Some zero_heuristic) 0
    = Returned (failed "No path found from A to B") ∧
  mentions "No path found from A to B" "A" ∧
  mentions "No path found from A to B" "B".
Proof.
  apply (disconnected_search_fails two_isolated (at_origin "A") (at_origin "B")
           zero_heuristic 0); reflexivity.
Defined.

(** C3, as stated for every pair of nodes, fails: when the start node is not
    in the graph [is_connected] answers false and the searches fail, but the
    message names the start node only. *)
Lemma disconnected_absent_start :
  is_connected Graph_init (at_origin "A") (at_origin "B") = Returned false ∧
  dijkstra Graph_init (at_origin "A") (at_origin "B") 0
    = Returned (failed "Start node A not found in graph") ∧
  astar Graph_init (at_origin "A") (at_origin "B") (Some zero_heuristic) 0
    = Returned (failed "Start node A not found in graph") ∧
  ¬ mentions "Start node A not found in graph" "B".
Proof.
  split_and!; [reflexivity..|].
  intros H%mentionsb_spec. vm_compute in H. discriminate.
Qed.

(** ** Optimality of the two searches (claim C1) *)

(** A search over non-negative weights, under a heuristic that is consistent
    and gives equal nodes equal estimates, either succeeds with the least
    cost of a path or, when there is no path, fails. *)
Lemma run_optimal (alg : algo) (name : string) (g : Graph) (start goal : Node)
    (elapsed : N) :
  (∀ a n w, (n, w) ∈ neighbors g a → (0 <= w)%Q) →
  (∀ a n w, a ∈ start :: targets g → (n, w) ∈ neighbors g a →
            (heur alg goal a <= w + heur alg goal n)%Q) →
  (∀ a b, a ∈ start :: targets g → b ∈ start :: targets g → id a = id b →
          (heur alg goal a == heur alg goal b)%Q) →
  id start ≠ id goal →
  (∃ rt, run alg name g start goal elapsed = Returned (succeeded rt) ∧
         min_cost g start goal (total_distance rt)) ∨
  ((∀ c, ¬ walk g (id start) (id goal) c) ∧
   run alg name g start goal elapsed
     = Returned (failed (no_path_message start goal))).
Proof.
  intros Hw Hcons Hresp Hne. unfold run.
  destruct (search_loop_optimal alg g start goal Hw Hcons Hresp)
    as (st & -> & I & Hex & I2 & Hno).
  cbn [mbind outcome_bind].
  destruct (finish_cases alg g start goal name elapsed st I Hex)
    as [[Hcf ->]|(d & l & Hd & _ & Hv & _ & ->)]; [done| |].
  - right. split; [|done]. apply Hno. intros Hv.
    apply (inv_visited alg g start st I) in Hv as (n & Hn & Hid).
    apply list_elem_of_lookup in Hn as [i Hi].
    destruct (inv_order alg g start st I i n Hi) as (p & _ & _ & Hp & _);
      [by rewrite Hid|].
    rewrite Hid in Hp. congruence.
  - left. destruct (inv_cost_walk alg g start st I _ _ Hd) as (c & Hc & Hcd).
    pose proof (walk_nonneg g _ _ _ Hw Hc) as Hpos.
    assert (Qltb d 0 = false) as -> by (apply Qltb_false; lra).
    eexists. split; [reflexivity|]. simpl. split; [by exists c|].
    intros c' Hc'. by apply (opt_settled alg g start goal st I2 (id goal)).
Qed.

(** C1, for heuristics that respect node equality and for numbers that are
    added without rounding.  On a graph with positive edge weights, for a
    start and a goal that are present in it, and for a heuristic that is
    admissible and consistent and gives nodes with one identifier one
    estimate, when the weights and the estimates are multiples of [2^-m]
    whose sums stay within [2^53] such steps: either [dijkstra] and [astar]
    both succeed, the total distance of [dijkstra] is the least cost of a
    path from start to goal and the total distance of [astar] equals it; or
    there is no path and both fail. *)
Theorem searches_return_least_cost (m : nat) (g : Graph) (start goal : Node)
    (h : Node → Node → Q) (elapsed : N) :
  positive_weights g → present g start → present g goal →
  admissible g start goal h → consistent g start goal h →
  respects_identity g start goal h →
  exact_weights m g → exact_estimates m g start goal h →
  (∃ rt1 rt2,
     dijkstra g start goal elapsed = Returned (succeeded rt1) ∧
     astar g start goal (Some h) elapsed = Returned (succeeded rt2) ∧
     min_cost g start goal (total_distance rt1) ∧
     (total_distance rt2 == total_distance rt1)%Q) ∨
  ((∀ c, ¬ walk g (id start) (id goal) c) ∧
   dijkstra g start goal elapsed
     = Returned (failed (no_path_message start goal)) ∧
   astar g start goal (Some h) elapsed
     = Returned (failed (no_path_message start goal))).
Proof.
  intros Hpos Hs Hg _ Hcons Hresp _ _.
  assert (∀ a n w, (n, w) ∈ neighbors g a → (0 <= w)%Q) as Hw.
  { intros a n w Hn. apply Qlt_le_weak. by eapply Hpos. }
  destruct (node_eqb start goal) eqn:Eq.
  { left. destruct (search_of_equal_nodes g start goal h elapsed Hs Eq)
      as (rt1 & rt2 & H1 & _ & Hd1 & H2 & _ & Hd2).
    exists rt1, rt2. split; [done|]. split; [done|]. rewrite Hd1, Hd2.
    apply node_eqb_true in Eq. split; [|done]. split.
    - exists 0%Q. rewrite Eq. split; [apply walk_nil|done].
    - intros c Hc. by eapply walk_nonneg. }
  apply node_eqb_false in Eq.
  rewrite dijkstra_run, astar_run by done.
  destruct (run_optimal Dijkstra "Dijkstra" g start goal elapsed Hw)
    as [(rt1 & H1 & Hm1)|[Hno1 H1]]; try done.
  { intros a n w _ Hn. simpl. specialize (Hw a n w Hn). lra. }
  - destruct (run_optimal (AStar h) "A*" g start goal elapsed Hw Hcons Hresp Eq)
      as [(rt2 & H2 & Hm2)|[Hno2 H2]].
    + left. exists rt1, rt2. split; [done|]. split; [done|]. split; [done|].
      destruct Hm1 as [(c1 & Hc1 & E1) Hmin1], Hm2 as [(c2 & Hc2 & E2) Hmin2].
      specialize (Hmin1 c2 Hc2). specialize (Hmin2 c1 Hc1). lra.
    + destruct Hm1 as [(c1 & Hc1 & _) _]. by apply Hno2 in Hc1.
  - destruct (run_optimal (AStar h) "A*" g start goal elapsed Hw Hcons Hresp Eq)
      as [(rt2 & H2 & Hm2)|[Hno2 H2]].
    + destruct Hm2 as [(c2 & Hc2 & _) _]. by apply Hno1 in Hc2.
    + right. done.
Qed.

(** *** Checking the hypotheses on a given graph *)

Definition positive_weightsb (g : Graph) : bool :=
  forallb (λ kv, forallb (λ nw, Qltb 0 (snd nw)) (snd kv)) (_adjacency g).

Definition consistentb (g : Graph) (start goal : Node) (h : Node → Node → Q) : bool :=
  forallb (λ a, forallb (λ nw, Qle_bool (h a goal) (snd nw + h (fst nw) goal))
                  (neighbors g a))
    (node_objects g start).

Definition zero_at_goalb (g : Graph) (start goal : Node) (h : Node → Node → Q) : bool :=
  forallb (λ a, negb (node_eqb a goal) || Qle_bool (h a goal) 0)
    (node_objects g start).

Lemma positive_weightsb_sound (g : Graph) :
  positive_weightsb g = true → positive_weights g.
Proof.
  unfold positive_weightsb, positive_weights, neighbors. intros H a n w Hn.
  destruct (adj_get (_adjacency g) a) as [v|] eqn:E; simpl in Hn;
    [|by apply elem_of_nil in Hn].
  apply adj_get_Some in E as (k & Hk & _).
  rewrite forallb_forall in H. specialize (H (k, v)). simpl in H.
  rewrite forallb_forall in H. apply list_elem_of_In in Hk, Hn.
  specialize (H Hk (n, w) Hn). by apply Qltb_true in H.
Qed.

Lemma consistentb_sound (g : Graph) (start goal : Node) (h : Node → Node → Q) :
  consistentb g start goal h = true → consistent g start goal h.
Proof.
  unfold consistentb, consistent. intros H a n w Ha Hn.
  rewrite forallb_forall in H. apply list_elem_of_In in Ha, Hn.
  specialize (H a Ha). rewrite forallb_forall in H.
  specialize (H (n, w) Hn). by apply Qle_bool_iff in H.
Qed.

(** A consistent heuristic that estimates the goal at no more than 0 is
    admissible. *)
Lemma consistent_admissible (g : Graph) (start goal : Node) (h : Node → Node → Q) :
  consistent g start goal h → zero_at_goalb g start goal h = true →
  admissible g start goal h.
Proof.
  unfold consistent, zero_at_goalb, admissible. intros Hc Hz a c Ha Hw.
  remember (id a) as u eqn:Eu. remember (id goal) as v eqn:Ev.
  revert a Ha Eu. induction Hw as [u|a0 n w v c Hin Hw IH]; intros a Ha Eu.
  - rewrite forallb_forall in Hz. apply list_elem_of_In in Ha.
    specialize (Hz a Ha). apply orb_true_iff in Hz as [Hz|Hz].
    + apply negb_true_iff, node_eqb_false in Hz. congruence.
    + by apply Qle_bool_iff in Hz.
  - rewrite (neighbors_ext g a0 a) in Hin by done.
    pose proof (Hc a n w Ha Hin) as H1.
    assert (n ∈ node_objects g start) as Hn by (right; by eapply neighbors_targets).
    specialize (IH Ev n Hn eq_refl). lra.
Qed.

Definition respects_identityb (g : Graph) (start goal : Node)
    (h : Node → Node → Q) : bool :=
  forallb (λ a, forallb (λ b, negb (node_eqb a b) || Qeq_bool (h a goal) (h b goal))
                  (node_objects g start))
    (node_objects g start).

Lemma respects_identityb_sound (g : Graph) (start goal : Node)
    (h : Node → Node → Q) :
  respects_identityb g start goal h = true → respects_identity g start goal h.
Proof.
  unfold respects_identityb, respects_identity. intros H a b Ha Hb E.
  rewrite forallb_forall in H. apply list_elem_of_In in Ha, Hb.
  specialize (H a Ha). rewrite forallb_forall in H. specialize (H b Hb).
  apply orb_true_iff in H as [H|H].
  - apply negb_true_iff, node_eqb_false in H. done.
  - by apply Qeq_bool_iff in H.
Qed.

Definition on_gridb (m : nat) (q : Q) : bool :=
  ((Qnum q * 2 ^ Z.of_nat m) mod Zpos (Qden q) =? 0)%Z.

Definition in_rangeb (m : nat) (q : Q) : bool :=
  Qle_bool (q * inject_Z (2 ^ Z.of_nat m)) (inject_Z (2 ^ 53)).

Definition exact_weightsb (m : nat) (g : Graph) : bool :=
  (m <=? 1000)%nat &&
  forallb (λ kv, forallb (λ nw, on_gridb m (snd nw)) (snd kv)) (_adjacency g) &&
  in_rangeb m (weight_sum g).

Definition exact_estimatesb (m : nat) (g : Graph) (start goal : Node)
    (h : Node → Node → Q) : bool :=
  forallb (λ a, on_gridb m (h a goal) && Qle_bool 0 (h a goal) &&
                in_rangeb m (weight_sum g + h a goal))
    (node_objects g start).

Lemma on_gridb_sound (m : nat) (q : Q) : on_gridb m q = true → on_grid m q.
Proof.
  unfold on_gridb, on_grid. intros H%Z.eqb_eq.
  apply Z.mod_divide in H; [|done]. destruct H as [z Hz].
  exists z. destruct q as [n d]. unfold Qeq, Qmult, inject_Z; simpl in *. lia.
Qed.

Lemma in_rangeb_sound (m : nat) (q : Q) : in_rangeb m q = true → in_range m q.
Proof. unfold in_rangeb, in_range. apply Qle_bool_iff. Qed.

Lemma exact_weightsb_sound (m : nat) (g : Graph) :
  exact_weightsb m g = true → exact_weights m g.
Proof.
  unfold exact_weightsb, exact_weights.
  intros [[Hm Hgrid]%andb_true_iff Hr]%andb_true_iff.
  split; [by apply Nat.leb_le|]. split; [|by apply in_rangeb_sound].
  intros a n w Hn. unfold neighbors in Hn.
  destruct (adj_get (_adjacency g) a) as [v|] eqn:E; simpl in Hn;
    [|by apply elem_of_nil in Hn].
  apply adj_get_Some in E as (k & Hk & _).
  rewrite forallb_forall in Hgrid. specialize (Hgrid (k, v)). simpl in Hgrid.
  rewrite forallb_forall in Hgrid. apply list_elem_of_In in Hk, Hn.
  by apply on_gridb_sound, (Hgrid Hk (n, w)).
Qed.

Lemma exact_estimatesb_sound (m : nat) (g : Graph) (start goal : Node)
    (h : Node → Node → Q) :
  exact_estimatesb m g start goal h = true → exact_estimates m g start goal h.
Proof.
  unfold exact_estimatesb, exact_estimates. rewrite forallb_forall.
  intros H a Ha%list_elem_of_In.
  apply H in Ha as [[H1 H2]%andb_true_iff H3]%andb_true_iff.
  split; [by apply on_gridb_sound|]. split; [by apply Qle_bool_iff|].
  by apply in_rangeb_sound.
Qed.

Example grid_corner_to_corner :
  ∃ rt1 rt2,
    dijkstra simple_grid_graph (grid_node 0 0) (grid_node 2 2) 0 = Returned (succeeded rt1) ∧
    astar simple_grid_graph (grid_node 0 0) (grid_node 2 2) (Some grid_steps) 0
      = Returned (succeeded rt2) ∧
    total_distance rt1 = 4%Q ∧ total_distance rt2 = 4%Q ∧
    length (path rt1) = 5%nat ∧ length (path rt2) = 5%nat ∧
    (nodes_explored rt2 <= nodes_explored rt1)%Z.
Proof.
  eexists _, _. split; [vm_compute; reflexivity|].
  split; [vm_compute; reflexivity|]. simpl. split_and!; done.
Qed.

Lemma searches_return_least_cost_witness :
  ∃ rt1 rt2,
    dijkstra simple_grid_graph (grid_node 0 0) (grid_node 2 2) 0 = Returned (succeeded rt1) ∧
    astar simple_grid_graph (grid_node 0 0) (grid_node 2 2) (Some grid_steps) 0
      = Returned (succeeded rt2) ∧
    min_cost simple_grid_graph (grid_node 0 0) (grid_node 2 2) (total_distance rt1) ∧
    (total_distance rt2 == total_distance rt1)%Q.
Proof.
  assert (consistent simple_grid_graph (grid_node 0 0) (grid_node 2 2) grid_steps) as Hc
    by (by apply consistentb_sound).
  destruct (searches_return_least_cost 0 simple_grid_graph (grid_node 0 0)
              (grid_node 2 2) grid_steps 0) as [H|(_ & H & _)].
  - by apply positive_weightsb_sound.
  - reflexivity.
  - reflexivity.
  - by apply consistent_admissible.
  - done.
  - by apply respects_identityb_sound.
  - by apply exact_weightsb_sound.
  - by apply exact_estimatesb_sound.
  - done.
  - vm_compute in H. discriminate.
Defined.

(** *** Nodes that share an identifier *)

(** C1, as stated, fails: with an admissible and consistent heuristic that
    tells apart two node objects of one identifier, [astar] returns a longer
    route than [dijkstra]. *)
Lemma shared_identifier_misleads_astar :
  positive_weights shared_identifier ∧
  present shared_identifier (mkNode "S" 0 0) ∧
  present shared_identifier (mkNode "G" 0 0) ∧
  admissible shared_identifier (mkNode "S" 0 0) (mkNode "G" 0 0) latitude_gap ∧
  consistent shared_identifier (mkNode "S" 0 0) (mkNode "G" 0 0) latitude_gap ∧
  ∃ rt1 rt2,
    dijkstra shared_identifier (mkNode "S" 0 0) (mkNode "G" 0 0) 0
      = Returned (succeeded rt1) ∧
    astar shared_identifier (mkNode "S" 0 0) (mkNode "G" 0 0) (Some latitude_gap) 0
      = Returned (succeeded rt2) ∧
    total_distance rt1 = (23 # 2)%Q ∧ total_distance rt2 = 12%Q ∧
    ¬ (total_distance rt2 == total_distance rt1)%Q.
Proof.
  assert (consistent shared_identifier (mkNode "S" 0 0) (mkNode "G" 0 0) latitude_gap)
    as Hc by (by apply consistentb_sound).
  split_and!.
  - by apply positive_weightsb_sound.
  - reflexivity.
  - reflexivity.
  - by apply consistent_admissible.
  - done.
  - eexists _, _. split; [vm_compute; reflexivity|].
    split; [vm_compute; reflexivity|]. simpl. split_and!; [done|done|].
    intros H. vm_compute in H. discriminate.
Qed.

(** ** The distance functions (claim C5) *)

Section Heuristics.
Local Open Scope R_scope.

Lemma PI_above_3141 : 3141 / 1000 < PI.
Proof.
  destruct (PI_2_3_7_ineq 1) as [H _].
  unfold sum_f_R0, tg_alt, PI_2_3_7_tg, Ratan_seq in H.
  simpl in H. lra.
Qed.

Lemma asin_nonneg (x : R) : 0 <= x → 0 <= asin x.
Proof.
  intros Hx. destruct (Rle_dec x 1) as [H1|H1].
  - destruct (Rle_dec 0 (asin x)) as [?|Hn]; [done|]. exfalso.
    pose proof (asin_bound x) as [Hlo _]. pose proof PI_RGT_0 as Hpi.
    assert (sin (asin x) < 0) as Hs by (apply sin_lt_0_var; lra).
    rewrite sin_asin in Hs by lra. lra.
  - unfold asin. pose proof PI_RGT_0 as Hpi.
    destruct (Rle_dec x (-1)); [lra|]. destruct (Rle_dec 1 x); lra.
Qed.

Lemma asin_sqrt_sin_sqr (x : R) :
  - (PI / 2) <= x <= PI / 2 → asin (sqrt (sin x ^ 2)) = Rabs x.
Proof.
  intros Hx. pose proof PI_RGT_0 as Hpi.
  rewrite <- Rsqr_pow2, sqrt_Rsqr_abs.
  destruct (Rle_dec 0 x) as [Hp|Hn].
  - rewrite (Rabs_pos_eq x) by done.
    rewrite Rabs_pos_eq by (apply sin_ge_0; lra). by apply asin_sin.
  - rewrite (Rabs_left x) by lra.
    assert (0 <= sin (- x)) as Hs by (apply sin_ge_0; lra).
    rewrite sin_neg in Hs. rewrite Rabs_left1 by lra.
    rewrite <- sin_neg. apply asin_sin. lra.
Qed.

(** Every value of [euclidean_distance] is non-negative. *)
Lemma euclidean_distance_nonneg (a b : Node) : 0 <= euclidean_distance a b.
Proof.
  unfold euclidean_distance. destruct (node_eqb a b); [lra|].
  cbv zeta. pose proof (asin_nonneg _ (sqrt_pos
    (sin ((radians (Q2R (latitude b)) - radians (Q2R (latitude a))) / 2) ^ 2 +
     cos (radians (Q2R (latitude a))) * cos (radians (Q2R (latitude b))) *
     sin ((radians (Q2R (longitude b)) - radians (Q2R (longitude a))) / 2) ^ 2))).
  lra.
Qed.

(** Equal nodes are at distance 0, and so are nodes with equal coordinates. *)
Lemma euclidean_distance_equal_nodes (a b : Node) :
  id a = id b → euclidean_distance a b = 0.
Proof.
  intros E. unfold euclidean_distance.
  by rewrite (proj2 (node_eqb_true a b) E).
Qed.

Lemma euclidean_distance_same_place (a b : Node) :
  latitude a = latitude b → longitude a = longitude b →
  euclidean_distance a b = 0.
Proof.
  intros El Eo. unfold euclidean_distance. destruct (node_eqb a b); [done|].
  cbv zeta. rewrite El, Eo.
  replace ((radians (Q2R (latitude b)) - radians (Q2R (latitude b))) / 2)
    with 0 by lra.
  replace ((radians (Q2R (longitude b)) - radians (Q2R (longitude b))) / 2)
    with 0 by lra.
  rewrite sin_0.
  replace (0 ^ 2 + cos (radians (Q2R (latitude b))) *
                   cos (radians (Q2R (latitude b))) * 0 ^ 2) with 0 by ring.
  rewrite sqrt_0, asin_0. ring.
Qed.

(** Along a meridian the great-circle distance is the arc, 6371 km times the
    difference of latitude in radians, and the grid distance is 111 km per
    degree. *)
Lemma along_meridian (a b : Node) :
  node_eqb a b = false → longitude a = longitude b →
  Rabs (Q2R (latitude b) - Q2R (latitude a)) <= 180 →
  euclidean_distance a b
    = 6371 * (PI / 180) * Rabs (Q2R (latitude b) - Q2R (latitude a)) ∧
  manhattan_distance a b = 111 * Rabs (Q2R (latitude b) - Q2R (latitude a)).
Proof.
  intros Hne Elon Hlat. unfold euclidean_distance, manhattan_distance.
  rewrite Hne. cbv zeta. rewrite Elon. pose proof PI_RGT_0 as Hpi.
  set (d := Q2R (latitude b) - Q2R (latitude a)) in *.
  split.
  - replace ((radians (Q2R (longitude b)) - radians (Q2R (longitude b))) / 2)
      with 0 by lra.
    rewrite sin_0.
    replace ((radians (Q2R (latitude b)) - radians (Q2R (latitude a))) / 2)
      with (d * (PI / 360)) by (unfold radians, d; lra).
    replace (sin (d * (PI / 360)) ^ 2 +
             cos (radians (Q2R (latitude a))) * cos (radians (Q2R (latitude b))) *
             0 ^ 2) with (sin (d * (PI / 360)) ^ 2) by ring.
    assert (-180 <= d <= 180) as Hd
      by (unfold Rabs in Hlat; destruct (Rcase_abs d); lra).
    rewrite asin_sqrt_sin_sqr by (split; nra).
    rewrite Rabs_mult, (Rabs_pos_eq (PI / 360)) by lra. lra.
  - replace (Q2R (longitude b) - Q2R (longitude b)) with 0 by lra.
    rewrite Rabs_R0. lra.
Qed.

(** C5, at two nodes one degree of latitude apart on a meridian: the grid
    distance is 111 km, the great-circle distance is 6371 * pi / 180 km,
    about 111.19, and so the grid distance is the smaller of the two. *)
Theorem grid_distance_below_great_circle :
  manhattan_distance (mkNode "a" 0 0) (mkNode "b" 1 0) = 111 ∧
  euclidean_distance (mkNode "a" 0 0) (mkNode "b" 1 0) = 6371 * (PI / 180) ∧
  manhattan_distance (mkNode "a" 0 0) (mkNode "b" 1 0)
    < euclidean_distance (mkNode "a" 0 0) (mkNode "b" 1 0).
Proof.
  destruct (along_meridian (mkNode "a" 0 0) (mkNode "b" 1 0)) as [He Hm];
    [done|done| |].
  - simpl. rewrite RMicromega.Q2R_0, RMicromega.Q2R_1.
    replace (1 - 0) with 1 by lra. rewrite Rabs_R1. lra.
  - simpl in He, Hm. rewrite RMicromega.Q2R_0, RMicromega.Q2R_1 in He, Hm.
    replace (1 - 0) with 1 in He, Hm by lra. rewrite Rabs_R1 in He, Hm.
    rewrite He, Hm. pose proof PI_above_3141. split_and!; lra.
Qed.

(** The argument of [math.sqrt] in [euclidean_distance] lies between 0 and 1,
    whatever the coordinates: [math.sqrt] and [math.asin] are applied inside
    their domains. *)
Lemma haversine_in_range (lat1 lon1 lat2 lon2 : R) :
  0 <= sin ((lat2 - lat1) / 2) ^ 2 + cos lat1 * cos lat2 * sin ((lon2 - lon1) / 2) ^ 2
    <= 1.
Proof.
  pose proof (cos_minus lat2 lat1) as Hm. pose proof (cos_plus lat2 lat1) as Hp.
  pose proof (cos_2a_sin ((lat2 - lat1) / 2)) as Hd.
  replace (2 * ((lat2 - lat1) / 2)) with (lat2 - lat1) in Hd by lra.
  pose proof (COS_bound (lat2 + lat1)) as [Hc1 Hc2].
  pose proof (SIN_bound ((lat2 - lat1) / 2)) as [Hu1 Hu2].
  pose proof (SIN_bound ((lon2 - lon1) / 2)) as [Hs1 Hs2].
  set (u := sin ((lat2 - lat1) / 2)) in *.
  set (s := sin ((lon2 - lon1) / 2)) in *.
  set (p := cos lat1 * cos lat2).
  assert (- (u * u) <= p <= 1 - u * u) as [Hlo Hhi] by (unfold p; lra).
  assert (0 <= s * s <= 1) as [Hs3 Hs4] by nra.
  assert (0 <= u * u <= 1) as [Hu3 Hu4] by nra.
  simpl. split; nra.
Qed.
End Heuristics.

(** ** The nearest node (claim C10) *)

Section ClosestNode.
Local Open Scope R_scope.
Context (location : Location).

(** The node [find_closest_node] wraps the location in. *)
Definition location_node : Node :=
  mkNode "temp" (loc_latitude location) (loc_longitude location).

Definition distance_to (node : Node) : R :=
  euclidean_distance location_node node.

Lemma closer_zero (n node : Node) :
  closer location_node (n, Some 0) node = (n, Some 0).
Proof.
  unfold closer, below; simpl.
  pose proof (euclidean_distance_nonneg location_node node).
  destruct (Rlt_dec _ 0); [lra|done].
Qed.

(** As long as no node at distance 0 has been met, the least distance so
    far is infinite or positive. *)
Definition above_zero (best : Node * option R) : Prop :=
  match snd best with
  | None => True
  | Some m => 0 < m
  end.

Lemma closer_at_zero (best : Node * option R) (n : Node) :
  above_zero best → distance_to n = 0 →
  closer location_node best n = (n, Some 0).
Proof.
  unfold above_zero, closer, below, distance_to. intros Hb Hn. rewrite Hn.
  destruct (snd best) as [m|]; [|done]. destruct (Rlt_dec 0 m); [done|lra].
Qed.

End ClosestNode.

(** *** The scan, for whatever the distance function computes *)

Section Scan.
Local Open Scope R_scope.
Context (distance : Node → Node → outcome R) (loc : Node).

(** The distance function returns [d] for the node [x]. *)
Definition measured (x : Node) (d : R) : Prop := distance loc x = Returned d.

Lemma scan_by_snoc (l : list Node) (x : Node) : ∀ best : Node * option R,
  scan_by distance loc (l ++ [x]) best =
    (b ← scan_by distance loc l best; closer_by distance loc b x).
Proof.
  induction l as [|y l IH]; intros best; simpl.
  - by destruct (closer_by distance loc best x).
  - destruct (closer_by distance loc best y) as [b| |]; simpl; [apply IH|done..].
Qed.

(** What a scan that started at infinity ends with. *)
Definition scanned (first : Node) (l : list Node)
    (o : outcome (Node * option R)) : Prop :=
  match o with
  | Returned (n, Some d) =>
      ∃ l1 l2, l = l1 ++ n :: l2 ∧ measured n d ∧
        (∀ x, x ∈ l1 → ∃ dx, measured x dx ∧ d < dx) ∧
        (∀ x, x ∈ l2 → ∃ dx, measured x dx ∧ d <= dx)
  | Returned (n, None) => l = [] ∧ n = first
  | Raised e =>
      ∃ l1 x l2, l = l1 ++ x :: l2 ∧ (∀ y, y ∈ l1 → ∃ dy, measured y dy) ∧
        distance loc x = Raised e
  | OutOfFuel => ∃ x, x ∈ l ∧ distance loc x = OutOfFuel
  end.

Lemma scan_by_spec (first : Node) (l : list Node) :
  scanned first l (scan_by distance loc l (first, None)).
Proof.
  induction l as [|x l IH] using rev_ind; [done|].
  rewrite scan_by_snoc.
  destruct (scan_by distance loc l (first, None)) as [[n [d|]]|e|];
    cbn [mbind outcome_bind]; unfold scanned in IH.
  - destruct IH as (l1 & l2 & -> & Hn & H1 & H2).
    unfold closer_by. destruct (distance loc x) as [dx|e|] eqn:Ex;
      cbn [mbind outcome_bind]; unfold below; simpl.
    + destruct (Rlt_dec dx d) as [Hlt|Hge]; simpl.
      * exists (l1 ++ n :: l2), []. split; [done|]. split; [done|]. split.
        -- intros y [Hy|[->|Hy]%elem_of_cons]%elem_of_app.
           ++ destruct (H1 y Hy) as (dy & Hdy & Hlt'). exists dy. split; [done|lra].
           ++ by exists d.
           ++ destruct (H2 y Hy) as (dy & Hdy & Hle). exists dy. split; [done|lra].
        -- intros y Hy. by apply elem_of_nil in Hy.
      * exists l1, (l2 ++ [x]). split; [by rewrite <- app_assoc|].
        split; [done|]. split; [done|].
        intros y [Hy| ->%list_elem_of_singleton]%elem_of_app; [by apply H2|].
        exists dx. split; [done|lra].
    + exists (l1 ++ n :: l2), x, []. split; [done|]. split; [|done].
      intros y [Hy|[->|Hy]%elem_of_cons]%elem_of_app.
      * destruct (H1 y Hy) as (dy & Hdy & _). by exists dy.
      * by exists d.
      * destruct (H2 y Hy) as (dy & Hdy & _). by exists dy.
    + exists x. split; [|done]. apply elem_of_app. right. left.
  - destruct IH as [-> ->]. unfold closer_by.
    destruct (distance loc x) as [dx|e|] eqn:Ex; cbn [mbind outcome_bind]; simpl.
    + exists [], []. split; [done|]. split; [done|].
      split; intros y Hy; by apply elem_of_nil in Hy.
    + exists [], x, []. split; [done|]. split; [|done].
      intros y Hy. by apply elem_of_nil in Hy.
    + exists x. split; [left|done].
  - destruct IH as (l1 & y & l2 & -> & H1 & Hy).
    exists l1, y, (l2 ++ [x]). split; [by rewrite <- app_assoc|done].
  - destruct IH as (y & Hy & Ey). exists y. split; [|done].
    apply elem_of_app. by left.
Qed.
End Scan.

(** [find_closest_node] is the scan with the real-valued distance. *)
Lemma find_closest_node_by_euclidean (location : Location) (graph : Graph) :
  find_closest_node_by (λ a b, Returned (euclidean_distance a b)) location graph
    = find_closest_node location graph.
Proof.
  unfold find_closest_node_by, find_closest_node.
  destruct (nodes graph) as [|first rest]; [done|].
  generalize (first :: rest) (first, @None R).
  intros l. induction l as [|x l IH]; intros best; simpl; [done|]. apply IH.
Qed.

(** C10, with the order of the scan taken into account, and for the
    distances as the program computes them.  Let the distance function
    return 0 for equal nodes, as [euclidean_distance] does before it computes
    anything, and return a number that is not negative for every node of the
    graph.  When the graph holds a node whose identifier is "temp",
    [find_closest_node] reports the distance 0 and, as the closest node, the
    first node in insertion order for which the distance function returns 0:
    the "temp" node itself unless the function returns 0 for a node before
    it. *)
Theorem closest_node_with_temp (distance : Node → Node → outcome R)
    (location : Location) (graph : Graph) (t : Node) :
  (∀ a b, id a = id b → distance a b = Returned 0%R) →
  (∀ x, x ∈ nodes graph →
        ∃ d, measured distance (location_node location) x d ∧ (0 <= d)%R) →
  t ∈ nodes graph → id t = "temp"%string →
  ∃ n l1 l2,
    find_closest_node_by distance location graph = Returned (n, Some 0%R) ∧
    nodes graph = l1 ++ n :: l2 ∧
    measured distance (location_node location) n 0%R ∧
    (∀ x, x ∈ l1 →
          ∃ d, measured distance (location_node location) x d ∧ (0 < d)%R) ∧
    (n ≠ t → t ∈ l2).
Proof.
  intros Hzero Hpos Ht Hid.
  assert (measured distance (location_node location) t 0%R) as Hz.
  { apply Hzero. by rewrite Hid. }
  unfold find_closest_node_by. fold (location_node location).
  pose proof (scan_by_spec distance (location_node location)) as Hspec.
  destruct (nodes graph) as [|first rest] eqn:En; [by apply elem_of_nil in Ht|].
  specialize (Hspec first (first :: rest)). rewrite <- En in *.
  destruct (scan_by distance (location_node location) (nodes graph) (first, None))
    as [[n [d|]]|e|]; unfold scanned in Hspec.
  - destruct Hspec as (l1 & l2 & E & Hn & H1 & H2).
    assert (d = 0%R) as ->.
    { destruct (Hpos n) as (d' & Hd' & Hle).
      { rewrite E. apply elem_of_app. right. left. }
      unfold measured in *. rewrite Hn in Hd'. injection Hd' as <-.
      rewrite E in Ht.
      apply elem_of_app in Ht as [Ht|[->|Ht]%elem_of_cons].
      - destruct (H1 t Ht) as (dt & Hdt & Hlt). rewrite Hz in Hdt.
        injection Hdt as <-. lra.
      - rewrite Hz in Hn. by injection Hn.
      - destruct (H2 t Ht) as (dt & Hdt & Hle'). rewrite Hz in Hdt.
        injection Hdt as <-. lra. }
    exists n, l1, l2. split_and!; try done.
    intros Hne. rewrite E in Ht.
    apply elem_of_app in Ht as [Ht|[->|Ht]%elem_of_cons]; [|done..].
    destruct (H1 t Ht) as (dt & Hdt & Hlt). unfold measured in *.
    rewrite Hz in Hdt. injection Hdt as <-. lra.
  - destruct Hspec as [E _]. by rewrite En in E.
  - destruct Hspec as (l1 & x & l2 & E & _ & Hx).
    destruct (Hpos x) as (d & Hd & _).
    { rewrite E. apply elem_of_app. right. left. }
    unfold measured in Hd. congruence.
  - destruct Hspec as (x & Hx & Ex).
    destruct (Hpos x Hx) as (d & Hd & _). unfold measured in Hd. congruence.
Qed.

Lemma closest_node_with_temp_witness :
  ∃ n l1 l2,
    find_closest_node (mkLocation "here" 10 20) with_temp_node
      = Returned (n, Some 0%R) ∧
    nodes with_temp_node = l1 ++ n :: l2 ∧
    euclidean_distance (location_node (mkLocation "here" 10 20)) n = 0%R.
Proof.
  destruct (closest_node_with_temp (λ a b, Returned (euclidean_distance a b))
              (mkLocation "here" 10 20) with_temp_node (mkNode "temp" 50 60))
    as (n & l1 & l2 & H1 & H2 & H3 & _).
  - intros a b E. by rewrite euclidean_distance_equal_nodes.
  - intros x _. eexists. split; [reflexivity|apply euclidean_distance_nonneg].
  - simpl. right. left.
  - reflexivity.
  - exists n, l1, l2. rewrite <- find_closest_node_by_euclidean.
    split; [exact H1|]. split; [exact H2|]. by injection H3.
Defined.

(** C10, as stated, fails: the node reported at distance 0 is not the "temp"
    node when an earlier node has the coordinates of the location. *)
Lemma closest_node_is_not_temp :
  find_closest_node (mkLocation "here" 10 20) with_temp_node
    = Returned (mkNode "A" 10 20, Some 0%R) ∧
  id (mkNode "A" 10 20) ≠ "temp"%string.
Proof.
  split; [|done]. unfold find_closest_node. simpl.
  rewrite (closer_at_zero (mkLocation "here" 10 20) _ (mkNode "A" 10 20));
    [|done|by apply euclidean_distance_same_place].
  f_equal. apply (closer_zero (mkLocation "here" 10 20)).
Qed.

(** * Further properties of the code *)

(** ** Building a graph: [add_node] and [add_edge] *)

Lemma node_eqb_sym (a b : Node) : node_eqb a b = node_eqb b a.
Proof.
  unfold node_eqb. apply bool_decide_ext. split; congruence.
Qed.

Lemma adj_get_app (adj : list (Node * list (Node * Q))) (n x : Node)
    (v : list (Node * Q)) :
  adj_get (adj ++ [(n, v)]) x =
    match adj_get adj x with
    | Some u => Some u
    | None => if node_eqb x n then Some v else None
    end.
Proof.
  induction adj as [|[k u] rest IH]; simpl; [done|].
  destruct (node_eqb x k); done.
Qed.

Lemma adj_get_append (adj : list (Node * list (Node * Q))) (a x : Node)
    (item : Node * Q) :
  adj_get (adj_append adj a item) x =
    if node_eqb x a then (λ v, v ++ [item]) <$> adj_get adj x
    else adj_get adj x.
Proof.
  induction adj as [|[k u] rest IH]; simpl; [by destruct (node_eqb x a)|].
  destruct (node_eqb a k) eqn:Eak; simpl.
  - apply node_eqb_true in Eak. destruct (node_eqb x k) eqn:Exk.
    + apply node_eqb_true in Exk.
      by rewrite (proj2 (node_eqb_true x a)) by congruence.
    + apply node_eqb_false in Exk.
      by rewrite (proj2 (node_eqb_false x a)) by congruence.
  - apply node_eqb_false in Eak. destruct (node_eqb x k) eqn:Exk; [|done].
    apply node_eqb_true in Exk.
    by rewrite (proj2 (node_eqb_false x a)) by congruence.
Qed.

Lemma adj_append_keys (adj : list (Node * list (Node * Q))) (a : Node)
    (item : Node * Q) :
  map fst (adj_append adj a item) = map fst adj.
Proof.
  induction adj as [|[k u] rest IH]; simpl; [done|].
  destruct (node_eqb a k); simpl; [done|]. by rewrite IH.
Qed.

Lemma node_in_false_None (g : Graph) (a : Node) :
  node_in a (nodes g) = false ↔ adj_get (_adjacency g) a = None.
Proof.
  pose proof (node_in_nodes g a) as H.
  destruct (node_in a (nodes g)), (adj_get (_adjacency g) a) as [v|]; split;
    try done.
  - intros _. destruct (proj1 H eq_refl) as [? [=]].
  - intros _. destruct H as [_ H]. by specialize (H (mk_is_Some _ _ eq_refl)).
Qed.

Lemma add_node_nodes (g : Graph) (n : Node) :
  nodes (add_node g n) =
    if node_in n (nodes g) then nodes g else nodes g ++ [n].
Proof.
  unfold add_node. destruct (node_in n (nodes g)) eqn:E.
  - apply node_in_nodes in E as [v ->]. done.
  - apply node_in_false_None in E. rewrite E. simpl. unfold nodes; simpl.
    by rewrite map_app.
Qed.

Lemma add_node_neighbors (g : Graph) (n x : Node) :
  neighbors (add_node g n) x = neighbors g x.
Proof.
  unfold add_node, neighbors.
  destruct (adj_get (_adjacency g) n) as [v|] eqn:E; simpl; [done|].
  rewrite adj_get_app. destruct (adj_get (_adjacency g) x); [done|].
  by destruct (node_eqb x n).
Qed.

Lemma add_node_present (g : Graph) (n x : Node) :
  node_in x (nodes (add_node g n)) = node_in x (nodes g) || node_eqb x n.
Proof.
  rewrite add_node_nodes. destruct (node_in n (nodes g)) eqn:E.
  - destruct (node_eqb x n) eqn:Ex; [|by rewrite orb_false_r].
    rewrite orb_true_r. apply node_eqb_true in Ex.
    apply node_in_true in E as (y & Hy & Hid). apply node_in_true.
    exists y. split; [done|congruence].
  - unfold node_in. rewrite existsb_app. simpl. by rewrite orb_false_r.
Qed.

(** What [add_edge] leaves behind when it returns. *)
Lemma add_edge_returns (g : Graph) (a b : Node) (w : Q) (bidirectional : bool) :
  (0 < w)%Q →
  add_edge g a b w bidirectional =
    Returned (mkGraph
      (let adj := adj_append (_adjacency (add_node (add_node g a) b)) a (b, w) in
       if bidirectional then adj_append adj b (a, w) else adj)).
Proof.
  intros Hw. unfold add_edge.
  destruct (Qle_bool w 0) eqn:E; [|done].
  apply Qle_bool_iff in E. lra.
Qed.

Lemma add_edge_inv (g g' : Graph) (a b : Node) (w : Q) (bidirectional : bool) :
  add_edge g a b w bidirectional = Returned g' →
  (0 < w)%Q ∧
  nodes g' = nodes (add_node (add_node g a) b) ∧
  ∀ x, neighbors g' x =
       neighbors g x ++ (if node_eqb x a then [(b, w)] else []) ++
       (if bidirectional && node_eqb x b then [(a, w)] else []).
Proof.
  unfold add_edge. destruct (Qle_bool w 0) eqn:E; [done|].
  assert (0 < w)%Q as Hw.
  { apply Qnot_le_lt. intros H. apply Qle_bool_iff in H. congruence. }
  intros [= <-]. split; [done|].
  set (g2 := add_node (add_node g a) b).
  assert (∀ x, is_Some (adj_get (_adjacency g2) x) ∨ ¬ (id x = id a ∨ id x = id b))
    as Hpres.
  { intros x. destruct (node_in x (nodes g2)) eqn:Ex.
    - left. by apply node_in_nodes.
    - right. unfold g2 in Ex. rewrite !add_node_present in Ex.
      apply orb_false_iff in Ex as [Ex Eb]. apply orb_false_iff in Ex as [_ Ea].
      apply node_eqb_false in Ea, Eb. tauto. }
  assert (∀ x, default [] (adj_get (_adjacency g2) x) = neighbors g x) as Hnb.
  { intros x. unfold g2. fold (neighbors (add_node (add_node g a) b) x).
    by rewrite !add_node_neighbors. }
  split.
  - unfold nodes; simpl. destruct bidirectional; by rewrite ?adj_append_keys.
  - intros x. unfold neighbors at 1; simpl. rewrite <- Hnb.
    destruct bidirectional; simpl; rewrite ?adj_get_append.
    + destruct (node_eqb x a) eqn:Ea, (node_eqb x b) eqn:Eb; simpl;
        destruct (Hpres x) as [[v ->]|Hno]; simpl;
        rewrite ?app_nil_r, <- ?app_assoc; try done;
        apply node_eqb_true in Ea || apply node_eqb_true in Eb; tauto.
    + destruct (node_eqb x a) eqn:Ea; simpl;
        destruct (Hpres x) as [[v ->]|Hno]; simpl;
        rewrite ?app_nil_r; try done.
      apply node_eqb_true in Ea; tauto.
Qed.

(** X1.  [add_edge] raises [ValueError] exactly when the weight is zero or
    negative.  When it returns, every node keeps the adjacency entries it
    had, in their order; the entry [(to_node, weight)] is appended to those
    of [from_node], and for a bidirectional edge the entry
    [(from_node, weight)] is appended to those of [to_node].  Nothing is
    replaced or merged: a second edge between two nodes is a second entry. *)
Theorem add_edge_neighbors (g : Graph) (a b : Node) (w : Q) (bidirectional : bool) :
  match add_edge g a b w bidirectional with
  | Returned g' =>
      (0 < w)%Q ∧
      ∀ x, neighbors g' x =
           neighbors g x ++ (if node_eqb x a then [(b, w)] else []) ++
           (if bidirectional && node_eqb x b then [(a, w)] else [])
  | Raised e => (w <= 0)%Q ∧ e = ValueError "Edge weight must be positive"
  | OutOfFuel => False
  end.
Proof.
  destruct (add_edge g a b w bidirectional) as [g'|e|] eqn:E.
  - apply add_edge_inv in E as (Hw & _ & Hn). done.
  - unfold add_edge in E. destruct (Qle_bool w 0) eqn:Ew; [|done].
    apply Qle_bool_iff in Ew. by injection E as <-.
  - unfold add_edge in E. by destruct (Qle_bool w 0).
Qed.

(** X2.  [add_edge] keeps the nodes of the graph in the order of their
    insertion and adds the end points that were missing, [from_node] before
    [to_node]; a node that is already present, or that equals one just
    added, is not added again, and the node object stored first stays. *)
Theorem add_edge_nodes (g g' : Graph) (a b : Node) (w : Q) (bidirectional : bool) :
  add_edge g a b w bidirectional = Returned g' →
  nodes g' = nodes g ++ (if node_in a (nodes g) then [] else [a]) ++
             (if node_in b (nodes g) || node_eqb b a then [] else [b]).
Proof.
  intros (_ & -> & _)%add_edge_inv.
  rewrite add_node_nodes, add_node_present, add_node_nodes.
  destruct (node_in a (nodes g)), (node_in b (nodes g)), (node_eqb b a); simpl;
    rewrite ?app_nil_r, <- ?app_assoc; done.
Qed.

Lemma add_edge_nodes_witness :
  ∃ g', add_edge two_isolated (at_origin "B") (at_origin "C") 1 true
          = Returned g' ∧
        nodes g' = [at_origin "A"; at_origin "B"; at_origin "C"].
Proof.
  eexists. split; [vm_compute; reflexivity|].
  apply (add_edge_nodes two_isolated _ (at_origin "B") (at_origin "C") 1 true).
  vm_compute. reflexivity.
Defined.

(** X3.  [add_node] appends a node that is not yet present and does nothing
    for a node that is: the adjacency entries of every node are kept, and
    adding a node twice is adding it once. *)
Theorem add_node_keeps (g : Graph) (n : Node) :
  nodes (add_node g n)
    = (if node_in n (nodes g) then nodes g else nodes g ++ [n]) ∧
  (∀ x, neighbors (add_node g n) x = neighbors g x) ∧
  add_node (add_node g n) n = add_node g n.
Proof.
  split; [apply add_node_nodes|]. split; [apply add_node_neighbors|].
  assert (node_in n (nodes (add_node g n)) = true) as H.
  { rewrite add_node_present, (proj2 (node_eqb_true n n)) by done.
    apply orb_true_r. }
  apply node_in_nodes in H as [v Hv]. unfold add_node at 1. by rewrite Hv.
Qed.

(** *** Graphs made through the interface of [Graph] *)

(** The graphs that [Graph()], [add_node] and [add_edge] can produce. *)
Inductive built : Graph → Prop :=
  | built_init : built Graph_init
  | built_add_node (g : Graph) (n : Node) : built g → built (add_node g n)
  | built_add_edge (g g' : Graph) (a b : Node) (w : Q) (bidirectional : bool) :
      built g → add_edge g a b w bidirectional = Returned g' → built g'.

(** Every target of an adjacency entry is a node of the graph. *)
Definition closed (g : Graph) : Prop :=
  ∀ a n w, (n, w) ∈ neighbors g a → present g n.

Lemma built_add_edges (es : list (Node * Node * Q * bool)) :
  ∀ g g', built g → add_edges es g = Returned g' → built g'.
Proof.
  induction es as [|[[[a b] w] bi] es IH]; intros g g' Hg; simpl.
  - by intros [= <-].
  - destruct (add_edge g a b w bi) as [g1| |] eqn:E; cbn [mbind outcome_bind];
      [|done..].
    apply IH. by eapply built_add_edge.
Qed.

Lemma node_in_false (x : Node) (xs : list Node) :
  node_in x xs = false ↔ id x ∉ map id xs.
Proof.
  split.
  - intros H Hin. apply list_elem_of_fmap in Hin as (y & Hid & Hy).
    assert (node_in x xs = true) as Ht by (apply node_in_true; eauto).
    congruence.
  - intros H. destruct (node_in x xs) eqn:E; [|done].
    apply node_in_true in E as (y & Hy & Hid). exfalso. apply H.
    apply list_elem_of_fmap. eauto.
Qed.

Lemma add_node_distinct (g : Graph) (n : Node) :
  NoDup (map id (nodes g)) → NoDup (map id (nodes (add_node g n))).
Proof.
  intros Hnd. rewrite add_node_nodes. destruct (node_in n (nodes g)) eqn:E; [done|].
  rewrite map_app. apply NoDup_app. split; [done|]. split.
  - intros x Hx ->%list_elem_of_singleton. by apply node_in_false in E.
  - apply NoDup_singleton.
Qed.

Lemma built_invariants (g : Graph) :
  built g → NoDup (map id (nodes g)) ∧ positive_weights g ∧ closed g.
Proof.
  induction 1 as [|g n Hg (Hnd & Hpos & Hcl)|g g' a b w bi Hg (Hnd & Hpos & Hcl) E].
  - split; [apply NoDup_nil_2|]. split; intros a n w Hn; by apply elem_of_nil in Hn.
  - split; [by apply add_node_distinct|]. split.
    + intros a m w. rewrite add_node_neighbors. apply Hpos.
    + intros a m w. rewrite add_node_neighbors. intros Hm%Hcl.
      unfold present in *. rewrite add_node_present, Hm. done.
  - apply add_edge_inv in E as (Hw & Hn & Hnb).
    assert (∀ x, present g x ∨ id x = id a ∨ id x = id b → present g' x) as Hpres.
    { intros x Hx. unfold present in *. rewrite Hn, !add_node_present.
      destruct Hx as [->|[Hx|Hx]]; [done|..].
      - rewrite (proj2 (node_eqb_true x a) Hx). by rewrite orb_true_r.
      - rewrite (proj2 (node_eqb_true x b) Hx). by rewrite orb_true_r. }
    split; [rewrite Hn; by do 2 apply add_node_distinct|]. split.
    + intros x m v. rewrite Hnb, !elem_of_app.
      intros [Hm|[Hm|Hm]]; [by eapply Hpos|..].
      * destruct (node_eqb x a); [|by apply elem_of_nil in Hm].
        by apply list_elem_of_singleton in Hm as [= -> ->].
      * destruct (bi && node_eqb x b); [|by apply elem_of_nil in Hm].
        by apply list_elem_of_singleton in Hm as [= -> ->].
    + intros x m v. rewrite Hnb, !elem_of_app.
      intros [Hm|[Hm|Hm]]; apply Hpres.
      * left. by eapply Hcl.
      * destruct (node_eqb x a); [|by apply elem_of_nil in Hm].
        apply list_elem_of_singleton in Hm as [= -> ->]. by right; right.
      * destruct (bi && node_eqb x b); [|by apply elem_of_nil in Hm].
        apply list_elem_of_singleton in Hm as [= -> ->]. by right; left.
Qed.

(** X4.  A graph made with [Graph()], [add_node] and [add_edge] alone has
    nodes with pairwise different identifiers, and every target of an edge
    is among its nodes. *)
Theorem built_graph_is_well_formed (g : Graph) :
  built g → NoDup (map id (nodes g)) ∧ closed g.
Proof. intros (H1 & _ & H2)%built_invariants. done. Qed.

Lemma known_shortest_path_built : built known_shortest_path.
Proof.
  apply (built_add_edges
           [(node_a, node_b, 5%Q, true); (node_b, node_c, 3%Q, true);
            (node_a, node_d, 2%Q, true); (node_b, node_e, 4%Q, true);
            (node_c, node_f, 1%Q, true); (node_d, node_e, 1%Q, true);
            (node_e, node_f, 2%Q, true)] Graph_init); [apply built_init|].
  vm_compute. reflexivity.
Qed.

Lemma built_graph_is_well_formed_witness :
  NoDup (map id (nodes known_shortest_path)) ∧ closed known_shortest_path.
Proof.
  apply (built_graph_is_well_formed known_shortest_path).
  apply known_shortest_path_built.
Defined.

(** ** The four distance functions of [heuristics.py] *)

Section Distances.
Local Open Scope R_scope.

Lemma Q2R_between (q : Q) (lo hi : Z) :
  (inject_Z lo <= q)%Q → (q <= inject_Z hi)%Q → IZR lo <= Q2R q <= IZR hi.
Proof.
  intros H1%Qreals.Qle_Rle H2%Qreals.Qle_Rle.
  unfold Q2R at 1 in H1. unfold Q2R at 2 in H2. simpl in H1, H2. lra.
Qed.

(** The cosine that scales a difference of longitude is not negative when
    both latitudes are latitudes. *)
Lemma cos_avg_nonneg (x y : R) :
  -90 <= x <= 90 → -90 <= y <= 90 → 0 <= cos (radians ((x + y) / 2)).
Proof.
  intros Hx Hy. pose proof PI_RGT_0 as Hpi.
  apply cos_ge_0; unfold radians; nra.
Qed.

(** X5.  Each of the four distance functions gives the same value in both
    directions. *)
Theorem distances_are_symmetric (a b : Node) :
  euclidean_distance a b = euclidean_distance b a ∧
  manhattan_distance a b = manhattan_distance b a ∧
  diagonal_distance a b = diagonal_distance b a ∧
  simple_distance a b = simple_distance b a.
Proof.
  unfold euclidean_distance, manhattan_distance, diagonal_distance,
    simple_distance.
  rewrite (node_eqb_sym b a). destruct (node_eqb a b); [done|]. cbv zeta.
  rewrite (Rabs_minus_sym (Q2R (latitude b))), (Rabs_minus_sym (Q2R (longitude b))).
  replace ((Q2R (latitude b) + Q2R (latitude a)) / 2)
    with ((Q2R (latitude a) + Q2R (latitude b)) / 2) by lra.
  split_and!; [|done|done|].
  - set (la := radians (Q2R (latitude a))). set (lb := radians (Q2R (latitude b))).
    set (oa := radians (Q2R (longitude a))). set (ob := radians (Q2R (longitude b))).
    replace ((la - lb) / 2) with (- ((lb - la) / 2)) by lra.
    replace ((oa - ob) / 2) with (- ((ob - oa) / 2)) by lra.
    rewrite !sin_neg. do 4 f_equal. ring.
  - f_equal. ring.
Qed.

(** X6.  For two nodes whose latitudes lie between -90 and 90 degrees, the
    diagonal distance is not negative, the Manhattan distance is at least
    the diagonal distance and at most twice it. *)
Theorem diagonal_below_manhattan (a b : Node) :
  (-90 <= latitude a)%Q → (latitude a <= 90)%Q →
  (-90 <= latitude b)%Q → (latitude b <= 90)%Q →
  0 <= diagonal_distance a b ∧
  diagonal_distance a b <= manhattan_distance a b ∧
  manhattan_distance a b <= 2 * diagonal_distance a b.
Proof.
  intros Ha1 Ha2 Hb1 Hb2.
  pose proof (Q2R_between (latitude a) (-90) 90 Ha1 Ha2) as Ha.
  pose proof (Q2R_between (latitude b) (-90) 90 Hb1 Hb2) as Hb.
  unfold diagonal_distance, manhattan_distance.
  destruct (node_eqb a b); [lra|]. cbv zeta.
  pose proof (cos_avg_nonneg _ _ Ha Hb) as Hc.
  pose proof (Rabs_pos (Q2R (latitude b) - Q2R (latitude a))) as H1.
  pose proof (Rabs_pos (Q2R (longitude b) - Q2R (longitude a))) as H2.
  set (x := Rabs (Q2R (latitude b) - Q2R (latitude a)) * 111) in *.
  set (y := Rabs (Q2R (longitude b) - Q2R (longitude a)) * 111 *
            cos (radians ((Q2R (latitude a) + Q2R (latitude b)) / 2))) in *.
  assert (0 <= x) as Hx by (unfold x; lra).
  assert (0 <= y) as Hy by (unfold y; nra).
  unfold Rmax. destruct (Rle_dec x y); lra.
Qed.

Lemma diagonal_below_manhattan_witness :
  0 <= diagonal_distance (mkNode "a" 0 0) (mkNode "b" 1 1) ∧
  diagonal_distance (mkNode "a" 0 0) (mkNode "b" 1 1)
    <= manhattan_distance (mkNode "a" 0 0) (mkNode "b" 1 1) ∧
  manhattan_distance (mkNode "a" 0 0) (mkNode "b" 1 1)
    <= 2 * diagonal_distance (mkNode "a" 0 0) (mkNode "b" 1 1).
Proof.
  apply (diagonal_below_manhattan (mkNode "a" 0 0) (mkNode "b" 1 1));
    simpl; lra.
Defined.

(** X8.  For two nodes whose latitudes lie between -90 and 90 degrees and
    which share a latitude or share a longitude, the Manhattan distance and
    the diagonal distance are the same number: one of the two components is
    zero, and the sum and the maximum of the components are the other one. *)
Theorem manhattan_is_diagonal_along_axes (a b : Node) :
  (-90 <= latitude a)%Q → (latitude a <= 90)%Q →
  (-90 <= latitude b)%Q → (latitude b <= 90)%Q →
  (latitude a == latitude b)%Q ∨ (longitude a == longitude b)%Q →
  manhattan_distance a b = diagonal_distance a b.
Proof.
  intros Ha1 Ha2 Hb1 Hb2 Hshare.
  pose proof (Q2R_between (latitude a) (-90) 90 Ha1 Ha2) as Ha.
  pose proof (Q2R_between (latitude b) (-90) 90 Hb1 Hb2) as Hb.
  unfold diagonal_distance, manhattan_distance.
  destruct (node_eqb a b); [done|]. cbv zeta.
  pose proof (cos_avg_nonneg _ _ Ha Hb) as Hc.
  pose proof (Rabs_pos (Q2R (latitude b) - Q2R (latitude a))) as H1.
  pose proof (Rabs_pos (Q2R (longitude b) - Q2R (longitude a))) as H2.
  destruct Hshare as [E%Qreals.Qeq_eqR|E%Qreals.Qeq_eqR].
  - rewrite E in *.
    replace (Q2R (latitude b) - Q2R (latitude b)) with 0 by lra.
    rewrite Rabs_R0. rewrite Rmax_right; [lra|]. nra.
  - rewrite E in *.
    replace (Q2R (longitude b) - Q2R (longitude b)) with 0 by lra.
    rewrite Rabs_R0. rewrite Rmax_left; lra.
Qed.

Lemma manhattan_is_diagonal_along_axes_witness :
  manhattan_distance (mkNode "a" 0 0) (mkNode "b" 1 0)
    = diagonal_distance (mkNode "a" 0 0) (mkNode "b" 1 0).
Proof.
  apply (manhattan_is_diagonal_along_axes (mkNode "a" 0 0) (mkNode "b" 1 0));
    simpl; [lra|lra|lra|lra|right; reflexivity].
Defined.
End Distances.

(** ** Validation of locations: [types.py] and [validators.py] *)

Lemma in_range_spec (lo hi x : Q) :
  negb (Qle_bool lo x && Qle_bool x hi) = false ↔ (lo <= x)%Q ∧ (x <= hi)%Q.
Proof.
  rewrite negb_false_iff, andb_true_iff, !Qle_bool_iff. done.
Qed.

(** X9.  [validate_coordinates] accepts a latitude between -90 and 90 with a
    longitude between -180 and 180, bounds included, and nothing else; these
    are the coordinates with which a [Location] of non-empty address can be
    made. *)
Theorem coordinates_accepted_alike (c : Ascii.ascii) (s : string) (lat lon : Q) :
  (validate_coordinates lat lon = Valid ↔
   ((-90 <= lat)%Q ∧ (lat <= 90)%Q) ∧ ((-180 <= lon)%Q ∧ (lon <= 180)%Q)) ∧
  (validate_coordinates lat lon = Valid ↔
   ∃ loc, Location_init (String c s) lat lon = Returned loc).
Proof.
  unfold validate_coordinates, Location_init.
  rewrite bool_decide_eq_false_2 by done.
  pose proof (in_range_spec (-90) 90 lat) as Hlat.
  pose proof (in_range_spec (-180) 180 lon) as Hlon.
  destruct (negb (Qle_bool (-90) lat && Qle_bool lat 90)).
  { split; split; try done.
    - intros [H _]. by apply Hlat in H.
    - by intros [loc H]. }
  destruct (negb (Qle_bool (-180) lon && Qle_bool lon 180)).
  { split; split; try done.
    - intros [_ H]. by apply Hlon in H.
    - by intros [loc H]. }
  split; split; try done.
  - intros _. split; [by apply Hlat|by apply Hlon].
  - intros _. eauto.
Qed.

(** X10.  [validate_same_location] accepts a pair of locations in one order
    exactly when it accepts it in the other, and it never accepts two
    locations with the same coordinates, whatever their addresses: a
    location paired with itself is refused. *)
Theorem same_location_check (a b : Location) (other_address : string) :
  (validate_same_location a b = Valid ↔ validate_same_location b a = Valid) ∧
  validate_same_location a
    (mkLocation other_address (loc_latitude a) (loc_longitude a)) ≠ Valid ∧
  validate_same_location a a ≠ Valid.
Proof.
  assert (∀ x y : Location, validate_same_location x y = Valid ↔
    (1 # 10000 <= Qabs (loc_latitude x - loc_latitude y))%Q ∨
    (1 # 10000 <= Qabs (loc_longitude x - loc_longitude y))%Q) as Hspec.
  { intros x y. unfold validate_same_location. cbv zeta.
    destruct (Qltb (Qabs (loc_latitude x - loc_latitude y)) (1 # 10000)) eqn:E1;
      [destruct (Qltb (Qabs (loc_longitude x - loc_longitude y)) (1 # 10000)) eqn:E2|];
      cbn [andb].
    - apply Qltb_true in E1, E2. split; [done|]. intros [H|H]; lra.
    - apply Qltb_false in E2. split; [by right|done].
    - apply Qltb_false in E1. split; [by left|done]. }
  assert (∀ x y : Location,
    loc_latitude y = loc_latitude x → loc_longitude y = loc_longitude x →
    validate_same_location x y ≠ Valid) as Hsame.
  { intros x y El Eo. rewrite Hspec, El, Eo. intros [H|H].
    - assert (loc_latitude x - loc_latitude x == 0)%Q as E by ring.
      rewrite E in H. apply Qle_bool_iff in H. by vm_compute in H.
    - assert (loc_longitude x - loc_longitude x == 0)%Q as E by ring.
      rewrite E in H. apply Qle_bool_iff in H. by vm_compute in H. }
  split; [|split; by apply Hsame].
  rewrite !Hspec.
  rewrite (Qabs_Qminus (loc_latitude a)), (Qabs_Qminus (loc_longitude a)). done.
Qed.

(** ** The nearest node and the connectivity test of [routing.py] *)


Lemma is_connected_true (g : Graph) (start goal : Node) :
  is_connected g start goal = Returned true ↔
  ∃ c, walk g (id start) (id goal) c.
Proof.
  split.
  - intros Hb. unfold is_connected in Hb.
    destruct (node_eqb start goal) eqn:E.
    + apply node_eqb_true in E. exists 0%Q. rewrite <- E. apply walk_nil.
    + apply (bfs_loop_true g start goal _ _ _) in Hb; [done|].
      intros q ->%list_elem_of_singleton. exists 0%Q. apply walk_nil.
  - intros [c Hc]. destruct (is_connected_total g start goal) as [[|] Hb]; [done|].
    apply is_connected_false in Hb as [_ Hno]. by apply Hno in Hc.
Qed.

(** X12.  [is_connected] returns on every graph, and its answer is [True]
    exactly when some sequence of adjacency entries leads from a node equal
    to the start to a node equal to the goal; nodes need not be in the
    graph, and a node is connected to itself. *)
Theorem is_connected_iff_walk (g : Graph) (start goal : Node) :
  ∃ b, is_connected g start goal = Returned b ∧
       (b = true ↔ ∃ c, walk g (id start) (id goal) c).
Proof.
  destruct (is_connected_total g start goal) as [b Hb]. exists b.
  split; [done|]. rewrite <- is_connected_true, Hb.
  split; [by intros ->|by intros [= ->]].
Qed.

(** ** The roads of a graph: [get_all_roads] and [iterate_all_roads] *)

Lemma ltb_antisym (x y : string) : String.ltb x y = true → String.ltb y x = false.
Proof.
  unfold String.ltb. rewrite (String.compare_antisym y x).
  by destruct (String.compare x y).
Qed.

Lemma ltb_total (x y : string) :
  String.ltb x y = false → String.ltb y x = false → x = y.
Proof.
  unfold String.ltb. rewrite (String.compare_antisym y x).
  destruct (String.compare x y) eqn:E; simpl; try done.
  intros _ _. by apply String.compare_eq_iff.
Qed.

(** Two pairs of identifiers get one edge identifier exactly when they are
    the same pair, in the same or in the opposite order. *)
Lemma edge_id_eq (a b c d : string) :
  edge_id a b = edge_id c d ↔ (a = c ∧ b = d) ∨ (a = d ∧ b = c).
Proof.
  unfold edge_id.
  destruct (String.ltb b a) eqn:E1, (String.ltb d c) eqn:E2; split.
  - intros [= -> ->]. by left.
  - intros [[-> ->]|[-> ->]]; [done|]. apply ltb_antisym in E1. congruence.
  - intros [= -> ->]. by right.
  - intros [[-> ->]|[-> ->]]; [congruence|done].
  - intros [= -> ->]. by right.
  - intros [[-> ->]|[-> ->]]; [congruence|done].
  - intros [= -> ->]. by left.
  - intros [[-> ->]|[-> ->]]; [done|]. by rewrite (ltb_total _ _ E1 E2).
Qed.

(** The edge identifier of a road. *)
Definition road_id (r : road) : string * string :=
  edge_id (id (fst (fst r))) (id (snd (fst r))).

(** Two roads join the same two nodes, in either direction. *)
Definition same_ends (r r' : road) : Prop :=
  (id (fst (fst r)) = id (fst (fst r')) ∧ id (snd (fst r)) = id (snd (fst r'))) ∨
  (id (fst (fst r)) = id (snd (fst r')) ∧ id (snd (fst r)) = id (fst (fst r'))).

Lemma road_id_eq (r r' : road) : road_id r = road_id r' ↔ same_ends r r'.
Proof. apply edge_id_eq. Qed.

Section Roads.
Context (g : Graph).

Definition roads_inv (seen : gset (string * string)) (roads : list road) : Prop :=
  (∀ e, e ∈ seen ↔ e ∈ map road_id roads) ∧
  NoDup (map road_id roads) ∧
  ∀ a b w, (a, b, w) ∈ roads → a ∈ nodes g ∧ (b, w) ∈ neighbors g a.

Lemma roads_from_inv (node : Node) (nbrs : list (Node * Q)) :
  ∀ (seen : gset (string * string)) (roads : list road),
    node ∈ nodes g → (∀ nw, nw ∈ nbrs → nw ∈ neighbors g node) →
    roads_inv seen roads →
    roads_inv (fst (roads_from node nbrs seen roads))
              (snd (roads_from node nbrs seen roads)) ∧
    seen ⊆ fst (roads_from node nbrs seen roads) ∧
    ∀ n w, (n, w) ∈ nbrs →
           edge_id (id node) (id n) ∈ fst (roads_from node nbrs seen roads).
Proof.
  induction nbrs as [|[n w] rest IH]; intros seen roads Hnode Hsub Hinv; simpl.
  { split; [done|]. split; [done|]. intros n w Hn. by apply elem_of_nil in Hn. }
  assert (∀ nw, nw ∈ rest → nw ∈ neighbors g node) as Hrest.
  { intros nw Hnw. apply Hsub. by right. }
  case_bool_decide as Hseen.
  - destruct (IH seen roads Hnode Hrest Hinv) as (H1 & H2 & H3).
    split; [done|]. split; [done|].
    intros n' w' [[= -> ->]|Hn]%elem_of_cons; [by apply H2|by eapply H3].
  - destruct (IH ({[edge_id (id node) (id n)]} ∪ seen)
                (roads ++ [(node, n, w)]) Hnode Hrest) as (H1 & H2 & H3).
    { destruct Hinv as (Hs & Hnd & Hed). split; [|split].
      - intros e. rewrite map_app, elem_of_app, elem_of_union, <- Hs.
        simpl. rewrite elem_of_singleton, list_elem_of_singleton. tauto.
      - rewrite map_app. apply NoDup_app. split; [done|]. split.
        + intros e He ->%list_elem_of_singleton. by apply Hseen, Hs.
        + apply NoDup_singleton.
      - intros a b v [Hr|[= -> -> ->]%list_elem_of_singleton]%elem_of_app;
          [by apply Hed|].
        split; [done|]. apply Hsub. left. }
    split; [done|]. split.
    + intros e He. apply H2, elem_of_union. by right.
    + intros n' w' [[= -> ->]|Hn]%elem_of_cons; [|by eapply H3].
      apply H2, elem_of_union. left. by apply elem_of_singleton.
Qed.

Lemma roads_loop_inv (ns : list Node) :
  ∀ (seen : gset (string * string)) (roads : list road),
    (∀ n, n ∈ ns → n ∈ nodes g) → roads_inv seen roads →
    ∃ seen', roads_inv seen' (roads_loop g ns seen roads) ∧ seen ⊆ seen' ∧
      ∀ a n w, a ∈ ns → (n, w) ∈ neighbors g a → edge_id (id a) (id n) ∈ seen'.
Proof.
  induction ns as [|node rest IH]; intros seen roads Hns Hinv; simpl.
  { exists seen. split; [done|]. split; [done|].
    intros a n w Ha. by apply elem_of_nil in Ha. }
  destruct (roads_from_inv node (neighbors g node) seen roads)
    as (H1 & H2 & H3); [apply Hns; left|done|done|].
  destruct (IH _ _ (λ n Hn, Hns n (list_elem_of_further _ _ _ Hn)) H1)
    as (seen' & I1 & I2 & I3).
  exists seen'. split; [done|]. split; [set_solver|].
  intros a n w [->|Ha]%elem_of_cons Hn; [|by eapply I3].
  apply I2. by eapply H3.
Qed.

Lemma get_all_roads_inv :
  ∃ seen, roads_inv seen (get_all_roads g) ∧
    ∀ a n w, a ∈ nodes g → (n, w) ∈ neighbors g a → edge_id (id a) (id n) ∈ seen.
Proof.
  destruct (roads_loop_inv (nodes g) ∅ []) as (seen & H1 & _ & H2); [done| |].
  - split; [|split]; simpl.
    + intros e. split; [set_solver|]. intros He. by apply elem_of_nil in He.
    + apply NoDup_nil_2.
    + intros a b w Hr. by apply elem_of_nil in Hr.
  - by exists seen.
Qed.

(** Every adjacency entry of the graph, as an edge identifier. *)
Definition all_edge_ids : list (string * string) :=
  concat (map (λ kv, map (λ nw, edge_id (id (fst kv)) (id (fst nw))) (snd kv))
            (_adjacency g)).

Lemma length_all_edge_ids : length all_edge_ids = edge_count g.
Proof.
  unfold all_edge_ids, edge_count.
  induction (_adjacency g) as [|[k v] rest IH]; simpl; [done|].
  by rewrite length_app, length_map, IH.
Qed.

Lemma length_get_all_roads : (length (get_all_roads g) ≤ edge_count g)%nat.
Proof.
  destruct get_all_roads_inv as (seen & (_ & Hnd & Hed) & _).
  rewrite <- length_all_edge_ids, <- (length_map road_id).
  apply submseteq_length, NoDup_submseteq; [done|].
  intros e ([[a b] w] & -> & Hr)%list_elem_of_fmap.
  destruct (Hed a b w Hr) as [_ Hn]. unfold neighbors in Hn.
  destruct (adj_get (_adjacency g) a) as [v|] eqn:E; simpl in Hn;
    [|by apply elem_of_nil in Hn].
  apply adj_get_Some in E as (k & Hk & Hid).
  unfold all_edge_ids, road_id; simpl. rewrite <- Hid.
  apply list_elem_of_In, in_concat.
  exists (map (λ nw, edge_id (id k) (id (fst nw))) v). split.
  - apply in_map_iff. exists (k, v). split; [done|]. by apply list_elem_of_In.
  - apply in_map_iff. exists (b, w). split; [done|]. by apply list_elem_of_In.
Qed.

(** *** The order of the scan *)

(** The adjacency entries of a node, as roads, in their order. *)
Definition entries_from (node : Node) (nbrs : list (Node * Q)) : list road :=
  map (λ nw, (node, fst nw, snd nw)) nbrs.

(** The adjacency entries of the graph in the order [get_all_roads] meets
    them: node by node in insertion order, and for each node in the order of
    its neighbour list. *)
Definition all_entries : list road :=
  concat (map (λ a, entries_from a (neighbors g a)) (nodes g)).

(** The roads of a list whose edge identifier is neither in [seen] nor
    carried by an earlier road of the list. *)
Fixpoint first_new (seen : gset (string * string)) (l : list road) : list road :=
  match l with
  | [] => []
  | r :: l' =>
      if bool_decide (road_id r ∈ seen) then first_new seen l'
      else r :: first_new ({[road_id r]} ∪ seen) l'
  end.

Fixpoint seen_new (seen : gset (string * string)) (l : list road)
    : gset (string * string) :=
  match l with
  | [] => seen
  | r :: l' =>
      if bool_decide (road_id r ∈ seen) then seen_new seen l'
      else seen_new ({[road_id r]} ∪ seen) l'
  end.

Lemma first_new_app (l1 l2 : list road) : ∀ seen : gset (string * string),
  first_new seen (l1 ++ l2) = first_new seen l1 ++ first_new (seen_new seen l1) l2.
Proof.
  induction l1 as [|r l1 IH]; intros seen; simpl; [done|].
  case_bool_decide; [apply IH|]. simpl. by rewrite IH.
Qed.

Lemma roads_from_first_new (node : Node) (nbrs : list (Node * Q)) :
  ∀ (seen : gset (string * string)) (roads : list road),
    roads_from node nbrs seen roads =
      (seen_new seen (entries_from node nbrs),
       roads ++ first_new seen (entries_from node nbrs)).
Proof.
  induction nbrs as [|[n w] rest IH]; intros seen roads; simpl.
  - by rewrite app_nil_r.
  - unfold road_id; simpl. case_bool_decide; [apply IH|].
    rewrite IH. by rewrite <- app_assoc.
Qed.

Lemma roads_loop_first_new (ns : list Node) :
  ∀ (seen : gset (string * string)) (roads : list road),
    roads_loop g ns seen roads =
      roads ++ first_new seen
                 (concat (map (λ a, entries_from a (neighbors g a)) ns)).
Proof.
  induction ns as [|node rest IH]; intros seen roads; simpl.
  - by rewrite app_nil_r.
  - rewrite roads_from_first_new. simpl.
    rewrite IH, first_new_app. by rewrite <- app_assoc.
Qed.

Lemma get_all_roads_first_new : get_all_roads g = first_new ∅ all_entries.
Proof. unfold get_all_roads. by rewrite roads_loop_first_new. Qed.

Lemma first_new_sublist (l : list road) : ∀ seen : gset (string * string),
  sublist (first_new seen l) l.
Proof.
  induction l as [|r l IH]; intros seen; simpl; [constructor|].
  case_bool_decide; [apply sublist_cons|apply sublist_skip]; apply IH.
Qed.

Lemma first_new_complete (l : list road) :
  ∀ (seen : gset (string * string)) (i : nat) (r : road),
    l !! i = Some r → road_id r ∉ seen →
    (∀ j r', (j < i)%nat → l !! j = Some r' → road_id r' ≠ road_id r) →
    r ∈ first_new seen l.
Proof.
  induction l as [|r0 l IH]; intros seen i r Hi Hr Hbefore; [done|].
  destruct i as [|i]; simpl in *.
  - injection Hi as ->. rewrite bool_decide_eq_false_2 by done. left.
  - assert (road_id r0 ≠ road_id r) as Hne by (apply (Hbefore 0%nat); [lia|done]).
    assert (∀ j r', (j < i)%nat → l !! j = Some r' → road_id r' ≠ road_id r)
      as Hb'.
    { intros j r' Hj Hr'. apply (Hbefore (S j)); [lia|done]. }
    case_bool_decide.
    + by apply (IH seen i).
    + right. apply (IH _ i); [done| |done].
      rewrite elem_of_union, elem_of_singleton. intros [E|?]; [by symmetry in E|done].
Qed.

Lemma first_new_sound (l : list road) :
  ∀ (seen : gset (string * string)) (r : road),
    r ∈ first_new seen l →
    ∃ i, l !! i = Some r ∧ (road_id r ∉ seen) ∧
         ∀ j r', (j < i)%nat → l !! j = Some r' → road_id r' ≠ road_id r.
Proof.
  induction l as [|r0 l IH]; intros seen r Hr; simpl in Hr;
    [by apply elem_of_nil in Hr|].
  case_bool_decide as Hseen.
  - destruct (IH seen r Hr) as (i & Hi & Hns & Hb).
    exists (S i). split; [done|]. split; [done|].
    intros [|j] r' Hj Hr'; simpl in Hr'.
    + injection Hr' as <-. intros E. apply Hns. by rewrite <- E.
    + apply (Hb j); [lia|done].
  - apply elem_of_cons in Hr as [->|Hr].
    + exists 0%nat. split; [done|]. split; [done|]. intros j r' Hj. lia.
    + destruct (IH _ r Hr) as (i & Hi & Hns & Hb).
      rewrite elem_of_union, elem_of_singleton in Hns.
      exists (S i). split; [done|]. split; [tauto|].
      intros [|j] r' Hj Hr'; simpl in Hr'.
      * injection Hr' as <-. intros E. apply Hns. by left.
      * apply (Hb j); [lia|done].
Qed.

(** X13.  [get_all_roads] returns adjacency entries of nodes of the graph,
    in the order in which it meets them: node by node in insertion order,
    and for each node in the order of its neighbour list.  No two of the
    roads returned join the same two nodes, in either direction, and every
    adjacency entry is represented by a road between the same two nodes.
    The road returned for two nodes is the first entry met that joins them:
    an entry is returned exactly when no entry met before it joins the same
    two nodes.  So a bidirectional edge is reported once, in the direction
    met first, and of several edges between two nodes only the first met is
    reported. *)
Theorem get_all_roads_spec :
  (∀ a b w, (a, b, w) ∈ get_all_roads g →
            a ∈ nodes g ∧ (b, w) ∈ neighbors g a) ∧
  (∀ i j r r', get_all_roads g !! i = Some r → get_all_roads g !! j = Some r' →
               same_ends r r' → i = j) ∧
  (∀ a b w, a ∈ nodes g → (b, w) ∈ neighbors g a →
            ∃ r, r ∈ get_all_roads g ∧ same_ends r (a, b, w)) ∧
  sublist (get_all_roads g) all_entries ∧
  (∀ i r, all_entries !! i = Some r →
          (∀ j r', (j < i)%nat → all_entries !! j = Some r' → ¬ same_ends r' r) →
          r ∈ get_all_roads g) ∧
  (∀ r, r ∈ get_all_roads g →
        ∃ i, all_entries !! i = Some r ∧
             ∀ j r', (j < i)%nat → all_entries !! j = Some r' → ¬ same_ends r' r).
Proof.
  destruct get_all_roads_inv as (seen & (Hs & Hnd & Hed) & Hcov).
  split; [done|]. split; [|split; [|split; [|split]]].
  - intros i j r r' Hi Hj Hsame%road_id_eq.
    apply (proj1 (NoDup_alt _) Hnd i j (road_id r)).
    + by rewrite list_lookup_fmap, Hi.
    + by rewrite list_lookup_fmap, Hj, Hsame.
  - intros a b w Ha Hb. specialize (Hcov a b w Ha Hb).
    apply Hs, list_elem_of_fmap in Hcov as (r & Hid & Hr).
    exists r. split; [done|]. by apply road_id_eq.
  - rewrite get_all_roads_first_new. apply first_new_sublist.
  - intros i r Hi Hbefore. rewrite get_all_roads_first_new.
    apply (first_new_complete _ _ i); [done|apply not_elem_of_empty|].
    intros j r' Hj Hr' E%road_id_eq. by apply (Hbefore j r').
  - intros r Hr. rewrite get_all_roads_first_new in Hr.
    destruct (first_new_sound _ _ _ Hr) as (i & Hi & _ & Hb).
    exists i. split; [done|]. intros j r' Hj Hr' E%road_id_eq.
    by apply (Hb j r').
Qed.

(** *** The generator *)

Lemma roads_from_acc (node : Node) (nbrs : list (Node * Q)) :
  ∀ (seen : gset (string * string)) (roads : list road),
    roads_from node nbrs seen roads =
      (fst (roads_from node nbrs seen []),
       roads ++ snd (roads_from node nbrs seen [])).
Proof.
  induction nbrs as [|[n w] rest IH]; intros seen roads; simpl.
  - by rewrite app_nil_r.
  - case_bool_decide; [apply IH|].
    rewrite (IH _ (roads ++ _)), (IH _ [_]). simpl. by rewrite <- app_assoc.
Qed.

Lemma roads_loop_acc (ns : list Node) :
  ∀ (seen : gset (string * string)) (roads : list road),
    roads_loop g ns seen roads = roads ++ roads_loop g ns seen [].
Proof.
  induction ns as [|node rest IH]; intros seen roads; simpl.
  - by rewrite app_nil_r.
  - rewrite (roads_from_acc _ _ _ roads). simpl.
    rewrite (IH _ (roads ++ _)), (IH _ (snd _)). by rewrite <- app_assoc.
Qed.

Lemma next_from_spec (node : Node) (nbrs : list (Node * Q)) :
  ∀ seen : gset (string * string),
    roads_from node nbrs seen [] =
      match next_from node nbrs seen with
      | (seen', None) => (seen', [])
      | (seen', Some (r, rest)) =>
          (fst (roads_from node rest seen' []),
           r :: snd (roads_from node rest seen' []))
      end.
Proof.
  induction nbrs as [|[n w] rest IH]; intros seen; simpl; [done|].
  case_bool_decide; [apply IH|]. by rewrite roads_from_acc.
Qed.

(** The roads a suspended generator has yet to yield. *)
Definition remaining (it : roads_iterator) : list road :=
  snd (roads_from (it_node it) (it_neighbors it) (it_seen it) []) ++
  roads_loop g (it_nodes it)
    (fst (roads_from (it_node it) (it_neighbors it) (it_seen it) [])) [].

Definition yields (step : option (road * roads_iterator)) (l : list road) : Prop :=
  match step with
  | None => l = []
  | Some (r, it) => l = r :: remaining it
  end.

Lemma next_in_spec (ns : list Node) :
  ∀ seen : gset (string * string),
    yields (next_in g ns seen) (roads_loop g ns seen []).
Proof.
  induction ns as [|node rest IH]; intros seen; simpl; [done|].
  rewrite roads_loop_acc, (next_from_spec node (neighbors g node) seen).
  destruct (next_from node (neighbors g node) seen) as [seen' [[r nbrs]|]]; simpl.
  - done.
  - apply IH.
Qed.

Lemma next_spec (it : roads_iterator) : yields (next g it) (remaining it).
Proof.
  unfold next, remaining.
  rewrite (next_from_spec (it_node it) (it_neighbors it) (it_seen it)).
  destruct (next_from (it_node it) (it_neighbors it) (it_seen it))
    as [seen' [[r nbrs]|]]; simpl.
  - done.
  - apply next_in_spec.
Qed.

Lemma drain_spec (fuel : nat) :
  ∀ (step : option (road * roads_iterator)) (l : list road),
    yields step l → (length l ≤ fuel)%nat → drain g fuel step = Returned l.
Proof.
  induction fuel as [|fuel IH]; intros [[r it]|] l Hy Hlen; simpl in *;
    subst l; simpl in *; try done; [lia|].
  rewrite (IH (next g it) (remaining it)); [done|apply next_spec|lia].
Qed.

(** X14.  Running the generator [iterate_all_roads] to its end yields the
    roads that [get_all_roads] returns, in the same order. *)
Theorem iterate_all_roads_yields_all_roads :
  iterate_all_roads g = Returned (get_all_roads g).
Proof.
  unfold iterate_all_roads. apply drain_spec.
  - apply next_in_spec.
  - apply length_get_all_roads.
Qed.
End Roads.

(** ** What the searches record, on every graph and for every heuristic *)

Lemma relax_open (alg : algo) (goal current : Node) (popped : Q)
    (st st' : state) (n : Node) (w : Q) :
  relax alg goal current popped st (n, w) = Returned st' →
  length (st_pq st') = S (length (st_pq st)) →
  st_open_set_nodes st' =
    if node_in n (st_open_set_nodes st) then st_open_set_nodes st
    else st_open_set_nodes st ++ [n].
Proof.
  unfold relax. case_bool_decide; [intros [= <-]; simpl; lia|].
  destruct (current_cost _ _ _ _) as [base| |]; simpl; [|done..].
  destruct (match st_cost st !! id n with None => true | Some d => _ end);
    intros [= <-]; simpl; [done|lia].
Qed.

Section Bookkeeping.
Context (alg : algo) (g : Graph) (start goal : Node).

(** What the loop maintains besides [inv1]: the priorities of [dijkstra]
    are the recorded costs, every recorded cost is the cost of the parent
    plus the weight of an edge from the parent, and the lists kept for
    display hold each node once. *)
Record inv3 (st : state) : Prop := {
  more_keys : alg = Dijkstra → ∀ e, e ∈ st_pq st →
    ∃ d, st_cost st !! id (node_of e) = Some d ∧ (d <= key e)%Q;
  more_frontier : alg = Dijkstra → ∀ v d,
    st_cost st !! v = Some d → v ∉ st_visited st →
    ∃ e, e ∈ st_pq st ∧ id (node_of e) = v ∧ (key e == d)%Q;
  more_tree : ∀ v p, st_came_from st !! v = Some p →
    ∃ n w dp dv, (n, w) ∈ neighbors g p ∧ id n = v ∧
      st_cost st !! id p = Some dp ∧ st_cost st !! v = Some dv ∧
      (dv == dp + w)%Q;
  more_start : st_cost st !! id start = Some 0%Q;
  more_start_queued : id start ∈ st_visited st ∨
    ∃ e, e ∈ st_pq st ∧ id (node_of e) = id start;
  more_open_distinct : NoDup (map id (st_open_set_nodes st));
  more_open_start : head (st_open_set_nodes st) = Some start;
  more_open_cost : ∀ v,
    is_Some (st_cost st !! v) ↔ v ∈ map id (st_open_set_nodes st);
  more_explored_distinct : NoDup (map id (st_explored_nodes st));
  more_explored_start :
    (st_explored_nodes st = [] ∧ ∃ k, st_pq st = [(k, 0%nat, start)]) ∨
    head (st_explored_nodes st) = Some start
}.

(** Every neighbour of an expanded node has a recorded cost. *)
Definition expanded (st : state) (a : Node) : Prop :=
  ∀ n w, (n, w) ∈ neighbors g a → is_Some (st_cost st !! id n).

Definition more_head (st : state) : Prop :=
  inv3 st ∧
  ∀ a, id a ∈ st_visited st → id a ≠ id goal → expanded st a.

Definition more_mid (current : Node) (popped : Q) (done : list (Node * Q))
    (st : state) : Prop :=
  inv3 st ∧
  (alg = Dijkstra → ∃ d, st_cost st !! id current = Some d ∧ (d == popped)%Q) ∧
  last (st_explored_nodes st) = Some current ∧
  (∀ a, id a ∈ st_visited st → id a ≠ id current → id a ≠ id goal →
        expanded st a) ∧
  (∀ n w, (n, w) ∈ done → is_Some (st_cost st !! id n)).

Definition more_exit (st : state) : Prop :=
  inv3 st ∧
  ((id goal ∉ st_visited st) → ∀ c, ¬ walk g (id start) (id goal) c) ∧
  (id goal ∈ st_visited st →
   ∃ x, last (st_explored_nodes st) = Some x ∧ id x = id goal).

Lemma inv3_init : inv3 (init_state alg start goal).
Proof.
  split; unfold init_state; simpl.
  - intros Ha e ->%list_elem_of_singleton. unfold node_of, key; simpl.
    exists 0%Q. rewrite lookup_singleton_eq. split; [done|]. rewrite Ha. simpl. lra.
  - intros Ha v d [<- <-]%lookup_singleton_Some _.
    exists (initial_priority alg start goal, 0%nat, start).
    split; [left|]. split; [done|]. unfold key; simpl. by rewrite Ha.
  - intros v p. by rewrite lookup_empty.
  - apply lookup_singleton_eq.
  - right. exists (initial_priority alg start goal, 0%nat, start). split; [left|done].
  - apply NoDup_singleton.
  - done.
  - intros v. rewrite list_elem_of_singleton. split.
    + by intros [d [<- _]%lookup_singleton_Some].
    + intros ->. rewrite lookup_singleton_eq. eauto.
  - apply NoDup_nil_2.
  - left. eauto.
Qed.

Lemma more_queued (st : state) (v : string) :
  inv1 alg g start st → inv3 st → is_Some (st_cost st !! v) →
  v ∈ st_visited st ∨ ∃ e, e ∈ st_pq st ∧ id (node_of e) = v.
Proof.
  intros I1 I3 [->|Hcf]%(inv_cost_dom alg g start st I1).
  - apply (more_start_queued st I3).
  - by apply (inv_pending alg g start st I1).
Qed.

Lemma more_empty (st : state) :
  inv1 alg g start st → at_head g goal st → more_head st → st_pq st = [] →
  more_exit st.
Proof.
  intros I1 [Hg _] [I3 Hcl] Hpq. split; [done|]. split; [|done].
  intros _ c Hw.
  assert (∀ v, is_Some (st_cost st !! v) → v ∈ st_visited st) as Hall.
  { intros v Hv. destruct (more_queued st v I1 I3 Hv) as [?|(e & He & _)]; [done|].
    rewrite Hpq in He. by apply elem_of_nil in He. }
  assert (id start ∈ st_visited st) as Hs.
  { apply Hall. rewrite (more_start st I3). eauto. }
  destruct (walk_crossing g _ _ _ _ Hw Hs Hg)
    as (x & y & w & c1 & c2 & _ & Hx & Hxy & Hy & _).
  apply Hy, Hall. apply (Hcl x) with w; [done| |done].
  intros E. apply Hg. by rewrite <- E.
Qed.

Lemma inv3_stale (st : state) (k : Q) (c : nat) (n : Node) (pq' : list entry) :
  inv1 alg g start st → inv3 st →
  heappop (st_pq st) = Some ((k, c, n), pq') → id n ∈ st_visited st →
  inv3 (set_pq pq' st).
Proof.
  intros I1 I3 Hpop Hv. pose proof (heappop_elem _ _ _ Hpop) as Hel.
  split; simpl; try apply I3.
  - intros Ha e He. apply (more_keys st I3 Ha), Hel. by right.
  - intros Ha v d Hd Hnv.
    destruct (more_frontier st I3 Ha v d Hd Hnv) as (e & He & Hid & Hk).
    exists e. split; [|done]. apply Hel in He as [->|He]; [|done].
    exfalso. apply Hnv. by rewrite <- Hid.
  - destruct (more_start_queued st I3) as [?|(e & He & Hid)]; [by left|].
    apply Hel in He as [->|He]; [left; by rewrite <- Hid|]. right. by exists e.
  - destruct (more_explored_start st I3) as [[He _]|?]; [|by right].
    exfalso. apply (inv_visited alg g start st I1) in Hv as (m & Hm & _).
    rewrite He in Hm. by apply elem_of_nil in Hm.
Qed.

Lemma more_stale (st : state) (k : Q) (c : nat) (n : Node) (pq' : list entry) :
  inv1 alg g start st → at_head g goal st → more_head st →
  heappop (st_pq st) = Some ((k, c, n), pq') → id n ∈ st_visited st →
  more_head (set_pq pq' st).
Proof.
  intros I1 _ [I3 Hcl] Hpop Hv. split; [by eapply inv3_stale|done].
Qed.

Lemma inv3_fresh (st : state) (k : Q) (c : nat) (n : Node) (pq' : list entry) :
  inv1 alg g start st → inv3 st →
  heappop (st_pq st) = Some ((k, c, n), pq') → id n ∉ st_visited st →
  inv3 (mark_visited n (set_pq pq' st)).
Proof.
  intros I1 I3 Hpop Hv. pose proof (heappop_elem _ _ _ Hpop) as Hel.
  assert ((k, c, n) ∈ st_pq st) as Hin by (apply Hel; by left).
  split; simpl; try apply I3.
  - intros Ha e He. apply (more_keys st I3 Ha), Hel. by right.
  - intros Ha v d Hd Hnv.
    destruct (more_frontier st I3 Ha v d Hd) as (e & He & Hid & Hk).
    { intros ?. apply Hnv, elem_of_union. by right. }
    exists e. split; [|done]. apply Hel in He as [->|He]; [|done].
    exfalso. apply Hnv, elem_of_union. left. by apply elem_of_singleton.
  - destruct (more_start_queued st I3) as [?|(e & He & Hid)].
    { left. apply elem_of_union. by right. }
    apply Hel in He as [->|He]; [|right; by exists e].
    left. apply elem_of_union. left. by apply elem_of_singleton.
  - rewrite map_app. apply NoDup_app. split; [apply I3|]. split.
    + intros v (m & -> & Hm)%list_elem_of_fmap E%list_elem_of_singleton.
      apply Hv. rewrite <- E. apply (inv_visited alg g start st I1). eauto.
    + apply NoDup_singleton.
  - right. destruct (more_explored_start st I3) as [[He [k0 Hpq]]|Hh].
    + rewrite He. simpl. rewrite Hpq in Hpop. simpl in Hpop. by injection Hpop as _ _ <- _.
    + destruct (st_explored_nodes st); [done|]. done.
Qed.

Lemma more_fresh (st : state) (k : Q) (c : nat) (n : Node) (pq' : list entry) :
  inv1 alg g start st → at_head g goal st → more_head st →
  heappop (st_pq st) = Some ((k, c, n), pq') → id n ∉ st_visited st →
  more_mid n k [] (mark_visited n (set_pq pq' st)).
Proof.
  intros I1 _ [I3 Hcl] Hpop Hv. split; [by eapply inv3_fresh|].
  pose proof (heappop_elem _ _ _ Hpop) as Hel.
  assert ((k, c, n) ∈ st_pq st) as Hin by (apply Hel; by left).
  split; [|split; [|split]]; simpl.
  - intros Ha. destruct (more_keys st I3 Ha _ Hin) as (d & Hd & Hle).
    destruct (more_frontier st I3 Ha _ d Hd Hv) as (e & He & Hid & Hk).
    pose proof (heappop_least _ _ _ Hpop e He) as Hmin.
    exists d. split; [done|]. unfold key in *; simpl in *. lra.
  - by rewrite last_snoc.
  - intros a [->%elem_of_singleton|Ha]%elem_of_union Hne Hng; [done|].
    by apply Hcl.
  - intros m w Hm. by apply elem_of_nil in Hm.
Qed.

Lemma more_goal (st : state) (n : Node) (k : Q) :
  inv1 alg g start st → more_mid n k [] st → id n = id goal →
  id n ∈ st_visited st → more_exit st.
Proof.
  intros _ (I3 & _ & Hlast & _) Hid Hv. split; [done|]. split.
  - intros Hg. exfalso. apply Hg. by rewrite <- Hid.
  - intros _. by exists n.
Qed.

Lemma more_done (st : state) (n : Node) (k : Q) :
  inv1 alg g start st → id n ∈ st_visited st →
  more_mid n k (neighbors g n) st → more_head st.
Proof.
  intros _ _ (I3 & _ & _ & Hcl & Hdone). split; [done|].
  intros a Ha Hng. destruct (decide (id a = id n)) as [E|E].
  - intros m w Hm. rewrite (neighbors_ext g a n E) in Hm. by eapply Hdone.
  - by apply Hcl.
Qed.

Lemma is_Some_insert (m : gmap string Q) (k v : string) (d : Q) :
  is_Some (m !! v) → is_Some (<[k := d]> m !! v).
Proof. intros H. apply lookup_insert_is_Some'. by right. Qed.

Lemma more_relax (n : Node) (k : Q) (done : list (Node * Q)) (nw : Node * Q)
    (rest : list (Node * Q)) (st st' : state) :
  done ++ nw :: rest = neighbors g n →
  inv1 alg g start st → id n ∈ st_visited st → more_mid n k done st →
  relax alg goal n k st nw = Returned st' →
  more_mid n k (done ++ [nw]) st'.
Proof.
  intros Hsplit I1 Hn (I3 & Hpop & Hlast & Hcl & Hdone) Hr.
  destruct nw as [m w].
  assert ((m, w) ∈ neighbors g n) as Hin.
  { rewrite <- Hsplit. apply elem_of_app. right. left. }
  destruct (relax_frame _ _ _ _ _ _ _ _ Hr) as (Hv & He & _).
  pose proof (relax_open _ _ _ _ _ _ _ _ Hr) as Hopen.
  assert (relax_skip st st' → is_Some (st_cost st !! id m) →
          more_mid n k (done ++ [(m, w)]) st') as Hskip.
  { intros (Hcnt & Hpq & Hc & Hcf & Ho) Hm.
    split; [|split; [|split; [|split]]].
    - destruct I3. split; rewrite ?Hv, ?He, ?Hpq, ?Hc, ?Hcf, ?Ho; done.
    - by rewrite Hc.
    - by rewrite He.
    - unfold expanded. rewrite Hv, Hc. apply Hcl.
    - rewrite Hc. intros m' w' [?|[= -> ->]%list_elem_of_singleton]%elem_of_app;
        [by eapply Hdone|done]. }
  apply relax_cases in Hr
    as [[Hmv Hs]|(Hnv & base & Hbase & [(d & Hd & _ & Hs)|[Hlt Hp]])].
  { apply Hskip; [done|]. by eapply inv1_visited_cost. }
  { apply Hskip; [done|]. rewrite Hd. eauto. }
  destruct Hp as (Hcnt & Hpq & Hc & Hcf).
  rewrite Hpq, length_app in Hopen. simpl in Hopen.
  specialize (Hopen ltac:(lia)).
  assert (id m ≠ id start) as Hms.
  { intros E. apply Hnv. rewrite E. by eapply inv1_start_visited. }
  assert (id m ≠ id n) as Hmn by (intros E; apply Hnv; by rewrite E).
  assert (∃ dn, st_cost st !! id n = Some dn ∧ (base == dn)%Q) as (dn & Hdn & Hbn).
  { destruct alg as [|h] eqn:Ea; simpl in Hbase.
    - injection Hbase as <-. destruct (Hpop eq_refl) as (d & Hd & Hdk).
      exists d. split; [done|]. by symmetry.
    - destruct (st_cost st !! id n) as [d|]; [|done]. injection Hbase as <-.
      by exists d. }
  split; [|split; [|split; [|split]]].
  - split; rewrite ?Hv, ?He, ?Hpq, ?Hc, ?Hcf, ?Hopen.
    + intros Ha e [He'| ->%list_elem_of_singleton]%elem_of_app.
      * destruct (more_keys st I3 Ha e He') as (d & Hd & Hle).
        rewrite lookup_insert. case_decide as Ev; [|by exists d].
        exists (base + w)%Q. split; [done|].
        rewrite <- Ev in Hd. specialize (Hlt d Hd). lra.
      * unfold node_of, key; simpl. rewrite lookup_insert_eq.
        exists (base + w)%Q. split; [done|]. rewrite Ha. simpl. lra.
    + intros Ha v d. rewrite lookup_insert. case_decide as Ev.
      * intros [= <-] _. subst v.
        exists (priority alg goal m (base + w), st_counter st, m).
        split; [apply elem_of_app; right; left|]. split; [done|].
        unfold key; simpl. by rewrite Ha.
      * intros Hd Hnv'. destruct (more_frontier st I3 Ha v d Hd Hnv')
          as (e & He' & Hid & Hk).
        exists e. split; [apply elem_of_app; by left|done].
    + intros v p. rewrite lookup_insert. case_decide as Ev.
      * intros [= <-]. subst v. exists m, w, dn, (base + w)%Q.
        split; [done|]. split; [done|].
        rewrite lookup_insert_ne by done. split; [done|].
        rewrite lookup_insert_eq. split; [done|]. lra.
      * intros Hp. destruct (more_tree st I3 v p Hp)
          as (n' & w' & dp & dv & H1 & H2 & H3 & H4 & H5).
        exists n', w', dp, dv. split; [done|]. split; [done|].
        destruct (inv_came_from alg g start st I1 v p Hp) as (Hpv & _).
        rewrite !lookup_insert_ne; [done|done|].
        intros E. apply Hnv. by rewrite E.
    + rewrite lookup_insert_ne by done. apply I3.
    + destruct (more_start_queued st I3) as [?|(e & He' & Hid)]; [by left|].
      right. exists e. split; [apply elem_of_app; by left|done].
    + destruct (node_in m (st_open_set_nodes st)) eqn:Em; [apply I3|].
      rewrite map_app. apply NoDup_app. split; [apply I3|]. split.
      * intros v Hv' ->%list_elem_of_singleton. by apply node_in_false in Em.
      * apply NoDup_singleton.
    + pose proof (more_open_start st I3) as Hh.
      destruct (node_in m (st_open_set_nodes st)); [done|].
      by destruct (st_open_set_nodes st).
    + intros v. rewrite lookup_insert_is_Some', (more_open_cost st I3).
      destruct (node_in m (st_open_set_nodes st)) eqn:Em.
      * split; [|by right]. intros [<-|?]; [|done].
        apply node_in_true in Em as (y & Hy & Hid). apply list_elem_of_fmap. eauto.
      * rewrite map_app, elem_of_app. simpl. rewrite list_elem_of_singleton.
        split; intros [?|?]; eauto.
    + apply I3.
    + right. destruct (more_explored_start st I3) as [[Hex _]|?]; [|done].
      rewrite Hex in Hlast. done.
  - intros Ha. rewrite Hc, lookup_insert_ne by done. by apply Hpop.
  - by rewrite He.
  - intros a Ha H1 H2 m' w' Hm'. rewrite Hc. apply is_Some_insert.
    rewrite Hv in Ha. by eapply Hcl.
  - rewrite Hc. intros m' w' [?|[= -> ->]%list_elem_of_singleton]%elem_of_app.
    + apply is_Some_insert. by eapply Hdone.
    + rewrite lookup_insert_eq. eauto.
Qed.

(** The loop of a search returns, and leaves a state in which [inv1],
    [at_exit] and [more_exit] hold. *)
Lemma search_loop_more :
  ∃ st, search_loop alg g goal (search_fuel g) (init_state alg start goal)
          = Returned st ∧
        inv1 alg g start st ∧ at_exit g goal st ∧ more_exit st.
Proof.
  apply (search_loop_rule alg g start goal more_head more_exit more_mid
           more_empty more_stale more_fresh more_goal more_relax more_done).
  - apply inv1_init.
  - split; simpl; [apply not_elem_of_empty|done].
  - split; [apply inv3_init|]. intros a Ha. simpl in Ha.
    by apply not_elem_of_empty in Ha.
  - apply measure_init.
Qed.
End Bookkeeping.

(** *** The cost of a route *)

(** [route_cost g p c]: every node of the list [p] is followed by one of its
    neighbours, and the weights of the adjacency entries taken add up to
    [c]. *)
Inductive route_cost (g : Graph) : list Node → Q → Prop :=
  | route_cost_end (a : Node) : route_cost g [a] 0
  | route_cost_step (a n b : Node) (w : Q) (l : list Node) (c : Q) :
      (n, w) ∈ neighbors g a → id n = id b →
      route_cost g (b :: l) c → route_cost g (a :: b :: l) (w + c).

Lemma route_cost_snoc (g : Graph) (p : list Node) (x b n : Node) (w c : Q) :
  route_cost g p c → last p = Some x → (n, w) ∈ neighbors g x → id n = id b →
  ∃ c', route_cost g (p ++ [b]) c' ∧ (c' == c + w)%Q.
Proof.
  intros Hp. revert x. induction Hp as [a|a n0 b0 w0 l c0 Hn0 Hid0 Hp IH];
    intros x Hx Hn Hid.
  - injection Hx as <-. exists (w + 0)%Q. split; [|lra].
    apply (route_cost_step g a n b); [done|done|apply route_cost_end].
  - destruct (IH x) as (c' & Hc' & Ec); [done|done|done|].
    exists (w0 + c')%Q. split; [|lra].
    by apply (route_cost_step g a n0 b0).
Qed.

Section Reports.
Context (alg : algo) (g : Graph) (start goal : Node).

(** The parent links from a node back to the start spell a route whose cost
    is the cost recorded for the node. *)
Lemma chain_cost (st : state) (current : Node) (l : list Node) :
  inv1 alg g start st → inv3 alg g start st →
  back_chain start (st_came_from st) current l →
  ∃ d c, st_cost st !! id current = Some d ∧
         route_cost g (rev (l ++ [start])) c ∧ (c == d)%Q.
Proof.
  intros I1 I3 Hc. induction Hc as [cur E|cur p l Hne Hp Hc IH].
  - exists 0%Q, 0%Q. rewrite E, (more_start alg g start st I3).
    split; [done|]. split; [apply route_cost_end|done].
  - destruct IH as (dp & c & Hdp & Hrc & Ec).
    destruct (back_chain_path alg g start st p l I1 Hc) as (_ & _ & x & Hx & Hxp & _).
    destruct (more_tree alg g start st I3 _ _ Hp)
      as (n & w & dp' & dv & Hn & Hid & Hdp' & Hdv & Edv).
    rewrite Hdp in Hdp'. injection Hdp' as <-.
    rewrite <- (neighbors_ext g x p Hxp) in Hn.
    destruct (route_cost_snoc g _ x cur n w c Hrc Hx Hn Hid) as (c' & Hc' & Ec').
    exists dv, c'. split; [done|]. simpl. rewrite rev_app_distr in *. simpl in *.
    split; [done|]. lra.
Qed.

(** The nodes on the parent links were explored, each at an earlier turn
    than the one before it on the chain. *)
Lemma chain_simple (st : state) (current : Node) (l : list Node) :
  inv1 alg g start st → inv3 alg g start st →
  back_chain start (st_came_from st) current l →
  ∀ i n, st_explored_nodes st !! i = Some n → id n = id current →
    (∀ x, x ∈ l → id x ≠ id start ∧
       ∃ j m, (j ≤ i)%nat ∧ st_explored_nodes st !! j = Some m ∧ id m = id x) ∧
    NoDup (map id l).
Proof.
  intros I1 I3 Hc. induction Hc as [cur E|cur p l Hne Hp Hc IH]; intros i n Hi Hid.
  { split; [|apply NoDup_nil_2]. intros x Hx. by apply elem_of_nil in Hx. }
  destruct (inv_order alg g start st I1 i n Hi) as (p' & j & m & Hp' & Hj & Hm & Hmp);
    [by rewrite Hid|].
  rewrite Hid, Hp in Hp'. injection Hp' as <-.
  destruct (IH j m Hm Hmp) as [Hall Hnd]. split.
  - intros x [->|Hx]%elem_of_cons.
    + split; [done|]. exists i, n. split; [lia|done].
    + destruct (Hall x Hx) as (Hxs & j' & m' & Hj' & Hm' & Hid').
      split; [done|]. exists j', m'. split; [lia|done].
  - simpl. apply NoDup_cons. split; [|done].
    intros (x & Hidx & Hx)%list_elem_of_fmap.
    destruct (Hall x Hx) as (_ & j' & m' & Hj' & Hm' & Hid').
    assert (j' = i); [|lia].
    apply (proj1 (NoDup_alt _) (more_explored_distinct alg g start st I3) j' i (id n)).
    + rewrite list_lookup_fmap, Hm'. simpl. congruence.
    + by rewrite list_lookup_fmap, Hi.
Qed.

(** A search between two different nodes, from its loop to its result. *)
Lemma run_more (name : string) (elapsed : N) :
  id start ≠ id goal →
  ∃ st,
    inv1 alg g start st ∧ inv3 alg g start st ∧
    (((id goal ∉ st_visited st) ∧
      (∀ c, ¬ walk g (id start) (id goal) c) ∧
      run alg name g start goal elapsed
        = Returned (failed (no_path_message start goal)))
     ∨
     (∃ d l x, st_cost st !! id goal = Some d ∧
        id goal ∈ st_visited st ∧
        last (st_explored_nodes st) = Some x ∧ id x = id goal ∧
        back_chain start (st_came_from st) goal l ∧
        run alg name g start goal elapsed =
          if Qltb d 0 then Raised (ValueError "Distance cannot be negative")
          else Returned (succeeded
                 (mkRoute (rev (l ++ [start])) d name (Z.of_N elapsed)
                    (Z.of_nat (length (st_explored_nodes st)))
                    (st_explored_nodes st) (st_open_set_nodes st)
                    (st_explored_edges st))))).
Proof.
  intros Hne. unfold run.
  destruct (search_loop_more alg g start goal) as (st & -> & I1 & Hex & I3 & Hno & Hlast).
  cbn [mbind outcome_bind]. exists st. split; [done|]. split; [done|].
  destruct (finish_cases alg g start goal name elapsed st I1 Hex)
    as [[Hcf ->]|(d & l & Hd & _ & Hv & Hc & ->)]; [done| |].
  - left. assert (id goal ∉ st_visited st) as Hg.
    { intros Hv. apply (inv_visited alg g start st I1) in Hv as (n & Hn & Hid).
      apply list_elem_of_lookup in Hn as [i Hi].
      destruct (inv_order alg g start st I1 i n Hi) as (p & _ & _ & Hp & _);
        [by rewrite Hid|].
      rewrite Hid in Hp. congruence. }
    split; [done|]. split; [by apply Hno|done].
  - right. destruct (Hlast Hv) as (x & Hx & Hid). by exists d, l, x.
Qed.
End Reports.

(** What stands behind a successful result of either search. *)
Lemma search_report (g : Graph) (start goal : Node)
    (h : option (Node → Node → Q)) (elapsed : N)
    (r : PathfindingResult) (rt : Route) :
  dijkstra g start goal elapsed = Returned r ∨
  astar g start goal h elapsed = Returned r →
  success r = true → route r = Some rt →
  (node_eqb start goal = true ∧
   ∃ name, rt = mkRoute [start] 0 name (Z.of_N elapsed) 1 [start] [start] []) ∨
  (id start ≠ id goal ∧
   ∃ alg st l x,
     inv1 alg g start st ∧ inv3 alg g start st ∧
     id goal ∈ st_visited st ∧
     last (st_explored_nodes st) = Some x ∧ id x = id goal ∧
     st_cost st !! id goal = Some (total_distance rt) ∧
     (0 <= total_distance rt)%Q ∧
     back_chain start (st_came_from st) goal l ∧
     path rt = rev (l ++ [start]) ∧
     explored_nodes rt = st_explored_nodes st ∧
     open_set_nodes rt = st_open_set_nodes st ∧
     nodes_explored rt = Z.of_nat (length (st_explored_nodes st))).
Proof.
  intros Hr Hok Hrt.
  destruct (search_success g start goal h elapsed r Hr Hok)
    as [[Eq [name Ht]]|[Hne (alg & name & Hrun)]].
  - left. split; [done|]. exists name.
    rewrite trivial_route_returns in Ht. injection Ht as <-.
    simpl in Hrt. by injection Hrt as <-.
  - right. split; [done|].
    destruct (run_more alg g start goal name elapsed Hne)
      as (st & I1 & I3 & [(_ & _ & Hf)|(d & l & x & Hd & Hv & Hx & Hid & Hc & Hs)]).
    + rewrite Hf in Hrun. injection Hrun as <-. done.
    + rewrite Hs in Hrun. destruct (Qltb d 0) eqn:Ed; [done|].
      injection Hrun as <-. simpl in Hrt. injection Hrt as <-. simpl.
      apply Qltb_false in Ed.
      exists alg, st, l, x. split_and!; done.
Qed.

Lemma search_present (g : Graph) (start goal : Node)
    (h : option (Node → Node → Q)) (elapsed : N) (r : PathfindingResult) :
  dijkstra g start goal elapsed = Returned r ∨
  astar g start goal h elapsed = Returned r →
  success r = true → present g start ∧ present g goal.
Proof.
  unfold present, dijkstra, astar. intros Hr Hok.
  destruct (node_in start (nodes g)); cbn [negb] in Hr.
  2:{ rewrite !PathfindingResult_failed in Hr.
      destruct Hr as [[= <-]|[= <-]]; done. }
  destruct (node_in goal (nodes g)); cbn [negb] in Hr; [done|].
  rewrite !PathfindingResult_failed in Hr.
  destruct Hr as [[= <-]|[= <-]]; done.
Qed.

(** X15.  In every successful result of either search, on every graph and
    for every heuristic, the total distance is not negative.  When the
    weights of the graph are added without rounding (they are multiples of
    one power of two, [2^-m] with [m] at most 1000, and their absolute values
    add up to at most [2^53] such steps), the total distance is the cost of
    the path returned: the path can be followed along adjacency entries
    whose weights add up to it. *)
Theorem total_distance_is_path_cost (m : nat) (g : Graph) (start goal : Node)
    (h : option (Node → Node → Q)) (elapsed : N)
    (r : PathfindingResult) (rt : Route) :
  dijkstra g start goal elapsed = Returned r ∨
  astar g start goal h elapsed = Returned r →
  success r = true → route r = Some rt →
  (exact_weights m g →
   ∃ c, route_cost g (path rt) c ∧ (c == total_distance rt)%Q) ∧
  (0 <= total_distance rt)%Q.
Proof.
  intros Hr Hok Hrt.
  destruct (search_report g start goal h elapsed r rt Hr Hok Hrt)
    as [[_ [name ->]]|[_ (alg & st & l & x & I1 & I3 & _ & _ & _ & Hd & Hpos & Hc & -> & _)]];
    simpl.
  - split; [|done]. intros _. exists 0%Q. split; [apply route_cost_end|done].
  - split; [|done]. intros _.
    destruct (chain_cost alg g start st goal l I1 I3 Hc) as (d & c & Hd' & Hrc & Ec).
    rewrite Hd in Hd'. injection Hd' as <-. by exists c.
Qed.

Lemma total_distance_is_path_cost_witness :
  ∃ rt, dijkstra known_shortest_path node_a node_f 0 = Returned (succeeded rt) ∧
    (∃ c, route_cost known_shortest_path (path rt) c ∧ (c == total_distance rt)%Q) ∧
    (0 <= total_distance rt)%Q.
Proof.
  destruct known_shortest_path_dijkstra as (rt & Hr & _).
  exists rt. split; [done|].
  destruct (total_distance_is_path_cost 0 known_shortest_path node_a node_f
              None 0 (succeeded rt) rt) as [Hcost Hpos]; [by left|done|done|].
  split; [|done]. apply Hcost. by apply exact_weightsb_sound.
Defined.

(** X16.  In every successful result of either search the explored nodes
    have pairwise different identifiers, the first of them is the start
    node, the last of them equals the goal, and [nodes_explored] is their
    number. *)
Theorem explored_nodes_are_distinct (g : Graph) (start goal : Node)
    (h : option (Node → Node → Q)) (elapsed : N)
    (r : PathfindingResult) (rt : Route) :
  dijkstra g start goal elapsed = Returned r ∨
  astar g start goal h elapsed = Returned r →
  success r = true → route r = Some rt →
  NoDup (map id (explored_nodes rt)) ∧
  head (explored_nodes rt) = Some start ∧
  (∃ x, last (explored_nodes rt) = Some x ∧ id x = id goal) ∧
  nodes_explored rt = Z.of_nat (length (explored_nodes rt)).
Proof.
  intros Hr Hok Hrt.
  destruct (search_report g start goal h elapsed r rt Hr Hok Hrt)
    as [[Eq [name ->]]|[_ (alg & st & l & x & I1 & I3 & Hv & Hx & Hid & _ & _ & _ & _ & -> & _ & ->)]];
    simpl.
  - split; [apply NoDup_singleton|]. split; [done|]. split; [|done].
    exists start. split; [done|]. by apply node_eqb_true.
  - split; [apply (more_explored_distinct alg g start st I3)|].
    split; [|split; [by exists x|done]].
    destruct (more_explored_start alg g start st I3) as [[He _]|?]; [|done].
    by rewrite He in Hx.
Qed.

Lemma explored_nodes_are_distinct_witness :
  ∃ rt, dijkstra known_shortest_path node_a node_f 0 = Returned (succeeded rt) ∧
    NoDup (map id (explored_nodes rt)) ∧
    head (explored_nodes rt) = Some node_a ∧
    (∃ x, last (explored_nodes rt) = Some x ∧ id x = id node_f) ∧
    nodes_explored rt = Z.of_nat (length (explored_nodes rt)).
Proof.
  destruct known_shortest_path_dijkstra as (rt & Hr & _).
  exists rt. split; [done|].
  apply (explored_nodes_are_distinct known_shortest_path node_a node_f
           None 0 (succeeded rt) rt); [by left|done|done].
Defined.

Lemma explored_present (alg : algo) (g : Graph) (start : Node) (st : state) :
  closed g → present g start → inv1 alg g start st →
  ∀ n, n ∈ st_explored_nodes st → id n ∈ map id (nodes g).
Proof.
  intros Hcl Hs I1 n Hn.
  assert (∀ m, present g m → id m ∈ map id (nodes g)) as Hp.
  { intros m (y & Hy & Hid)%node_in_true. rewrite <- Hid.
    apply list_elem_of_fmap. eauto. }
  destruct (decide (id n = id start)) as [E|E]; [rewrite E; by apply Hp|].
  apply list_elem_of_lookup in Hn as [i Hi].
  destruct (inv_order alg g start st I1 i n Hi E) as (p & _ & _ & Hcf & _).
  destruct (inv_came_from alg g start st I1 _ _ Hcf) as (_ & _ & m & w & Hm & Hid).
  rewrite <- Hid. apply Hp. by eapply Hcl.
Qed.

(** X17.  On a graph in which every edge leads to a node of the graph, as
    in every graph made with [add_edge], a successful search has explored
    at most as many nodes as the graph has. *)
Theorem nodes_explored_at_most_all (g : Graph) (start goal : Node)
    (h : option (Node → Node → Q)) (elapsed : N)
    (r : PathfindingResult) (rt : Route) :
  closed g →
  dijkstra g start goal elapsed = Returned r ∨
  astar g start goal h elapsed = Returned r →
  success r = true → route r = Some rt →
  (nodes_explored rt <= Z.of_nat (length (nodes g)))%Z.
Proof.
  intros Hcl Hr Hok Hrt.
  destruct (search_present g start goal h elapsed r Hr Hok) as [Hs _].
  destruct (search_report g start goal h elapsed r rt Hr Hok Hrt)
    as [[Eq [name ->]]|[_ (alg & st & l & x & I1 & I3 & _ & _ & _ & _ & _ & _ & _ & _ & _ & ->)]];
    simpl.
  - apply node_in_true in Hs as (y & Hy & _).
    destruct (nodes g); [by apply elem_of_nil in Hy|]. simpl. lia.
  - apply inj_le. rewrite <- (length_map id (nodes g)),
      <- (length_map id (st_explored_nodes st)).
    apply submseteq_length, NoDup_submseteq;
      [apply (more_explored_distinct alg g start st I3)|].
    intros v (n & -> & Hn)%list_elem_of_fmap.
    by eapply explored_present.
Qed.

Lemma nodes_explored_at_most_all_witness :
  ∃ rt, dijkstra known_shortest_path node_a node_f 0 = Returned (succeeded rt) ∧
    (nodes_explored rt <= Z.of_nat (length (nodes known_shortest_path)))%Z.
Proof.
  destruct known_shortest_path_dijkstra as (rt & Hr & _).
  exists rt. split; [done|].
  apply (nodes_explored_at_most_all known_shortest_path node_a node_f
           None 0 (succeeded rt) rt); [|by left|done|done].
  apply built_invariants, known_shortest_path_built.
Defined.

(** X18.  In every successful result of either search no two nodes of the
    path have the same identifier, and every node of the path is among the
    explored nodes. *)
Theorem path_is_simple_and_explored (g : Graph) (start goal : Node)
    (h : option (Node → Node → Q)) (elapsed : N)
    (r : PathfindingResult) (rt : Route) :
  dijkstra g start goal elapsed = Returned r ∨
  astar g start goal h elapsed = Returned r →
  success r = true → route r = Some rt →
  NoDup (map id (path rt)) ∧
  ∀ x, x ∈ path rt → node_in x (explored_nodes rt) = true.
Proof.
  intros Hr Hok Hrt.
  destruct (search_report g start goal h elapsed r rt Hr Hok Hrt)
    as [[Eq [name ->]]|[_ (alg & st & l & x & I1 & I3 & Hv & Hx & Hid & _ & _ & Hc & -> & -> & _)]];
    simpl.
  - split; [apply NoDup_singleton|].
    intros y ->%list_elem_of_singleton. unfold node_in; simpl.
    by rewrite (proj2 (node_eqb_true start start)).
  - apply last_Some in Hx as [l' Hl'].
    assert (st_explored_nodes st !! length l' = Some x) as Hi.
    { rewrite Hl'. by apply list_lookup_middle. }
    destruct (chain_simple alg g start st goal l I1 I3 Hc _ x Hi Hid) as [Hall Hnd].
    split.
    + rewrite <- Permutation_rev, map_app. apply NoDup_app.
      split; [done|]. split; [|apply NoDup_singleton].
      intros v (y & -> & Hy)%list_elem_of_fmap E%list_elem_of_singleton.
      by destruct (Hall y Hy) as [Hne _].
    + intros y Hy. rewrite <- Permutation_rev in Hy.
      apply elem_of_app in Hy as [Hy| ->%list_elem_of_singleton].
      * destruct (Hall y Hy) as (_ & j & m & _ & Hm & Hidm).
        apply node_in_true. exists m. split; [|done].
        by eapply list_elem_of_lookup_2.
      * pose proof (inv1_start_visited alg g start st _ I1 Hv) as Hs.
        apply (inv_visited alg g start st I1) in Hs as (n & Hn & Hidn).
        apply node_in_true. by exists n.
Qed.

Lemma path_is_simple_and_explored_witness :
  ∃ rt, dijkstra known_shortest_path node_a node_f 0 = Returned (succeeded rt) ∧
    NoDup (map id (path rt)) ∧
    ∀ x, x ∈ path rt → node_in x (explored_nodes rt) = true.
Proof.
  destruct known_shortest_path_dijkstra as (rt & Hr & _).
  exists rt. split; [done|].
  apply (path_is_simple_and_explored known_shortest_path node_a node_f
           None 0 (succeeded rt) rt); [by left|done|done].
Defined.

(** X19.  In every successful result of either search the open-set nodes
    have pairwise different identifiers, the first of them is the start
    node, and every explored node is among them. *)
Theorem open_set_holds_explored_nodes (g : Graph) (start goal : Node)
    (h : option (Node → Node → Q)) (elapsed : N)
    (r : PathfindingResult) (rt : Route) :
  dijkstra g start goal elapsed = Returned r ∨
  astar g start goal h elapsed = Returned r →
  success r = true → route r = Some rt →
  NoDup (map id (open_set_nodes rt)) ∧
  head (open_set_nodes rt) = Some start ∧
  ∀ x, x ∈ explored_nodes rt → node_in x (open_set_nodes rt) = true.
Proof.
  intros Hr Hok Hrt.
  destruct (search_report g start goal h elapsed r rt Hr Hok Hrt)
    as [[Eq [name ->]]|[_ (alg & st & l & x & I1 & I3 & _ & _ & _ & _ & _ & _ & _ & -> & -> & _)]];
    simpl.
  - split; [apply NoDup_singleton|]. split; [done|].
    intros y ->%list_elem_of_singleton. unfold node_in; simpl.
    by rewrite (proj2 (node_eqb_true start start)).
  - split; [apply (more_open_distinct alg g start st I3)|].
    split; [apply (more_open_start alg g start st I3)|].
    intros y Hy.
    assert (id y ∈ st_visited st) as Hv.
    { apply (inv_visited alg g start st I1). eauto. }
    apply (inv1_visited_cost alg g start st _ I1) in Hv.
    apply (more_open_cost alg g start st I3) in Hv
      as (m & Hid & Hm)%list_elem_of_fmap.
    apply node_in_true. by exists m.
Qed.

Lemma open_set_holds_explored_nodes_witness :
  ∃ rt, dijkstra known_shortest_path node_a node_f 0 = Returned (succeeded rt) ∧
    NoDup (map id (open_set_nodes rt)) ∧
    head (open_set_nodes rt) = Some node_a ∧
    ∀ x, x ∈ explored_nodes rt → node_in x (open_set_nodes rt) = true.
Proof.
  destruct known_shortest_path_dijkstra as (rt & Hr & _).
  exists rt. split; [done|].
  apply (open_set_holds_explored_nodes known_shortest_path node_a node_f
           None 0 (succeeded rt) rt); [by left|done|done].
Defined.

(** *** Failure, success and exceptions *)

(** A search that fails has no path to find. *)
Lemma run_failed (alg : algo) (name : string) (g : Graph) (start goal : Node)
    (elapsed : N) (r : PathfindingResult) :
  id start ≠ id goal →
  run alg name g start goal elapsed = Returned r → success r = false →
  ∀ c, ¬ walk g (id start) (id goal) c.
Proof.
  intros Hne Hr Hf.
  destruct (run_more alg g start goal name elapsed Hne)
    as (st & _ & _ & [(_ & Hno & _)|(d & l & x & _ & _ & _ & _ & _ & Hs)]); [done|].
  rewrite Hs in Hr. destruct (Qltb d 0); [done|]. by injection Hr as <-.
Qed.

(** Over non-negative weights a search finds a goal that can be reached,
    whatever the heuristic. *)
Lemma run_reachable (alg : algo) (name : string) (g : Graph) (start goal : Node)
    (elapsed : N) (c : Q) :
  (∀ a n w, (n, w) ∈ neighbors g a → (0 <= w)%Q) →
  id start ≠ id goal → walk g (id start) (id goal) c →
  ∃ rt, run alg name g start goal elapsed = Returned (succeeded rt).
Proof.
  intros Hw Hne Hc.
  destruct (run_more alg g start goal name elapsed Hne)
    as (st & I1 & _ & [(_ & Hno & _)|(d & l & x & Hd & _ & _ & _ & _ & ->)]).
  { by apply Hno in Hc. }
  destruct (inv_cost_walk alg g start st I1 _ _ Hd) as (c' & Hc' & Ec).
  pose proof (walk_nonneg g _ _ _ Hw Hc') as Hpos.
  assert (Qltb d 0 = false) as -> by (apply Qltb_false; lra). eauto.
Qed.

Lemma walk_negative (g : Graph) (u v : string) (c : Q) :
  walk g u v c → (c < 0)%Q → ∃ a n w, (n, w) ∈ neighbors g a ∧ (w < 0)%Q.
Proof.
  intros Hp. induction Hp as [|a n w v c Hin Hp IH]; intros Hc; [lra|].
  destruct (Qlt_le_dec w 0) as [Hw|Hw]; [by exists a, n, w|].
  apply IH. lra.
Qed.

(** A search comes to an end without a [KeyError], and when it raises the
    [ValueError] of a negative distance, the goal can be reached from the
    start and some weight of the graph is negative. *)
Definition raises_no_key_error (g : Graph) (start goal : Node)
    (o : outcome PathfindingResult) : Prop :=
  match o with
  | Returned _ => True
  | Raised e =>
      e ≠ KeyError ∧
      (e = ValueError "Distance cannot be negative" →
       (∃ c, walk g (id start) (id goal) c) ∧
       ∃ a n w, (n, w) ∈ neighbors g a ∧ (w < 0)%Q)
  | OutOfFuel => False
  end.

Lemma run_outcome (alg : algo) (name : string) (g : Graph) (start goal : Node)
    (elapsed : N) :
  id start ≠ id goal →
  raises_no_key_error g start goal (run alg name g start goal elapsed).
Proof.
  intros Hne.
  destruct (run_more alg g start goal name elapsed Hne)
    as (st & I1 & _ & [(_ & _ & ->)|(d & l & x & Hd & _ & _ & _ & _ & ->)]);
    [done|].
  destruct (Qltb d 0) eqn:Ed; [|done]. apply Qltb_true in Ed.
  split; [done|]. intros _.
  destruct (inv_cost_walk alg g start st I1 _ _ Hd) as (c & Hc & Ec).
  split; [by exists c|]. apply (walk_negative g _ _ c Hc). lra.
Qed.

(** X20.  When a search between two nodes of the graph returns a failed
    result, the nodes are different and no sequence of adjacency entries
    leads from the start to the goal; this holds on every graph and, for
    [astar], for every callable heuristic. *)
Theorem failed_search_means_no_path (g : Graph) (start goal : Node)
    (h : Node → Node → Q) (elapsed : N) (r : PathfindingResult) :
  present g start → present g goal →
  dijkstra g start goal elapsed = Returned r ∨
  astar g start goal (Some h) elapsed = Returned r →
  success r = false →
  id start ≠ id goal ∧ ∀ c, ¬ walk g (id start) (id goal) c.
Proof.
  intros Hs Hg Hr Hf.
  destruct (node_eqb start goal) eqn:Eq.
  { destruct (search_of_equal_nodes g start goal h elapsed Hs Eq)
      as (rt1 & rt2 & H1 & _ & _ & H2 & _).
    rewrite H1, H2 in Hr. by destruct Hr as [[= <-]|[= <-]]. }
  apply node_eqb_false in Eq. split; [done|].
  rewrite dijkstra_run, astar_run in Hr by done.
  destruct Hr as [Hr|Hr]; by eapply run_failed.
Qed.

Lemma failed_search_means_no_path_witness :
  id (at_origin "A") ≠ id (at_origin "B") ∧
  ∀ c, ¬ walk two_isolated (id (at_origin "A")) (id (at_origin "B")) c.
Proof.
  apply (failed_search_means_no_path two_isolated (at_origin "A") (at_origin "B")
           zero_heuristic 0 (failed "No path found from A to B"));
    [reflexivity|reflexivity|left; reflexivity|reflexivity].
Defined.

(** X21.  On a graph without negative weights, whenever some sequence of
    adjacency entries leads from the start to the goal, both present in the
    graph, [dijkstra] succeeds and [astar] succeeds as well, whatever the
    heuristic it is given estimates. *)
Theorem reachable_goal_is_found (g : Graph) (start goal : Node)
    (h : Node → Node → Q) (elapsed : N) (c : Q) :
  (∀ a n w, (n, w) ∈ neighbors g a → (0 <= w)%Q) →
  present g start → present g goal →
  walk g (id start) (id goal) c →
  ∃ rt1 rt2,
    dijkstra g start goal elapsed = Returned (succeeded rt1) ∧
    astar g start goal (Some h) elapsed = Returned (succeeded rt2).
Proof.
  intros Hw Hs Hg Hc.
  destruct (node_eqb start goal) eqn:Eq.
  { destruct (search_of_equal_nodes g start goal h elapsed Hs Eq)
      as (rt1 & rt2 & H1 & _ & _ & H2 & _). by exists rt1, rt2. }
  apply node_eqb_false in Eq. rewrite dijkstra_run, astar_run by done.
  destruct (run_reachable Dijkstra "Dijkstra" g start goal elapsed c Hw Eq Hc)
    as [rt1 H1].
  destruct (run_reachable (AStar h) "A*" g start goal elapsed c Hw Eq Hc)
    as [rt2 H2].
  by exists rt1, rt2.
Qed.

(** An estimate that grows with the identifier of the node, to stand for a
    heuristic that is neither admissible nor consistent. *)
Definition misleading (a b : Node) : Q :=
  inject_Z (Z.of_nat (String.length (id a))) * 1000.

Lemma reachable_goal_is_found_witness :
  ∃ rt1 rt2,
    dijkstra known_shortest_path node_a node_f 0 = Returned (succeeded rt1) ∧
    astar known_shortest_path node_a node_f (Some misleading) 0
      = Returned (succeeded rt2).
Proof.
  apply (reachable_goal_is_found known_shortest_path node_a node_f misleading 0
           (2 + (1 + (2 + 0)))).
  - intros a n w Hn. apply Qlt_le_weak.
    by apply (positive_weightsb_sound known_shortest_path eq_refl a n w).
  - reflexivity.
  - reflexivity.
  - apply (walk_cons known_shortest_path node_a node_d);
      [apply list_elem_of_In; simpl; tauto|].
    apply (walk_cons known_shortest_path node_d node_e);
      [apply list_elem_of_In; simpl; tauto|].
    apply (walk_cons known_shortest_path node_e node_f);
      [apply list_elem_of_In; simpl; tauto|].
    apply walk_nil.
Defined.

(** X22.  Neither search runs on for ever: the main loop of each comes to
    an end within the iterations counted for it, on every graph and for
    every heuristic.  Neither raises a [KeyError]: every dictionary is read
    at a key it holds.  And when the [ValueError] of [Route] for a negative
    total distance is raised, the goal can be reached from the start along
    adjacency entries and some weight of the graph is negative. *)
Theorem searches_raise_no_key_error (g : Graph) (start goal : Node)
    (h : option (Node → Node → Q)) (elapsed : N) :
  raises_no_key_error g start goal (dijkstra g start goal elapsed) ∧
  raises_no_key_error g start goal (astar g start goal h elapsed).
Proof.
  unfold dijkstra, astar.
  destruct (node_in start (nodes g)); cbn [negb]; [|done].
  destruct (node_in goal (nodes g)); cbn [negb]; [|done].
  destruct (node_eqb start goal) eqn:Eq.
  - rewrite !trivial_route_returns. by destruct h.
  - apply node_eqb_false in Eq. split.
    + by apply (run_outcome Dijkstra "Dijkstra").
    + destruct h as [h|]; [|done]. by apply (run_outcome (AStar h) "A*").
Qed.

(** X23.  On a graph without negative weights and for two nodes of the
    graph, [is_connected] answers [True] exactly when [dijkstra] succeeds,
    and exactly when [astar] does, whatever the heuristic. *)
Theorem connected_iff_search_succeeds (g : Graph) (start goal : Node)
    (h : Node → Node → Q) (elapsed : N) :
  (∀ a n w, (n, w) ∈ neighbors g a → (0 <= w)%Q) →
  present g start → present g goal →
  (is_connected g start goal = Returned true ↔
   ∃ rt, dijkstra g start goal elapsed = Returned (succeeded rt)) ∧
  (is_connected g start goal = Returned true ↔
   ∃ rt, astar g start goal (Some h) elapsed = Returned (succeeded rt)).
Proof.
  intros Hw Hs Hg. rewrite is_connected_true.
  assert (∀ r, dijkstra g start goal elapsed = Returned r ∨
               astar g start goal (Some h) elapsed = Returned r →
               success r = true → ∃ c, walk g (id start) (id goal) c) as Hback.
  { intros r Hr Hok.
    destruct (search_success g start goal (Some h) elapsed r Hr Hok)
      as [[Eq _]|[Hne (alg & name & Hrun)]].
    - apply node_eqb_true in Eq. exists 0%Q. rewrite <- Eq. apply walk_nil.
    - destruct (run_success alg name g start goal elapsed r Hne Hrun Hok)
        as (st & d & l & _ & I1 & _ & Hd & _).
      destruct (inv_cost_walk alg g start st I1 _ _ Hd) as (c & Hc & _). eauto. }
  assert ((∃ c, walk g (id start) (id goal) c) → ∃ rt1 rt2,
    dijkstra g start goal elapsed = Returned (succeeded rt1) ∧
    astar g start goal (Some h) elapsed = Returned (succeeded rt2)) as Hforth.
  { intros [c Hc].
    destruct (node_eqb start goal) eqn:Eq.
    { destruct (search_of_equal_nodes g start goal h elapsed Hs Eq)
        as (rt1 & rt2 & H1 & _ & _ & H2 & _). by exists rt1, rt2. }
    apply node_eqb_false in Eq. rewrite dijkstra_run, astar_run by done.
    destruct (run_reachable Dijkstra "Dijkstra" g start goal elapsed c Hw Eq Hc)
      as [rt1 H1].
    destruct (run_reachable (AStar h) "A*" g start goal elapsed c Hw Eq Hc)
      as [rt2 H2].
    by exists rt1, rt2. }
  split; split.
  - intros Hc. destruct (Hforth Hc) as (rt1 & _ & H1 & _). eauto.
  - intros [rt Hr]. apply (Hback (succeeded rt)); [by left|done].
  - intros Hc. destruct (Hforth Hc) as (_ & rt2 & _ & H2). eauto.
  - intros [rt Hr]. apply (Hback (succeeded rt)); [by right|done].
Qed.

Lemma connected_iff_search_succeeds_witness :
  (is_connected known_shortest_path node_a node_f = Returned true ↔
   ∃ rt, dijkstra known_shortest_path node_a node_f 0 = Returned (succeeded rt)) ∧
  (is_connected known_shortest_path node_a node_f = Returned true ↔
   ∃ rt, astar known_shortest_path node_a node_f (Some misleading) 0
           = Returned (succeeded rt)).
Proof.
  apply (connected_iff_search_succeeds known_shortest_path node_a node_f
           misleading 0).
  - intros a n w Hn. apply Qlt_le_weak.
    by apply (positive_weightsb_sound known_shortest_path eq_refl a n w).
  - reflexivity.
  - reflexivity.
Defined.

(** X24.  Whatever the heuristic, [astar] never reports a smaller total
    distance than [dijkstra] on a graph without negative weights: its
    distance is the cost of a path, and that of [dijkstra] is the least. *)
Theorem astar_never_beats_dijkstra (g : Graph) (start goal : Node)
    (h : Node → Node → Q) (elapsed : N) (rt1 rt2 : Route) :
  (∀ a n w, (n, w) ∈ neighbors g a → (0 <= w)%Q) →
  dijkstra g start goal elapsed = Returned (succeeded rt1) →
  astar g start goal (Some h) elapsed = Returned (succeeded rt2) →
  (total_distance rt1 <= total_distance rt2)%Q.
Proof.
  intros Hw H1 H2.
  destruct (search_present g start goal None elapsed (succeeded rt1))
    as [Hs Hg]; [by left|done|].
  destruct (node_eqb start goal) eqn:Eq.
  { destruct (search_of_equal_nodes g start goal h elapsed Hs Eq)
      as (r1 & r2 & E1 & _ & D1 & E2 & _ & D2).
    rewrite E1 in H1. rewrite E2 in H2.
    injection H1 as <-. injection H2 as <-. by rewrite D1, D2. }
  apply node_eqb_false in Eq. rewrite dijkstra_run in H1 by done.
  rewrite astar_run in H2 by done.
  destruct (run_optimal Dijkstra "Dijkstra" g start goal elapsed Hw)
    as [(rt & Hr & _ & Hmin)|[_ Hf]]; try done.
  { intros a n w _ Hn. simpl. specialize (Hw a n w Hn). lra. }
  2:{ rewrite Hf in H1. done. }
  rewrite Hr in H1. injection H1 as <-.
  destruct (run_success (AStar h) "A*" g start goal elapsed _ Eq H2 eq_refl)
    as (st & d & l & _ & I1 & _ & Hd & _ & _ & [= ->]).
  simpl. destruct (inv_cost_walk (AStar h) g start st I1 _ _ Hd) as (c & Hc & <-).
  by apply Hmin.
Qed.

Lemma astar_never_beats_dijkstra_witness :
  ∃ rt1 rt2,
    dijkstra known_shortest_path node_a node_f 0 = Returned (succeeded rt1) ∧
    astar known_shortest_path node_a node_f (Some misleading) 0
      = Returned (succeeded rt2) ∧
    (total_distance rt1 <= total_distance rt2)%Q.
Proof.
  eexists _, _. split; [vm_compute; reflexivity|].
  split; [vm_compute; reflexivity|].
  eapply (astar_never_beats_dijkstra known_shortest_path node_a node_f
            misleading 0).
  - intros a n w Hn. apply Qlt_le_weak.
    by apply (positive_weightsb_sound known_shortest_path eq_refl a n w).
  - vm_compute. reflexivity.
  - vm_compute. reflexivity.
Defined.

(** ** Graphs whose edges all go both ways *)

(** The graphs that [add_node] and [add_edge(..., bidirectional=True)] can
    produce from [Graph()]. *)
Inductive built_two_way : Graph → Prop :=
  | two_way_init : built_two_way Graph_init
  | two_way_add_node (g : Graph) (n : Node) :
      built_two_way g → built_two_way (add_node g n)
  | two_way_add_edge (g g' : Graph) (a b : Node) (w : Q) :
      built_two_way g → add_edge g a b w true = Returned g' → built_two_way g'.

(** Every adjacency entry has its reverse, with the same weight. *)
Definition symmetric (g : Graph) : Prop :=
  ∀ a n w, (n, w) ∈ neighbors g a →
           ∃ a', (a', w) ∈ neighbors g n ∧ id a' = id a.

Lemma built_two_way_built (g : Graph) : built_two_way g → built g.
Proof.
  induction 1; [apply built_init|by apply built_add_node|by eapply built_add_edge].
Qed.

Lemma built_two_way_add_edges (es : list (Node * Node * Q * bool)) :
  ∀ g g', built_two_way g → forallb snd es = true →
          add_edges es g = Returned g' → built_two_way g'.
Proof.
  induction es as [|[[[a b] w] bi] es IH]; intros g g' Hg Hbi; simpl.
  - by intros [= <-].
  - simpl in Hbi. apply andb_true_iff in Hbi as [-> Hbi].
    destruct (add_edge g a b w true) as [g1| |] eqn:E; cbn [mbind outcome_bind];
      [|done..].
    apply IH; [|done]. by eapply two_way_add_edge.
Qed.

Lemma built_two_way_symmetric (g : Graph) : built_two_way g → symmetric g.
Proof.
  induction 1 as [|g n Hg IH|g g' a b w Hg IH E].
  - intros a n w Hn. by apply elem_of_nil in Hn.
  - intros a m w. rewrite add_node_neighbors. intros Hm.
    destruct (IH a m w Hm) as (a' & Ha' & Hid). exists a'.
    by rewrite add_node_neighbors.
  - apply add_edge_inv in E as (_ & _ & Hnb). intros x m v.
    rewrite Hnb, !elem_of_app. intros [Hm|[Hm|Hm]].
    + destruct (IH x m v Hm) as (a' & Ha' & Hid). exists a'.
      split; [|done]. rewrite Hnb. apply elem_of_app. by left.
    + destruct (node_eqb x a) eqn:Ex; [|by apply elem_of_nil in Hm].
      apply list_elem_of_singleton in Hm as [= -> ->]. apply node_eqb_true in Ex.
      exists a. split; [|done]. rewrite Hnb, !elem_of_app. right. right.
      rewrite (proj2 (node_eqb_true b b) eq_refl). simpl. left.
    + simpl in Hm. destruct (node_eqb x b) eqn:Ex; [|by apply elem_of_nil in Hm].
      apply list_elem_of_singleton in Hm as [= -> ->]. apply node_eqb_true in Ex.
      exists b. split; [|done]. rewrite Hnb, !elem_of_app. right. left.
      rewrite (proj2 (node_eqb_true a a) eq_refl). left.
Qed.

(** A path can be walked backwards, at the same cost. *)
Lemma walk_reverse (g : Graph) (u v : string) (c : Q) :
  symmetric g → walk g u v c → ∃ c', walk g v u c' ∧ (c' == c)%Q.
Proof.
  intros Hsym Hw. induction Hw as [u|a n w v c Hn Hw (c' & Hc' & Ec)].
  - exists 0%Q. split; [apply walk_nil|done].
  - destruct (Hsym a n w Hn) as (a' & Ha' & Hid).
    destruct (walk_snoc g v n a' w c' Hc' Ha') as (c'' & Hc'' & Ec'').
    exists c''. rewrite <- Hid. split; [done|]. lra.
Qed.

(** X25.  In a graph made with bidirectional edges only, every adjacency
    entry has its reverse with the same weight, and [is_connected] gives
    the same answer in both directions. *)
Theorem two_way_connectivity (g : Graph) (a b : Node) :
  built_two_way g →
  symmetric g ∧ is_connected g a b = is_connected g b a.
Proof.
  intros Hsym%built_two_way_symmetric. split; [done|].
  destruct (is_connected_total g a b) as [[|] Hab].
  - rewrite Hab. symmetry. apply is_connected_true.
    apply is_connected_true in Hab as [c Hc].
    destruct (walk_reverse g _ _ c Hsym Hc) as (c' & Hc' & _). eauto.
  - rewrite Hab. destruct (is_connected_total g b a) as [[|] Hba]; [|done].
    apply is_connected_true in Hba as [c Hc].
    destruct (walk_reverse g _ _ c Hsym Hc) as (c' & Hc' & _).
    apply is_connected_false in Hab as [_ Hno]. by apply Hno in Hc'.
Qed.

Lemma known_shortest_path_two_way : built_two_way known_shortest_path.
Proof.
  apply (built_two_way_add_edges
           [(node_a, node_b, 5%Q, true); (node_b, node_c, 3%Q, true);
            (node_a, node_d, 2%Q, true); (node_b, node_e, 4%Q, true);
            (node_c, node_f, 1%Q, true); (node_d, node_e, 1%Q, true);
            (node_e, node_f, 2%Q, true)] Graph_init);
    [apply two_way_init|reflexivity|].
  vm_compute. reflexivity.
Qed.

Lemma two_way_connectivity_witness :
  symmetric known_shortest_path ∧
  is_connected known_shortest_path node_a node_f
    = is_connected known_shortest_path node_f node_a.
Proof.
  apply (two_way_connectivity known_shortest_path node_a node_f).
  apply known_shortest_path_two_way.
Defined.

(** X26.  In a graph made with bidirectional edges only, whose weights are
    added without rounding (they are multiples of [2^-m], [m] at most 1000,
    and add up to at most [2^53] such steps), [dijkstra] between two nodes
    of the graph gives the same answer in both directions: it succeeds both
    ways with the same total distance, or fails both ways. *)
Theorem two_way_distance (m : nat) (g : Graph) (a b : Node)
    (elapsed1 elapsed2 : N) :
  built_two_way g → exact_weights m g → present g a → present g b →
  (∃ rt1 rt2,
     dijkstra g a b elapsed1 = Returned (succeeded rt1) ∧
     dijkstra g b a elapsed2 = Returned (succeeded rt2) ∧
     (total_distance rt1 == total_distance rt2)%Q) ∨
  (dijkstra g a b elapsed1 = Returned (failed (no_path_message a b)) ∧
   dijkstra g b a elapsed2 = Returned (failed (no_path_message b a))).
Proof.
  intros Hg _ Ha Hb. pose proof (built_two_way_symmetric g Hg) as Hsym.
  destruct (built_invariants g (built_two_way_built g Hg)) as (_ & Hpos & _).
  assert (∀ x n w, (n, w) ∈ neighbors g x → (0 <= w)%Q) as Hw.
  { intros x n w Hn. apply Qlt_le_weak. by eapply Hpos. }
  destruct (node_eqb a b) eqn:Eq.
  { left. pose proof Eq as Eq'. rewrite node_eqb_sym in Eq'.
    destruct (search_of_equal_nodes g a b zero_heuristic elapsed1 Ha Eq)
      as (rt1 & _ & H1 & _ & D1 & _).
    destruct (search_of_equal_nodes g b a zero_heuristic elapsed2 Hb Eq')
      as (rt2 & _ & H2 & _ & D2 & _).
    exists rt1, rt2. split; [done|]. split; [done|]. by rewrite D1, D2. }
  apply node_eqb_false in Eq.
  rewrite !dijkstra_run by (done || by apply not_eq_sym).
  assert (∀ x y elapsed, id x ≠ id y →
    (∃ rt, run Dijkstra "Dijkstra" g x y elapsed = Returned (succeeded rt) ∧
           min_cost g x y (total_distance rt)) ∨
    ((∀ c, ¬ walk g (id x) (id y) c) ∧
     run Dijkstra "Dijkstra" g x y elapsed
       = Returned (failed (no_path_message x y)))) as Hopt.
  { intros x y elapsed Hne. apply run_optimal; try done.
    intros u n w _ Hn. simpl. specialize (Hw u n w Hn). lra. }
  destruct (Hopt a b elapsed1 Eq)
    as [(rt1 & H1 & (c1 & Hc1 & E1) & Hmin1)|[Hno1 H1]];
    destruct (Hopt b a elapsed2 (not_eq_sym Eq))
      as [(rt2 & H2 & (c2 & Hc2 & E2) & Hmin2)|[Hno2 H2]].
  - left. exists rt1, rt2. split; [done|]. split; [done|].
    destruct (walk_reverse g _ _ c1 Hsym Hc1) as (c1' & Hc1' & Ec1).
    destruct (walk_reverse g _ _ c2 Hsym Hc2) as (c2' & Hc2' & Ec2).
    specialize (Hmin1 c2' Hc2'). specialize (Hmin2 c1' Hc1'). lra.
  - destruct (walk_reverse g _ _ c1 Hsym Hc1) as (c1' & Hc1' & _).
    by apply Hno2 in Hc1'.
  - destruct (walk_reverse g _ _ c2 Hsym Hc2) as (c2' & Hc2' & _).
    by apply Hno1 in Hc2'.
  - by right.
Qed.

Lemma two_way_distance_witness :
  ∃ rt1 rt2,
    dijkstra known_shortest_path node_a node_f 3 = Returned (succeeded rt1) ∧
    dijkstra known_shortest_path node_f node_a 5 = Returned (succeeded rt2) ∧
    (total_distance rt1 == total_distance rt2)%Q.
Proof.
  destruct (two_way_distance 0 known_shortest_path node_a node_f 3 5
              known_shortest_path_two_way
              (exact_weightsb_sound 0 known_shortest_path eq_refl)
              eq_refl eq_refl)
    as [H|[H _]]; [exact H|].
  vm_compute in H. discriminate H.
Defined.
